(** * A shallow embedding of the chess rules engine

    The development follows the TypeScript sources module by module:
    squares and pieces, the castle map, the move record, the layered
    [Board], the attack map, move application and reversion, the legal
    move generator, the outcome classifier, perft, SAN selection and
    rendering, and the [ChessGame] facade.

    JavaScript numbers that hold small integers are modelled by [Z] and the
    bit operations by [Z.land], [Z.lor], [Z.shiftl] and [Z.shiftr]; a
    [Uint8Array] is a [list Z] whose writes are reduced modulo 256; a plain
    JS array is a [list]; the [seen] dictionary is a [gmap string jsnum];
    exceptions are the [Throw] results of a small state-and-error monad. *)

From stdpp Require Import gmap strings list fin_maps.
From Stdlib Require Import ZArith Lia Permutation.

Local Open Scope Z_scope.

(** ** Numbers and typed arrays *)

(** The values a JS number takes in the [seen] dictionary: an integer, or
    the [NaN] that [undefined--] produces. *)
Inductive jsnum : Type :=
| Num (z : Z)
| NaN.

#[global] Instance jsnum_eq_dec : EqDecision jsnum.
Proof. solve_decision. Defined.

Definition jsnum_add1 (n : jsnum) : jsnum :=
  match n with Num z => Num (1 + z) | NaN => NaN end.

Definition jsnum_decr (n : option jsnum) : jsnum :=
  match n with Some (Num z) => Num (z - 1) | _ => NaN end.

(** [n >= k] on JS numbers: every comparison with [NaN] is false. *)
Definition jsnum_geb (n : jsnum) (k : Z) : bool :=
  match n with Num z => k <=? z | NaN => false end.

Definition u8 (x : Z) : Z := x mod 256.

(** Element read of a typed array at an index within the array.  Outside
    of it the array reads [undefined], which this function does not have: it
    gives 0 past the end, and the first element below 0.  The on-board test
    that guards the reads of the sources lets pass indices that are not
    squares (256, -256); the properties read coordinates from 0 to 127 of
    arrays of 128 entries (256 for the attack map). *)
Definition get8 (a : list Z) (i : Z) : Z := default 0 (a !! Z.to_nat i).

(** Element write of a [Uint8Array]: the value is stored modulo 256. *)
Definition put8 (a : list Z) (i v : Z) : list Z := <[Z.to_nat i := u8 v]> a.

(** ** models/color.ts, models/space.ts, models/piece-type.ts,
       models/game-status.ts *)

(** Modelled from the spec: models/color.ts is not part of the sources at
    hand; section 3.2 gives white as 0 and black as 8, with
    [enemy = 8 - color]. *)
Definition COLOR_WHITE : Z := 0.
Definition COLOR_BLACK : Z := 8.

Definition PIECETYPE_PAWN : Z := 1.
Definition PIECETYPE_BISHOP : Z := 2.
Definition PIECETYPE_KNIGHT : Z := 3.
Definition PIECETYPE_ROOK : Z := 4.
Definition PIECETYPE_QUEEN : Z := 5.
Definition PIECETYPE_KING : Z := 6.

(** Modelled from the spec: models/space.ts is not part of the sources at
    hand; section 3.2 gives the byte layout: low three bits the piece type,
    bit 0x08 the colour, bit 0x10 the has-moved flag, 0 the empty square. *)
Definition SPACE_EMPTY : Z := 0.
Definition spaceGetType (sp : Z) : Z := Z.land sp 0x7.
Definition spaceGetColor (sp : Z) : Z := Z.land sp 0x8.
Definition spaceHasMoved (sp : Z) : bool := negb (Z.land sp 0x10 =? 0).
Definition spaceMarkMoved (sp : Z) : Z := Z.lor sp 0x10.
Definition encodePieceSpace (type color : Z) (moved : bool) : Z :=
  Z.lor (Z.lor type color) (if moved then 0x10 else 0).

(** Modelled from the spec: models/game-status.ts is not part of the
    sources at hand; section 3.8 gives the enumeration and its order. *)
Definition GAMESTATUS_ACTIVE : Z := 0.
Definition GAMESTATUS_CHECKMATE : Z := 1.
Definition GAMESTATUS_RESIGNED : Z := 2.
Definition GAMESTATUS_DRAW : Z := 3.
Definition GAMESTATUS_DRAW_STALEMATE : Z := 4.
Definition GAMESTATUS_DRAW_REPETITION : Z := 5.
Definition GAMESTATUS_DRAW_FIFTYMOVES : Z := 6.
Definition GAMESTATUS_DRAW_NOMATERIAL : Z := 7.

(** ** models/coord.ts *)

Definition FILES : string := "abcdefgh".
Definition RANKS : string := "12345678".

(** [idx >>> 4] shifts the coordinate taken as an unsigned 32-bit
    integer. *)
Definition parseCoord (idx : Z) : Z * Z :=
  (Z.land idx 0x7, Z.shiftr (idx mod 2 ^ 32) 4).

Definition buildCoord (file rank : Z) : Z :=
  Z.lor (Z.shiftl (Z.land rank 0x7) 4) (Z.land file 0x7).

(** [s[i]] coerced to a string for concatenation: a character, or the text
    of [undefined] when the index is out of range. *)
Definition charAt (s : string) (i : Z) : string :=
  if i <? 0 then "undefined"
  else match String.get (Z.to_nat i) s with
       | Some c => String c EmptyString
       | None => "undefined"
       end.

Definition coordToAN (idx : Z) : string :=
  let '(file, rank) := parseCoord idx in
  charAt FILES file +:+ charAt RANKS rank.

(** The on-board test of the 0x88 scheme, [(idx & 0x88) === 0]. *)
Definition onBoard (idx : Z) : bool := Z.land idx 0x88 =? 0.

(** ** models/castle-map.ts *)

Definition buildCastleMap (whiteQRook whiteKRook blackQRook blackKRook : Z) : Z :=
  Z.lor (Z.lor (Z.lor (Z.land whiteKRook 0xf)
                      (Z.shiftl (Z.land whiteQRook 0xf) 4))
               (Z.shiftl (Z.land blackKRook 0xf) 8))
        (Z.shiftl (Z.land blackQRook 0xf) 12).

Definition castleMapKingMoved (map color : Z) : Z :=
  if color =? COLOR_WHITE
  then Z.lor (Z.land map 0xff00) 0x0088
  else Z.lor (Z.land map 0x00ff) 0x8800.

(** A castle map is a number of 16 bits, one nibble for each rook; on
    numbers that fit in 32 bits the operations on [Z] give what the 32-bit
    operations of the source give, beyond that the source truncates. *)
Definition castleMapRookMoved (map coord : Z) : Z :=
  let kbase := if coord <? 0x40 then 0 else 8 in
  let qbase := kbase + 4 in
  let file := Z.land coord 0x0f in
  if Z.land (Z.shiftr map kbase) 0xf =? file then
    Z.lor (Z.land map (Z.lnot (Z.shiftl 0xf kbase))) (Z.shiftl 0x8 kbase)
  else if Z.land (Z.shiftr map qbase) 0xf =? file then
    Z.lor (Z.land map (Z.lnot (Z.shiftl 0xf qbase))) (Z.shiftl 0x8 qbase)
  else map.

Definition castleMapGetFile (map color : Z) (kingSide : bool) : Z :=
  let offset := color + (if kingSide then 0 else 4) in
  Z.land (Z.shiftr map offset) 0xf.

(** ** models/move.ts *)

Record PriorState : Type := mkPrior {
  prior_clock : Z;
  prior_moveNum : Z;
  prior_ep : Z;
  prior_status : Z;
  prior_castles : Z
}.

Record Move : Type := mkMove {
  what : Z;
  from : Z;
  to : Z;
  capture : Z;
  captureCoord : Z;
  castleRook : Z;
  castleRookFrom : Z;
  castleRookTo : Z;
  promote : Z;
  markEnPassant : Z;
  prior : PriorState
}.

#[global] Instance PriorState_eq_dec : EqDecision PriorState.
Proof. solve_decision. Defined.

#[global] Instance Move_eq_dec : EqDecision Move.
Proof. solve_decision. Defined.

Definition createFullMove (what from to capture captureCoord castleRook
    castleRookFrom castleRookTo promote markEnPassant : Z)
    (prior : PriorState) : Move :=
  mkMove what from to capture captureCoord castleRook castleRookFrom
         castleRookTo promote markEnPassant prior.

Definition createSimpleMove (what from to : Z) (prior : PriorState) : Move :=
  createFullMove what from to 0 0 0 0 0 0 0 prior.

Definition createSimpleCapture (what from to capture captureCoord : Z)
    (prior : PriorState) : Move :=
  createFullMove what from to capture captureCoord 0 0 0 0 0 prior.

Definition createCastle (what from to castleRook castleRookFrom castleRookTo : Z)
    (prior : PriorState) : Move :=
  createFullMove what from to 0 0 castleRook castleRookFrom castleRookTo 0 0 prior.

Definition moveToPromotion (move : Move) (promote : Z) : Move :=
  mkMove (what move) (from move) (to move) (capture move) (captureCoord move)
         (castleRook move) (castleRookFrom move) (castleRookTo move)
         promote (markEnPassant move) (prior move).

(** ** models/board.ts: layers *)

Definition BOARD_SIZE : Z := 8 * 8 * 2.

(** A [Move[]] lives in a store of arrays and is named by its index there,
    so that two names of one array can be told from two equal arrays. *)
Definition ArrayRef : Type := nat.

Record Layer : Type := mkLayer {
  board : list Z;
  attacks : list Z;
  clock : Z;
  moveNum : Z;
  ep : Z;
  status : Z;
  turn : Z;
  seen : gmap string jsnum;
  castles : Z;
  moveCache : gmap Z ArrayRef;
  pieceList : list Z
}.

Definition withBoard (l : Layer) (v : list Z) : Layer :=
  mkLayer v (attacks l) (clock l) (moveNum l) (ep l) (status l) (turn l)
          (seen l) (castles l) (moveCache l) (pieceList l).
Definition withAttacks (l : Layer) (v : list Z) : Layer :=
  mkLayer (board l) v (clock l) (moveNum l) (ep l) (status l) (turn l)
          (seen l) (castles l) (moveCache l) (pieceList l).
Definition withPieceList (l : Layer) (v : list Z) : Layer :=
  mkLayer (board l) (attacks l) (clock l) (moveNum l) (ep l) (status l) (turn l)
          (seen l) (castles l) (moveCache l) v.
Definition withSeen (l : Layer) (v : gmap string jsnum) : Layer :=
  mkLayer (board l) (attacks l) (clock l) (moveNum l) (ep l) (status l) (turn l)
          v (castles l) (moveCache l) (pieceList l).
Definition withMoveCache (l : Layer) (v : gmap Z ArrayRef) : Layer :=
  mkLayer (board l) (attacks l) (clock l) (moveNum l) (ep l) (status l) (turn l)
          (seen l) (castles l) v (pieceList l).
Definition withStatus (l : Layer) (v : Z) : Layer :=
  mkLayer (board l) (attacks l) (clock l) (moveNum l) (ep l) v (turn l)
          (seen l) (castles l) (moveCache l) (pieceList l).
(** The scalar fields a move changes: clock, move number, en-passant
    target, status, castle rights and turn. *)
Definition withMeta (l : Layer) (clock' moveNum' ep' status' castles' turn' : Z)
    : Layer :=
  mkLayer (board l) (attacks l) clock' moveNum' ep' status' turn'
          (seen l) castles' (moveCache l) (pieceList l).

Definition newLayer : Layer :=
  mkLayer (replicate (Z.to_nat BOARD_SIZE) SPACE_EMPTY)
          (replicate (Z.to_nat (BOARD_SIZE * 2)) 0)
          0 1 0x88 GAMESTATUS_ACTIVE COLOR_WHITE ∅ 0 ∅ [].

(** [copyLayer src dest] assigns every field of [dest]: the two typed arrays
    are overwritten element by element (they have the same length), [seen]
    is a fresh empty object, the piece list is a fresh slice and the two
    cache slots hold the references of [src].  The result does not depend on
    what [dest] held. *)
Definition copyLayer (src dest : Layer) : Layer :=
  mkLayer (board src) (attacks src) (clock src) (moveNum src) (ep src)
          (status src) (turn src) ∅ (castles src) (moveCache src)
          (pieceList src).

(** ** logic/attack-map.ts *)

Definition DIRS : list Z := [16; 1; -16; -1; 17; -15; -17; 15].
Definition KNIGHT : list Z := [31; 33; 14; 18; -18; -14; -33; -31].

(** Modelled from the spec: logic/attack-map.ts is not part of the sources
    at hand.  Section 3.4 gives the index of a cell, [2*square + color_bit];
    section 4.1 gives the squares a piece attacks (a slider's ray runs until
    it leaves the board or meets an occupied square, which it includes) and
    the update of the sliders that look through the changed square. *)
Definition attackIndex (color sq : Z) : Z := 2 * sq + Z.shiftr color 3.

Fixpoint rayFrom (n : nat) (board : list Z) (x step : Z) : list Z :=
  match n with
  | O => []
  | S n' =>
      if onBoard x then
        if get8 board x =? SPACE_EMPTY
        then x :: rayFrom n' board (x + step) step
        else [x]
      else []
  end.

(** The squares of the ray that leaves [sq] in direction [step]. *)
Definition ray (board : list Z) (sq step : Z) : list Z :=
  rayFrom 8 board (sq + step) step.

Definition pawnDir (color : Z) : Z := if color =? COLOR_WHITE then 1 else -1.

Definition orthogonals : list Z := take 4 DIRS.
Definition diagonals : list Z := drop 4 DIRS.

(** Modelled from the spec (section 4.1): the squares attacked from [sq] by a
    piece of the given colour and type through the occupancy [board]. *)
Definition attackedSquares (board : list Z) (sq color type : Z) : list Z :=
  if type =? PIECETYPE_PAWN then
    filter (λ x, onBoard x = true)
           [sq + 16 * pawnDir color - 1; sq + 16 * pawnDir color + 1]
  else if type =? PIECETYPE_KNIGHT then
    filter (λ x, onBoard x = true) (map (Z.add sq) KNIGHT)
  else if type =? PIECETYPE_KING then
    filter (λ x, onBoard x = true) (map (Z.add sq) DIRS)
  else if type =? PIECETYPE_BISHOP then
    concat (map (ray board sq) diagonals)
  else if type =? PIECETYPE_ROOK then
    concat (map (ray board sq) orthogonals)
  else if type =? PIECETYPE_QUEEN then
    concat (map (ray board sq) DIRS)
  else [].

(** Does a piece of this type slide along the direction [step]? *)
Definition slidesAlong (type step : Z) : bool :=
  if type =? PIECETYPE_QUEEN then bool_decide (step ∈ DIRS)
  else if type =? PIECETYPE_ROOK then bool_decide (step ∈ orthogonals)
  else if type =? PIECETYPE_BISHOP then bool_decide (step ∈ diagonals)
  else false.

(** Modelled from the spec (section 4.1): walking outward from [sq] in
    direction [step], the slider met first, if its movement covers that line,
    looks through [sq]; its ray past [sq] runs in the opposite direction. *)
Definition lookThrough (board : list Z) (sq step : Z) : list Z :=
  match last (ray board sq step) with
  | Some t =>
      let p := get8 board t in
      if negb (p =? SPACE_EMPTY) && slidesAlong (spaceGetType p) step
      then map (attackIndex (spaceGetColor p)) (ray board sq (- step))
      else []
  | None => []
  end.

Definition throughCells (board : list Z) (sq : Z) : list Z :=
  concat (map (lookThrough board sq) DIRS).

Definition directCells (board : list Z) (sq color type : Z) : list Z :=
  map (attackIndex color) (attackedSquares board sq color type).

Definition bump (delta : Z) (a : list Z) (i : Z) : list Z :=
  put8 a i (get8 a i + delta).

(** Modelled from the spec (section 4.1): adding a piece counts it on every
    square it attacks and takes the sliders it now blocks off the squares
    behind it; removing a piece does the opposite. *)
Definition attackMapAddPiece (l : Layer) (idx color type : Z) : Layer :=
  withAttacks l
    (fold_left (bump (-1)) (throughCells (board l) idx)
       (fold_left (bump 1) (directCells (board l) idx color type) (attacks l))).

Definition attackMapRemovePiece (l : Layer) (idx color type : Z) : Layer :=
  withAttacks l
    (fold_left (bump 1) (throughCells (board l) idx)
       (fold_left (bump (-1)) (directCells (board l) idx color type) (attacks l))).

Definition attackMapIsAttacked (l : Layer) (idx color : Z) : bool :=
  0 <? get8 (attacks l) (attackIndex color idx).

(** ** models/chess-error.ts and logic/assert.ts *)

Inductive ChessError : Type :=
| ChessErrorMsg (msg : string)
| ChessGameOver
| ChessBadInput (msg : string)
| ChessBadMove (msg : string)
| ChessNeedsPromotion
| ChessParseError (msg : string).

#[global] Instance ChessError_eq_dec : EqDecision ChessError.
Proof. solve_decision. Defined.

Inductive Res (A : Type) : Type :=
| Ok (a : A)
| Throw (e : ChessError).
Arguments Ok {A} a.
Arguments Throw {A} e.

(** ** models/board.ts: the board object *)

(** The layers from index 0 to the current one: [lower] holds the layers
    under the current one, nearest first, so the layer index is
    [length lower].  Slots above the index are not kept: [save] overwrites
    every field of the slot it moves to (see [copyLayer]), so what such a
    slot holds is never read.  [arrays] is the store of [Move[]] objects. *)
Record Board : Type := mkBoard {
  arrays : list (list Move);
  lower : list Layer;
  current : Layer
}.

Definition withCurrent (b : Board) (l : Layer) : Board :=
  mkBoard (arrays b) (lower b) l.

(** Computations on a board that may throw. *)
Definition M (A : Type) : Type := Board → Res (A * Board).

#[global] Instance M_ret : MRet M := λ A a b, Ok (a, b).
#[global] Instance M_bind : MBind M :=
  λ A B k m b, match m b with
               | Ok (a, b') => k a b'
               | Throw e => Throw e
               end.
Definition throw {A} (e : ChessError) : M A := λ _, Throw e.
Definition getCurrent : M Layer := λ b, Ok (current b, b).
Definition modifyCurrent (f : Layer → Layer) : M unit :=
  λ b, Ok (tt, withCurrent b (f (current b))).

Definition assert (expr : bool) (msg : string) : M unit :=
  if expr then mret tt else throw (ChessErrorMsg msg).

(** The loops of the sources that run over an array and thread an
    accumulator. *)
Fixpoint foldM {A B} (f : A → B → M A) (acc : A) (l : list B) : M A :=
  match l with
  | [] => mret acc
  | x :: l' => acc' ← f acc x; foldM f acc' l'
  end.

Fixpoint indexOf (x : Z) (l : list Z) : option nat :=
  match l with
  | [] => None
  | y :: l' => if x =? y then Some O else S <$> indexOf x l'
  end.

(** The removal branch of the piece-list update of [set]: the entry is
    swapped with the last one and the array is popped.  When [indexOf] finds
    nothing it is -1, the write at index -1 writes no element, and the pop drops
    [idx], which the write at the last index had just stored. *)
Definition pieceListRemove (pieces : list Z) (idx : Z) : list Z :=
  let last := (length pieces - 1)%nat in
  match indexOf idx pieces with
  | Some pieceIdx =>
      if bool_decide (pieceIdx ≠ last) then
        match pieces !! last with
        | Some temp => removelast (<[pieceIdx := temp]> (<[last := idx]> pieces))
        | None => removelast pieces
        end
      else removelast pieces
  | None =>
      match pieces with
      | [] => []
      | _ => removelast (<[last := idx]> pieces)
      end
  end.

(** The body of [set] once the coordinate has passed the assertion. *)
Definition Layer_set (l : Layer) (idx space : Z) : Layer :=
  let prior := get8 (board l) idx in
  let l1 :=
    if negb (prior =? SPACE_EMPTY)
    then attackMapRemovePiece l idx (spaceGetColor prior) (spaceGetType prior)
    else l in
  let l2 := withBoard l1 (put8 (board l1) idx space) in
  let l3 :=
    if negb (space =? SPACE_EMPTY)
    then attackMapAddPiece l2 idx (spaceGetColor space) (spaceGetType space)
    else l2 in
  if negb (Bool.eqb (prior =? SPACE_EMPTY) (space =? SPACE_EMPTY)) then
    if prior =? SPACE_EMPTY
    then withPieceList l3 (pieceList l3 ++ [idx])
    else withPieceList l3 (pieceListRemove (pieceList l3) idx)
  else l3.

Definition Board_set (idx space : Z) : M unit :=
  assert (onBoard idx) "Invalid set() coord";;
  modifyCurrent (λ l, Layer_set l idx space).

Definition Board_get (idx : Z) : M Z :=
  assert (onBoard idx) "Invalid get() coord";;
  l ← getCurrent;
  mret (get8 (board l) idx).

(** The walk of [putBoardHash] and [removeBoardHash] from the current layer
    down to layer 0: the first layer whose [seen] has the key.  [seen] is a
    plain object and the test is [hash in seen], which also finds the names
    the object inherits from its prototype ([constructor], [toString], ...);
    the map has own keys only, so the walk is the one of the sources for
    every other string, the hashes of positions among them. *)
Fixpoint findSeen (hash : string) (layers : list Layer) : option Layer :=
  match layers with
  | [] => None
  | l :: rest =>
      match seen l !! hash with
      | Some _ => Some l
      | None => findSeen hash rest
      end
  end.

Definition seenAt (hash : string) (l : Layer) : jsnum :=
  default NaN (seen l !! hash).

Definition Board_putBoardHash (hash : string) : M jsnum :=
  λ b,
    match findSeen hash (current b :: lower b) with
    | Some found =>
        let num := jsnum_add1 (seenAt hash found) in
        Ok (num, withCurrent b
                   (withSeen (current b) (<[hash := num]> (seen (current b)))))
    | None =>
        Ok (Num 1, withCurrent b
                     (withSeen (current b) (<[hash := Num 1]> (seen (current b)))))
    end.

Definition Board_removeBoardHash (hash : string) : M unit :=
  λ b,
    match findSeen hash (current b :: lower b) with
    | Some _ =>
        Ok (tt, withCurrent b
                  (withSeen (current b)
                     (<[hash := jsnum_decr (seen (current b) !! hash)]>
                        (seen (current b)))))
    | None => Ok (tt, b)
    end.

Definition Board_save : M unit :=
  λ b, Ok (tt, mkBoard (arrays b) (current b :: lower b)
                       (copyLayer (current b) newLayer)).

Definition Board_restore : M unit :=
  λ b, match lower b with
       | l :: rest => Ok (tt, mkBoard (arrays b) rest l)
       | [] => Ok (tt, b)
       end.

Definition Board_getPriorState : M PriorState :=
  l ← getCurrent;
  mret (mkPrior (clock l) (moveNum l) (ep l) (status l) (castles l)).

Definition newBoard : Board := mkBoard [] [] newLayer.

(** ** logic/king-in-danger.ts *)

Fixpoint kingInDanger_loop (kingColor : Z) (pieces : list Z) : M bool :=
  match pieces with
  | [] => mret false
  | idx :: rest =>
      spot ← Board_get idx;
      if negb (spaceGetType spot =? PIECETYPE_KING)
         || negb (spaceGetColor spot =? kingColor)
      then kingInDanger_loop kingColor rest
      else
        l ← getCurrent;
        if attackMapIsAttacked l idx (8 - kingColor)
        then mret true
        else kingInDanger_loop kingColor rest
  end.

Definition kingInDanger (kingColor : Z) : M bool :=
  l ← getCurrent;
  kingInDanger_loop kingColor (pieceList l).

(** ** logic/hash-board.ts *)

Definition fenPiece (sp : Z) : string :=
  if spaceGetColor sp =? COLOR_WHITE
  then charAt "?PBNRQK?" (spaceGetType sp)
  else charAt "?pbnrqk?" (spaceGetType sp).

Definition fenRun (run : Z) : string :=
  if run =? 0 then "" else charAt "012345678" run.

Fixpoint fenRank (board : list Z) (squares : list Z) (run : Z) : string :=
  match squares with
  | [] => fenRun run
  | sq :: rest =>
      let sp := get8 board sq in
      if sp =? SPACE_EMPTY then fenRank board rest (run + 1)
      else fenRun run +:+ fenPiece sp +:+ fenRank board rest 0
  end.

Definition fenPlacement (board : list Z) : string :=
  String.concat "/"
    (map (λ rank, fenRank board (map (λ file, 16 * rank + file) (seqZ 0 8)) 0)
         [7; 6; 5; 4; 3; 2; 1; 0]).

Definition fenCastle (map color : Z) (kingSide : bool) : string :=
  let file := castleMapGetFile map color kingSide in
  if negb (Z.land file 0x8 =? 0) then ""
  else if color =? COLOR_WHITE then
    (if file =? (if kingSide then 7 else 0)
     then (if kingSide then "K" else "Q") else charAt "ABCDEFGH" file)
  else
    (if file =? (if kingSide then 7 else 0)
     then (if kingSide then "k" else "q") else charAt FILES file).

Definition fenCastles (map : Z) : string :=
  let s := fenCastle map COLOR_WHITE true +:+ fenCastle map COLOR_WHITE false
           +:+ fenCastle map COLOR_BLACK true +:+ fenCastle map COLOR_BLACK false in
  if String.eqb s "" then "-" else s.

(** Modelled from the spec: logic/hash-board.ts is not part of the sources
    at hand; section 6.4 gives the hash as the first four FEN fields (piece
    placement, side to move, castling rights, en-passant target) joined by
    single spaces. *)
Definition hashBoard (l : Layer) : string :=
  fenPlacement (board l) +:+ " "
  +:+ (if turn l =? COLOR_WHITE then "w" else "b") +:+ " "
  +:+ fenCastles (castles l) +:+ " "
  +:+ (if onBoard (ep l) then coordToAN (ep l) else "-").

(** ** logic/perform-move.ts *)

Definition clearMoveCache (cache : gmap Z ArrayRef) : gmap Z ArrayRef :=
  delete COLOR_BLACK (delete COLOR_WHITE cache).

Definition castlesAfter (map : Z) (move : Move) : Z :=
  let type := spaceGetType (what move) in
  let c1 :=
    if type =? PIECETYPE_KING
    then castleMapKingMoved map (spaceGetColor (what move))
    else if type =? PIECETYPE_ROOK then castleMapRookMoved map (from move)
    else map in
  if negb (capture move =? 0) && (spaceGetType (capture move) =? PIECETYPE_ROOK)
  then castleMapRookMoved c1 (captureCoord move)
  else c1.

Definition performMeta (move : Move) (l : Layer) : Layer :=
  let pawnOrCapture :=
    (spaceGetType (what move) =? PIECETYPE_PAWN) || negb (capture move =? 0) in
  withMoveCache
    (withMeta l
       (if pawnOrCapture then 0 else clock l + 1)
       (if spaceGetColor (what move) =? COLOR_BLACK
        then moveNum l + 1 else moveNum l)
       (if markEnPassant move =? 0 then 0x88 else markEnPassant move)
       (status l)
       (castlesAfter (castles l) move)
       (8 - turn l))
    (clearMoveCache (moveCache l)).

Definition when (c : bool) (m : M unit) : M unit := if c then m else mret tt.

(** Modelled from the spec: logic/perform-move.ts is not part of the sources
    at hand; section 4.4 gives the steps in order: clear [from] (a captured
    piece is cleared before the mover is placed), place the mover with its
    moved bit on [to], move the castling rook, replace a promoting pawn, then
    update en-passant target, clock, castle rights, move number and turn,
    drop both move caches and record the hash of the new position. *)
Definition performMove (move : Move) : M unit :=
  Board_set (from move) SPACE_EMPTY;;
  when (negb (capture move =? 0))
       (Board_set (captureCoord move) SPACE_EMPTY);;
  Board_set (to move) (spaceMarkMoved (what move));;
  when (negb (castleRook move =? 0))
       (Board_set (castleRookFrom move) SPACE_EMPTY;;
        Board_set (castleRookTo move) (spaceMarkMoved (castleRook move)));;
  when (negb (promote move =? 0))
       (Board_set (to move)
          (encodePieceSpace (promote move) (spaceGetColor (what move)) true));;
  modifyCurrent (performMeta move);;
  l ← getCurrent;
  _ ← Board_putBoardHash (hashBoard l);
  mret tt.

(** ** logic/revert-move.ts *)

Definition revertMeta (move : Move) (l : Layer) : Layer :=
  withMoveCache
    (withMeta l (prior_clock (prior move)) (prior_moveNum (prior move))
       (prior_ep (prior move)) (prior_status (prior move))
       (prior_castles (prior move)) (8 - turn l))
    (clearMoveCache (moveCache l)).

Definition revertMove (move : Move) : M unit :=
  l ← getCurrent;
  Board_removeBoardHash (hashBoard l);;
  Board_set (from move) (what move);;
  Board_set (to move) SPACE_EMPTY;;
  when (negb (capture move =? 0))
       (Board_set (captureCoord move) (capture move));;
  when (negb (castleRook move =? 0))
       (Board_set (castleRookTo move) SPACE_EMPTY;;
        Board_set (castleRookFrom move) (castleRook move));;
  modifyCurrent (revertMeta move).

(** ** logic/list-valid-moves.ts *)

Definition PAWN_CAPS : list Z := [-1; 1].

Definition PROMOTIONS : list Z :=
  [PIECETYPE_QUEEN; PIECETYPE_ROOK; PIECETYPE_KNIGHT; PIECETYPE_BISHOP].

(** What the accepted candidate adds to the output array. *)
Definition pushed (move : Move) : list Move :=
  if negb (promote move =? 0)
  then map (moveToPromotion move) PROMOTIONS
  else [move].

Definition _tryPushMove (out : list Move) (move : Move) : M (list Move) :=
  let color := spaceGetColor (what move) in
  Board_save;;
  performMove move;;
  danger ← kingInDanger color;
  let out' := if negb danger then out ++ pushed move else out in
  Board_restore;;
  mret out'.

(** The inner loop of [_findMoves]: at most [n] further steps along [step],
    the next one landing on [newIdx]. *)
Fixpoint _findMoves_ray (n : nat) (sp idx newIdx step : Z) (prior : PriorState)
    (out : list Move) : M (list Move) :=
  match n with
  | O => mret out
  | S n' =>
      if onBoard newIdx then
        newSp ← Board_get newIdx;
        if newSp =? SPACE_EMPTY then
          out' ← _tryPushMove out (createSimpleMove sp idx newIdx prior);
          _findMoves_ray n' sp idx (newIdx + step) step prior out'
        else if spaceGetColor newSp =? 8 - spaceGetColor sp then
          _tryPushMove out
            (createSimpleCapture sp idx newIdx newSp newIdx prior)
        else mret out
      else mret out
  end.

Definition _findMoves (sp idx : Z) (dirs : list Z) (dirsLow dirsHigh maxDist : Z)
    (out : list Move) (prior : PriorState) : M (list Move) :=
  foldM (λ out step,
           _findMoves_ray (Z.to_nat maxDist) sp idx (idx + step) step prior out)
        out
        (take (Z.to_nat (dirsHigh - dirsLow)) (drop (Z.to_nat dirsLow) dirs)).

(** The first loop of [_tryCastle]: is every square of the range empty, the
    origins of king and rook apart? *)
Fixpoint _tryCastle_empty (move : Move) (idxs : list Z) : M bool :=
  match idxs with
  | [] => mret true
  | idx :: rest =>
      if (idx =? from move) || (idx =? castleRookFrom move)
      then _tryCastle_empty move rest
      else
        sp ← Board_get idx;
        if negb (sp =? SPACE_EMPTY) then mret false
        else _tryCastle_empty move rest
  end.

Definition min4 (a b c d : Z) : Z := Z.min (Z.min (Z.min a b) c) d.
Definition max4 (a b c d : Z) : Z := Z.max (Z.max (Z.max a b) c) d.

(** The integers from [lo] to [hi], both included. *)
Definition range (lo hi : Z) : list Z := seqZ lo (hi - lo + 1).

Definition castleSpan (move : Move) : list Z :=
  range (min4 (castleRookFrom move) (castleRookTo move) (from move) (to move))
        (max4 (castleRookFrom move) (castleRookTo move) (from move) (to move)).

Definition kingPath (move : Move) : list Z :=
  range (Z.min (from move) (to move)) (Z.max (from move) (to move)).

(** The board on which [_tryCastle] asks for danger: king and rook blanked,
    a king on every square of the king's travel. *)
Definition _tryCastle_kings (move : Move) : M unit :=
  Board_set (from move) SPACE_EMPTY;;
  Board_set (castleRookFrom move) SPACE_EMPTY;;
  foldM (λ _ idx, Board_set idx (what move)) tt (kingPath move).

Definition _tryCastle (out : list Move) (move : Move) : M (list Move) :=
  let color := spaceGetColor (what move) in
  free ← _tryCastle_empty move (castleSpan move);
  if negb free then mret out
  else
    Board_save;;
    _tryCastle_kings move;;
    hasDanger ← kingInDanger color;
    Board_restore;;
    if hasDanger : bool then mret out
    else _tryPushMove out move.

Definition _findKingCastles (sp idx : Z) (out : list Move) (prior : PriorState)
    : M (list Move) :=
  if spaceHasMoved sp then mret out
  else
    let color := spaceGetColor sp in
    l ← getCurrent;
    let kRank := castleMapGetFile (castles l) color true in
    let qRank := castleMapGetFile (castles l) color false in
    let rank := Z.land idx 0xf0 in
    out1 ←
      (if Z.land kRank 0x8 =? 0 then
         let rookFrom := Z.lor rank kRank in
         rook ← Board_get rookFrom;
         _tryCastle out
           (createCastle sp idx (Z.lor rank 6) rook rookFrom (Z.lor rank 5) prior)
       else mret out);
    if Z.land qRank 0x8 =? 0 then
      let rookFrom := Z.lor rank qRank in
      rook ← Board_get rookFrom;
      _tryCastle out1
        (createCastle sp idx (Z.lor rank 2) rook rookFrom (Z.lor rank 3) prior)
    else mret out1.

Definition _pawnCapture (sp idx oneUp promote ep : Z) (prior : PriorState)
    (out : list Move) (step : Z) : M (list Move) :=
  let coord := oneUp + step in
  if negb (Z.land coord 0x88 =? 0) then mret out
  else
    spot ← Board_get coord;
    if coord =? ep then
      let epCoord := idx + step in
      epSpot ← Board_get epCoord;
      _tryPushMove out
        (createFullMove sp idx coord epSpot epCoord 0 0 0 promote 0 prior)
    else if negb (spot =? SPACE_EMPTY)
            && (spaceGetColor spot =? 8 - spaceGetColor sp) then
      _tryPushMove out
        (createFullMove sp idx coord spot coord 0 0 0 promote 0 prior)
    else mret out.

Definition _pawnMoves (sp idx : Z) (out : list Move) (prior : PriorState)
    : M (list Move) :=
  let color := spaceGetColor sp in
  let dir := if color =? COLOR_WHITE then 1 else -1 in
  let oneUp := idx + 16 * dir in
  let twoUp := idx + 32 * dir in
  if negb (Z.land oneUp 0x88 =? 0) then mret out
  else
    let promote := if negb (Z.land twoUp 0x88 =? 0) then PIECETYPE_QUEEN else 0 in
    front ← Board_get oneUp;
    out2 ←
      (if front =? SPACE_EMPTY then
         out1 ← _tryPushMove out
                  (createFullMove sp idx oneUp 0 0 0 0 0 promote 0 prior);
         if negb (spaceHasMoved sp) && (Z.land twoUp 0x88 =? 0) then
           far ← Board_get twoUp;
           if far =? SPACE_EMPTY then
             _tryPushMove out1
               (createFullMove sp idx twoUp 0 0 0 0 0 0 oneUp prior)
           else mret out1
         else mret out1
       else mret out);
    l ← getCurrent;
    foldM (_pawnCapture sp idx oneUp promote (ep l) prior) out2 PAWN_CAPS.

Definition listValidMoves (idx : Z) (out : list Move) : M (list Move) :=
  sp ← Board_get idx;
  prior ← Board_getPriorState;
  assert (negb (sp =? SPACE_EMPTY)) "Listing moves of empty space";;
  Board_save;;
  Board_set idx SPACE_EMPTY;;
  out' ←
    (let type := spaceGetType sp in
     if type =? PIECETYPE_BISHOP then _findMoves sp idx DIRS 4 8 8 out prior
     else if type =? PIECETYPE_ROOK then _findMoves sp idx DIRS 0 4 8 out prior
     else if type =? PIECETYPE_QUEEN then _findMoves sp idx DIRS 0 8 8 out prior
     else if type =? PIECETYPE_KNIGHT then _findMoves sp idx KNIGHT 0 8 1 out prior
     else if type =? PIECETYPE_KING then
       out1 ← _findMoves sp idx DIRS 0 8 1 out prior;
       _findKingCastles sp idx out1 prior
     else if type =? PIECETYPE_PAWN then _pawnMoves sp idx out prior
     else mret out);
  Board_restore;;
  mret out'.

Definition allocArray (moves : list Move) : M ArrayRef :=
  λ b, Ok (length (arrays b), mkBoard (arrays b ++ [moves]) (lower b) (current b)).

Definition readArray (r : ArrayRef) : M (list Move) :=
  λ b, Ok (default [] (arrays b !! r), b).

(** The loop of [listAllValidMoves] over the piece list. *)
Definition listAllValidMoves_scan (color : Z) (pieces : list Z) : M (list Move) :=
  foldM (λ out idx,
           sp ← Board_get idx;
           if spaceGetColor sp =? color then listValidMoves idx out
           else mret out)
        [] pieces.

(** The result is the reference of the returned array: on a cache hit that
    of a fresh copy ([cached.slice()]), otherwise that of [out], which the
    cache slot now holds as well. *)
Definition listAllValidMoves (color : Z) : M ArrayRef :=
  l ← getCurrent;
  match moveCache l !! color with
  | Some cached =>
      moves ← readArray cached;
      allocArray moves
  | None =>
      out ← listAllValidMoves_scan color (pieceList l);
      r ← allocArray out;
      modifyCurrent (λ l, withMoveCache l (<[color := r]> (moveCache l)));;
      mret r
  end.

(** ** logic/board-lacks-material.ts *)

Definition isLightSquare (sq : Z) : bool :=
  Z.odd (Z.land sq 0x7 + Z.shiftr sq 4).

(** Modelled from the spec: logic/board-lacks-material.ts is not part of the
    sources at hand; section 4.7 lists the drawn material: bare kings, a lone
    bishop or knight against a bare king, and a bishop each on squares of one
    colour; any pawn, rook or queen, and any other set of minor pieces, keeps
    the game alive. *)
Definition boardLacksMaterial (l : Layer) : bool :=
  let others :=
    filter (λ sq, spaceGetType (get8 (board l) sq) ≠ PIECETYPE_KING)
           (pieceList l) in
  let minor sq :=
    let t := spaceGetType (get8 (board l) sq) in
    (t =? PIECETYPE_BISHOP) || (t =? PIECETYPE_KNIGHT) in
  let side c := filter (λ sq, spaceGetColor (get8 (board l) sq) = c) others in
  if negb (forallb minor others) then false
  else
    match side COLOR_WHITE, side COLOR_BLACK with
    | [], [] => true
    | [_], [] => true
    | [], [_] => true
    | [w], [k] =>
        (spaceGetType (get8 (board l) w) =? PIECETYPE_BISHOP)
        && (spaceGetType (get8 (board l) k) =? PIECETYPE_BISHOP)
        && Bool.eqb (isLightSquare w) (isLightSquare k)
    | _, _ => false
    end.

(** ** logic/move-results.ts *)

Record MoveResults : Type := mkMoveResults {
  enemyInCheck : bool;
  enemyCanMove : bool;
  newGameStatus : Z
}.

Definition _nextState (l : Layer) (enemyInCheck enemyCanMove : bool)
    (timesMoveSeen : jsnum) : Z :=
  let priorStatus := status l in
  if negb enemyCanMove then
    if enemyInCheck then GAMESTATUS_CHECKMATE
    else GAMESTATUS_DRAW_STALEMATE
  else if 100 <=? clock l then GAMESTATUS_DRAW_FIFTYMOVES
  else if jsnum_geb timesMoveSeen 3 then GAMESTATUS_DRAW_REPETITION
  else if boardLacksMaterial l then GAMESTATUS_DRAW_NOMATERIAL
  else priorStatus.

Definition checkMoveResults (moveColor : Z) : M MoveResults :=
  let enemy := 8 - moveColor in
  enemyInCheck ← kingInDanger enemy;
  r ← listAllValidMoves enemy;
  moves ← readArray r;
  let enemyCanMove := bool_decide (0 < length moves)%nat in
  l ← getCurrent;
  timesMoveSeen ← Board_putBoardHash (hashBoard l);
  l' ← getCurrent;
  mret (mkMoveResults enemyInCheck enemyCanMove
          (_nextState l' enemyInCheck enemyCanMove timesMoveSeen)).

Definition moveAndCheckResults (move : Move) : M MoveResults :=
  Board_save;;
  let moveColor := spaceGetColor (what move) in
  performMove move;;
  out ← checkMoveResults moveColor;
  Board_restore;;
  mret out.

(** ** logic/perft.ts *)

(** [perft_rec n depth]: the recursion of [perft], on [n] as a measure of
    [depth]: the body recurses only when [depth > 1], and then on
    [depth - 1], so [n = Z.to_nat (depth - 1)] is never used up. *)
Fixpoint perft_rec (n : nat) (depth : Z) : M Z :=
  l ← getCurrent;
  r ← listAllValidMoves (turn l);
  moves ← readArray r;
  if depth <=? 1 then mret (Z.of_nat (length moves))
  else
    match n with
    | O => mret (Z.of_nat (length moves))
    | S n' =>
        foldM (λ num move,
                 Board_save;;
                 performMove move;;
                 deep ← perft_rec n' (depth - 1);
                 Board_restore;;
                 mret (num + deep))
              0 moves
    end.

Definition perft (depth : Z) : M Z := perft_rec (Z.to_nat (depth - 1)) depth.

(** ** logic/board-layouts/build-standar-board.ts *)

Definition BACK_ROW : list Z :=
  [PIECETYPE_ROOK; PIECETYPE_KNIGHT; PIECETYPE_BISHOP; PIECETYPE_QUEEN;
   PIECETYPE_KING; PIECETYPE_BISHOP; PIECETYPE_KNIGHT; PIECETYPE_ROOK].
Definition PAWN_ROW : list Z := replicate 8 PIECETYPE_PAWN.

Definition _setRow (color start : Z) (pieces : list Z) : M unit :=
  foldM (λ _ i,
           Board_set (Z.lor start i)
             (encodePieceSpace (default 0 (pieces !! Z.to_nat i)) color false))
        tt (seqZ 0 8).

Definition buildStandardBoard : Res (unit * Board) :=
  (_setRow COLOR_WHITE 0x00 BACK_ROW;;
   _setRow COLOR_WHITE 0x10 PAWN_ROW;;
   _setRow COLOR_BLACK 0x60 PAWN_ROW;;
   _setRow COLOR_BLACK 0x70 BACK_ROW;;
   modifyCurrent (λ l, withMeta l (clock l) (moveNum l) (ep l) (status l)
                         (buildCastleMap 0x00 0x07 0x70 0x77) (turn l));;
   l ← getCurrent;
   _ ← Board_putBoardHash (hashBoard l);
   mret tt) newBoard.

(** ** logic/move-formats/move-to-san.ts *)

Definition _anPieceType (t : Z) : string :=
  if t =? PIECETYPE_BISHOP then "B"
  else if t =? PIECETYPE_KNIGHT then "N"
  else if t =? PIECETYPE_ROOK then "R"
  else if t =? PIECETYPE_QUEEN then "Q"
  else if t =? PIECETYPE_KING then "K"
  else "".

Definition _checksAndMates (results : MoveResults) : string :=
  if negb (enemyInCheck results) then ""
  else if enemyCanMove results then "+" else "#".

(** The moves [_getDeparture] tells [move] from: another origin, the same
    destination, the same piece type. *)
Definition similarTo (move other : Move) : bool :=
  negb (from other =? from move)
  && (to other =? to move)
  && (spaceGetType (what other) =? spaceGetType (what move)).

Definition _getDeparture (moves : list Move) (move : Move) : string :=
  let full := coordToAN (from move) in
  if (spaceGetType (what move) =? PIECETYPE_PAWN) && negb (capture move =? 0)
  then charAt full 0
  else
    let similar := List.filter (similarTo move) moves in
    if bool_decide (length similar = 0%nat) then ""
    else
      let '(file, rank) := parseCoord (from move) in
      if forallb (λ other, negb (fst (parseCoord (from other)) =? file)) similar
      then charAt full 0
      else if forallb (λ other, negb (snd (parseCoord (from other)) =? rank)) similar
      then charAt full 1
      else full.

Definition moveToSAN (moves : list Move) (move : Move)
    (result : option MoveResults) : string :=
  let mainStr :=
    if negb (castleRook move =? 0) then
      if castleRookFrom move <? from move then "O-O-O" else "O-O"
    else
      let depart := _getDeparture moves move in
      let who := _anPieceType (spaceGetType (what move)) in
      let capture := if negb (capture move =? 0) then "x" else "" in
      let to := coordToAN (to move) in
      let promote :=
        if negb (promote move =? 0)
        then "=" +:+ _anPieceType (promote move) else "" in
      who +:+ depart +:+ capture +:+ to +:+ promote in
  let gamestate :=
    match result with Some r => _checksAndMates r | None => "" end in
  mainStr +:+ gamestate.

(** ** logic/find-move-by-san.ts *)

Definition PIECETYPE_MAP (type : string) : option Z :=
  if String.eqb type "" then Some PIECETYPE_PAWN
  else if String.eqb type "B" then Some PIECETYPE_BISHOP
  else if String.eqb type "N" then Some PIECETYPE_KNIGHT
  else if String.eqb type "R" then Some PIECETYPE_ROOK
  else if String.eqb type "Q" then Some PIECETYPE_QUEEN
  else if String.eqb type "K" then Some PIECETYPE_KING
  else None.

(** The loop of [_selectMoveByInvariant], with the move found so far. *)
Fixpoint _selectMoveByInvariant_loop (san : string) (fn : Move → bool)
    (found : option Move) (moves : list Move) : Res Move :=
  match moves with
  | [] =>
      match found with
      | Some m => Ok m
      | None => Throw (ChessBadMove (san +:+ " is not a valid move"))
      end
  | move :: rest =>
      if fn move then
        match found with
        | Some f =>
            if negb (promote f =? 0) && negb (promote move =? 0)
            then Throw ChessNeedsPromotion
            else Throw (ChessBadMove (san +:+ " is ambiguous"))
        | None => _selectMoveByInvariant_loop san fn (Some move) rest
        end
      else _selectMoveByInvariant_loop san fn found rest
  end.

Definition _selectMoveByInvariant (moves : list Move) (san : string)
    (fn : Move → bool) : Res Move :=
  _selectMoveByInvariant_loop san fn None moves.

Definition charCode (s : string) : Z :=
  match s with
  | String c _ => Z.of_nat (Ascii.nat_of_ascii c)
  | EmptyString => -1
  end.

(** The capture groups of [MOVE_RE] on a string it matches: piece letter,
    departure file, departure rank, capture mark, destination square and
    promotion letter, an absent group being the empty string. *)
Record SanGroups : Type := mkSanGroups {
  sanPiece : string;
  sanFile : string;
  sanRank : string;
  sanCapture : string;
  sanDest : string;
  sanPromote : string
}.

(** [coordFromAN] on the destination group, which [MOVE_RE] has matched
    against a file letter and a rank digit. *)
Definition destCoord (an : string) : Z :=
  match an with
  | String f rest => buildCoord (charCode an - 97) (charCode rest - 49)
  | EmptyString => buildCoord (-98) (-50)
  end.

(** The invariant [findMoveBySAN] selects by when the string is no castle. *)
Definition sanInvariant (g : SanGroups) (move : Move) : bool :=
  (destCoord (sanDest g) =? to move)
  && bool_decide (Some (spaceGetType (what move)) = PIECETYPE_MAP (sanPiece g))
  && (if negb (String.eqb (sanFile g) "")
      then Z.land (from move) 0x7 =? charCode (sanFile g) - 97 else true)
  && (if negb (String.eqb (sanRank g) "")
      then Z.land (Z.shiftr (from move) 4) 0x7 =? charCode (sanRank g) - 49
      else true)
  && (if negb (String.eqb (sanCapture g) "")
      then negb (capture move =? 0) else capture move =? 0)
  && (if negb (String.eqb (sanPromote g) "")
      then bool_decide (Some (promote move) = PIECETYPE_MAP (sanPromote g))
      else true).

(** The invariant for a castle: the text has five characters for the long
    castle, three for the short one. *)
Definition castleInvariant (text : string) (move : Move) : bool :=
  if bool_decide (String.length text = 5%nat)
  then Z.land (castleRookTo move) 0x7 =? 3
  else Z.land (castleRookTo move) 0x7 =? 5.

(** ** models/coord.ts: [coordFromAN] *)

(** [AN_RE.test(an)], for the pattern [/^[a-h][1-8]$/i]: a file letter of
    either case followed by a rank digit, and nothing else. *)
Definition AN_RE_test (an : string) : bool :=
  match an with
  | String f (String r EmptyString) =>
      let f := Z.of_nat (Ascii.nat_of_ascii f) in
      let r := Z.of_nat (Ascii.nat_of_ascii r) in
      (((97 <=? f) && (f <=? 104)) || ((65 <=? f) && (f <=? 72)))
      && (49 <=? r) && (r <=? 56)
  | _ => false
  end.

(** [toLowerCase] on the characters the sources apply it to, those of the
    ASCII range: the letters A to Z move to a to z. *)
Definition lowerChar (c : Ascii.ascii) : Ascii.ascii :=
  let n := Ascii.nat_of_ascii c in
  if (65 <=? n)%nat && (n <=? 90)%nat then Ascii.ascii_of_nat (n + 32) else c.

Fixpoint toLowerCase (s : string) : string :=
  match s with
  | EmptyString => EmptyString
  | String c rest => String (lowerChar c) (toLowerCase rest)
  end.

(** [s.charCodeAt(i)] where the index is in range, as it is after the test
    of [AN_RE]. *)
Definition charCodeAt (s : string) (i : nat) : Z :=
  match String.get i s with
  | Some c => Z.of_nat (Ascii.nat_of_ascii c)
  | None => -1
  end.

Definition coordFromAN (an : string) : Res Z :=
  if AN_RE_test an then
    let lower := toLowerCase an in
    let file := charCodeAt lower 0 - 97 in
    let rank := charCodeAt lower 1 - 49 in
    Ok (buildCoord file rank)
  else Throw (ChessErrorMsg "Invalid coord").

(** ** public/game-move.ts and public/chess-game.ts *)

Module GameMove.
Record GameMoveInternal : Type := mk {
  num : Z;
  side : string;
  from : string;
  to : string;
  san : string;
  move : Move
}.
End GameMove.

Inductive Winner : Type := WinnerWhite | WinnerBlack | WinnerDraw.

Record ChessGame : Type := mkChessGame {
  game_board : Board;
  game_moves : list GameMove.GameMoveInternal;
  gameWinner : option Winner;
  drawReason : option string;
  tags : gmap string string
}.

Definition ChessGame_undoMove (g : ChessGame) : Res ChessGame :=
  match last (game_moves g) with
  | Some move =>
      match revertMove (GameMove.move move) (game_board g) with
      | Ok (_, b') =>
          Ok (mkChessGame b' (removelast (game_moves g)) None
                          (drawReason g) (tags g))
      | Throw e => Throw e
      end
  | None => Ok g
  end.

(** [GAMESTATUS_MAP]: the public name of a status, [None] for a key the
    object does not have. *)
Definition GAMESTATUS_MAP (status : Z) : option string :=
  if status =? GAMESTATUS_ACTIVE then Some "active"
  else if status =? GAMESTATUS_CHECKMATE then Some "checkmate"
  else if status =? GAMESTATUS_RESIGNED then Some "resigned"
  else if status =? GAMESTATUS_DRAW then Some "draw-other"
  else if status =? GAMESTATUS_DRAW_STALEMATE then Some "draw-stalemate"
  else if status =? GAMESTATUS_DRAW_REPETITION then Some "draw-repetition"
  else if status =? GAMESTATUS_DRAW_FIFTYMOVES then Some "draw-fifty-moves"
  else if status =? GAMESTATUS_DRAW_NOMATERIAL then Some "draw-no-material"
  else None.

(** The object [getStatus] returns, an absent property being [None]. *)
Module Status.
Record Status : Type := mk {
  state : option string;
  turn : string;
  winner : option Winner;
  reason : option string
}.
End Status.

Definition ChessGame_withStatus (g : ChessGame) (s : Z) : ChessGame :=
  mkChessGame
    (withCurrent (game_board g) (withStatus (current (game_board g)) s))
    (game_moves g) (gameWinner g) (drawReason g) (tags g).

Definition ChessGame_withWinner (g : ChessGame) (w : option Winner) : ChessGame :=
  mkChessGame (game_board g) (game_moves g) w (drawReason g) (tags g).

Definition ChessGame_withReason (g : ChessGame) (r : option string) : ChessGame :=
  mkChessGame (game_board g) (game_moves g) (gameWinner g) r (tags g).

(** A string in a condition counts as true when it is not empty. *)
Definition truthy (s : option string) : bool :=
  match s with
  | Some s => negb (String.eqb s "")
  | None => false
  end.

Definition ChessGame_getStatus (g : ChessGame) : Status.Status :=
  let current := current (game_board g) in
  Status.mk (GAMESTATUS_MAP (status current))
            (if turn current =? COLOR_WHITE then "white" else "black")
            (gameWinner g)
            (if truthy (drawReason g) then drawReason g else None).

Definition ChessGame_isGameOver (g : ChessGame) : bool :=
  negb (status (current (game_board g)) =? 0).

Definition ChessGame_resignGame (player : string) (g : ChessGame)
    : Res ChessGame :=
  if ChessGame_isGameOver g then Throw ChessGameOver
  else
    Ok (ChessGame_withWinner (ChessGame_withStatus g GAMESTATUS_RESIGNED)
          (Some (if String.eqb player "white" then WinnerBlack
                 else WinnerWhite))).

Definition ChessGame_drawGame (reason : option string) (g : ChessGame)
    : Res ChessGame :=
  if ChessGame_isGameOver g then Throw ChessGameOver
  else
    let g1 := ChessGame_withStatus g GAMESTATUS_DRAW in
    Ok (if truthy reason then ChessGame_withReason g1 reason else g1).

Definition ChessGame_maybeRefreshWinner (g : ChessGame) : ChessGame :=
  let status := status (current (game_board g)) in
  let turn := turn (current (game_board g)) in
  if status =? GAMESTATUS_CHECKMATE then
    ChessGame_withWinner g
      (Some (if turn =? COLOR_WHITE then WinnerBlack else WinnerWhite))
  else if GAMESTATUS_DRAW <=? status then
    ChessGame_withWinner g (Some WinnerDraw)
  else g.

(** ** logic/pgn/game-from-pgn.ts: the parser, from the tokens on *)

(** The six characters that are tokens of their own. *)
Inductive SpecialChar : Type :=
| LBracket | RBracket | LParen | RParen | Dot | Star.

Definition specialText (c : SpecialChar) : string :=
  match c with
  | LBracket => "[" | RBracket => "]" | LParen => "(" | RParen => ")"
  | Dot => "." | Star => "*"
  end.

Inductive Token : Type :=
| TokChar (type : SpecialChar)
| TokStr (value : string)
| TokInt (value : Z)
| TokSym (value : string)
| TokNag (value : Z).

Definition tokenType (tok : Token) : string :=
  match tok with
  | TokChar c => specialText c
  | TokStr _ => "Str"
  | TokInt _ => "Int"
  | TokSym _ => "Sym"
  | TokNag _ => "Nag"
  end.

(** [tok.value] where it is a string. *)
Definition tokenString (tok : Token) : option string :=
  match tok with
  | TokStr v | TokSym v => Some v
  | _ => None
  end.

Record PgnMove : Type := mkPgnMove {
  pgn_num : Z;
  pgn_turn : Z;
  pgn_move : Move;
  pgn_san : string
}.

Definition GAME_TERM_RE_test (s : string) : bool :=
  String.eqb s "1-0" || String.eqb s "0-1" || String.eqb s "1/2-1/2".

Definition _winnerString (status : string) : option Winner :=
  if String.eqb status "1-0" then Some WinnerWhite
  else if String.eqb status "0-1" then Some WinnerBlack
  else if String.eqb status "1/2-1/2" then Some WinnerDraw
  else None.

Definition liftRes {A} (r : Res A) : M A :=
  λ b, match r with Ok a => Ok (a, b) | Throw e => Throw e end.

Definition withTurn (l : Layer) (v : Z) : Layer :=
  mkLayer (board l) (attacks l) (clock l) (moveNum l) (ep l) (status l) v
          (seen l) (castles l) (moveCache l) (pieceList l).

Section Pgn.

(** The text of a number in a template string. *)
Variable numberText : Z → string.

(** logic/find-move-by-san.ts, [findMoveBySAN]: the selection of a move of
    the list by its text; its regular expressions are not modelled. *)
Variable findMoveBySAN : list Move → string → Res Move.

Definition _describeToken (tok : option Token) : string :=
  match tok with
  | None => "the end-of-file"
  | Some (TokChar c) => "a '" +:+ specialText c
  | Some (TokInt v) => "the Integer '" +:+ numberText v +:+ "'"
  | Some (TokStr v) => "the String '" +:+ v +:+ "'"
  | Some (TokSym v) => "the Symbol '" +:+ v +:+ "'"
  | Some (TokNag v) => "the NAG Code $" +:+ numberText v
  end.

(** [_expectToken] builds the error and drops it: there is no [throw]
    before the [new]. *)
Definition _expectToken (tok : option Token) (shouldBe : string) : M unit :=
  if match tok with
     | None => true
     | Some t => negb (String.eqb (tokenType t) shouldBe)
     end
  then
    let _ := ChessParseError ("Expected a '" +:+ shouldBe
                              +:+ "' token, but got " +:+ _describeToken tok
                              +:+ ".") in
    mret tt
  else mret tt.

Definition _doMove (moves : list PgnMove) (san : string) : M (list PgnMove) :=
  l ← getCurrent;
  let turn' := turn l in
  r ← listAllValidMoves turn';
  allMoves ← readArray r;
  move ← liftRes (findMoveBySAN allMoves san);
  l1 ← getCurrent;
  let moves' := moves ++ [mkPgnMove (moveNum l1) (turn l1) move san] in
  performMove move;;
  res ← checkMoveResults turn';
  modifyCurrent (λ l, withTurn l (8 - turn'));;
  when ((newGameStatus res <? GAMESTATUS_DRAW)
        || (newGameStatus res =? GAMESTATUS_DRAW_STALEMATE))
       (modifyCurrent (λ l, withStatus l (newGameStatus res)));;
  mret moves'.

(** The loop of [_parseMoveList] together with its inner loop, which skips
    a variation: [stackDepth] is 0 outside a variation. The result is the
    tokens left, the closing token first, and the moves. *)
Fixpoint _parseMoveList_loop (stackDepth : nat) (tokens : list Token)
    (moves : list PgnMove) : M (list Token * list PgnMove) :=
  match tokens with
  | [] => throw (ChessParseError "PGN move list didn't have a conclusion")
  | tok :: rest =>
      match stackDepth with
      | S depth =>
          match tok with
          | TokChar LParen => _parseMoveList_loop (S (S depth)) rest moves
          | TokChar RParen => _parseMoveList_loop depth rest moves
          | _ => _parseMoveList_loop (S depth) rest moves
          end
      | O =>
          match tok with
          | TokInt value =>
              l ← getCurrent;
              if negb (moveNum l =? value) then
                throw (ChessParseError
                         ("PGN move list expected it to be turn "
                          +:+ numberText value +:+ ", but the board is on "
                          +:+ numberText (moveNum l) +:+ "'"))
              else _parseMoveList_loop 0 rest moves
          | TokChar Dot => _parseMoveList_loop 0 rest moves
          | TokNag _ => _parseMoveList_loop 0 rest moves
          | TokChar Star => mret (tok :: rest, moves)
          | TokChar LParen => _parseMoveList_loop 1 rest moves
          | TokSym value =>
              if GAME_TERM_RE_test value then mret (tok :: rest, moves)
              else
                moves' ← _doMove moves value;
                _parseMoveList_loop 0 rest moves'
          | _ =>
              throw (ChessParseError
                       ("PGN data had unexpected data in the move list: "
                        +:+ _describeToken (Some tok)))
          end
      end
  end.

Definition _parseMoveList (tokens : list Token) (moves : list PgnMove)
    : M (list Token * list PgnMove) :=
  _parseMoveList_loop 0 tokens moves.

(** [sym.value] in the template of the last error of [_parseEndOfGame]. *)
Definition valueText (tok : Token) : string :=
  match tok with
  | TokChar _ => "undefined"
  | TokStr v | TokSym v => v
  | TokInt v | TokNag v => numberText v
  end.

Definition _parseEndOfGame (tokens : list Token) : M string :=
  match tokens with
  | [] => throw (ChessParseError "PGN move list didn't have a conclusion")
  | end_ :: rest =>
      if negb (bool_decide (length rest = 0%nat)) then
        throw (ChessParseError "PGN had extra moves after game ended")
      else if String.eqb (tokenType end_) "*" then mret "*"
      else
        _expectToken (Some end_) "Sym";;
        match tokenString end_ with
        | Some value =>
            if String.eqb value "1-0" || String.eqb value "0-1" then
              l ← getCurrent;
              when (status l =? GAMESTATUS_ACTIVE)
                   (modifyCurrent (λ l, withStatus l GAMESTATUS_RESIGNED));;
              mret value
            else if String.eqb value "1/2-1/2" then
              l ← getCurrent;
              res ← checkMoveResults (8 - turn l);
              modifyCurrent
                (λ l, withStatus l
                        (if GAMESTATUS_DRAW <=? newGameStatus res
                         then newGameStatus res else GAMESTATUS_DRAW));;
              mret value
            else
              throw (ChessParseError
                       ("PGN had an unexpected game end: " +:+ valueText end_))
        | None =>
            throw (ChessParseError
                     ("PGN had an unexpected game end: " +:+ valueText end_))
        end
  end.

End Pgn.

(** * Vocabulary of the properties *)

(** The number of legal moves of the side to move, as [perft] counts them at
    its first two lines. *)
Definition countMoves : M Z :=
  l ← getCurrent;
  r ← listAllValidMoves (turn l);
  moves ← readArray r;
  mret (Z.of_nat (length moves)).

(** The value and final board of a computation that does not throw. *)
Definition evalM {A} (m : M A) (b : Board) : option A :=
  match m b with Ok (a, _) => Some a | Throw _ => None end.

Definition execM {A} (m : M A) (b : Board) : option Board :=
  match m b with Ok (_, b') => Some b' | Throw _ => None end.

(** The board of a new game. *)
Definition standardBoard : Board :=
  match buildStandardBoard with Ok (_, b) => b | Throw _ => newBoard end.

(** The count of a hash as the walk down the layers reads it: that of the
    nearest layer that has the key, 0 when none has. *)
Definition seenCount (hash : string) (b : Board) : jsnum :=
  match findSeen hash (current b :: lower b) with
  | Some l => seenAt hash l
  | None => Num 0
  end.

(** A board with two layers whose lower layer has seen the hash [p] once and
    whose current layer has seen nothing: [putBoardHash] then [save]. *)
Definition savedAfterPut : M unit :=
  _ ← Board_putBoardHash "p";
  Board_save.

(** What [removeBoardHash] does there, read off the board it leaves: the
    entry of the current layer, the entry of the lower layer, and what the
    next [putBoardHash] returns. *)
Definition removeInUpperLayer : M (option jsnum * list (option jsnum) * jsnum) :=
  savedAfterPut;;
  Board_removeBoardHash "p";;
  cur ← getCurrent;
  under ← (λ b, Ok (lower b, b));
  next ← Board_putBoardHash "p";
  mret (seen cur !! "p", (λ l, seen l !! "p") <$> under, next).

(** A caller's [push] on an array it holds the reference of. *)
Definition Array_push (r : ArrayRef) (move : Move) : M unit :=
  λ b, Ok (tt, mkBoard (alter (λ moves, moves ++ [move]) r (arrays b))
                       (lower b) (current b)).

(** Two calls of [listAllValidMoves] on a new game, the caller pushing one
    more entry on the first list in between: the lengths of the two lists as
    returned, and whether the first array is the one the cache slot holds. *)
Definition mutateReturnedList : M (nat * nat * bool) :=
  first ← listAllValidMoves COLOR_WHITE;
  l ← getCurrent;
  moves1 ← readArray first;
  Array_push first (createSimpleMove 0 0 0 (mkPrior 0 0 0 0 0));;
  second ← listAllValidMoves COLOR_WHITE;
  moves2 ← readArray second;
  mret (length moves1, length moves2,
        bool_decide (moveCache l !! COLOR_WHITE = Some first)).

(** The squares of the board: the indices of the board array that pass the
    on-board test. *)
Definition isSquare (idx : Z) : Prop := 0 <= idx < 128 ∧ onBoard idx = true.

(** A position set up square by square, as [_setRow] does. *)
Definition placePieces (pieces : list (Z * Z)) : M unit :=
  foldM (λ _ p, Board_set p.1 p.2) tt pieces.

Definition setupBoard (pieces : list (Z * Z)) (turn' castles' ep' : Z) : Board :=
  match (placePieces pieces;;
         modifyCurrent (λ l, withMeta l 0 1 ep' GAMESTATUS_ACTIVE castles' turn'))
          newBoard with
  | Ok (_, b) => b
  | Throw _ => newBoard
  end.

(** The legal moves of the side to move, as a list. *)
Definition legalMoves (b : Board) : list Move :=
  default [] (evalM (r ← listAllValidMoves (turn (current b)); readArray r) b).

(** White to move with king a1 and pawns c7 and e7, black with rook d8 and
    king h1, no castle rights (3r4/2P1P3/8/8/8/8/8/K6k w - -): either pawn
    may take the rook and promote. *)
Definition twoPawnsBoard : Board :=
  setupBoard [(0x00, 22); (0x62, 17); (0x64, 17); (0x73, 28); (0x07, 30)]
             COLOR_WHITE 0x8888 0x88.

(** The groups of [MOVE_RE] on the text xd8=Q. *)
Definition xd8Q : SanGroups := mkSanGroups "" "" "" "x" "d8" "Q".

(** The four forms the departure part of a SAN move takes. *)
Inductive Departure : Type := DepNone | DepFile | DepRank | DepFull.

Definition departureText (d : Departure) (move : Move) : string :=
  match d with
  | DepNone => ""
  | DepFile => charAt (coordToAN (from move)) 0
  | DepRank => charAt (coordToAN (from move)) 1
  | DepFull => coordToAN (from move)
  end.

(** Does the departure part written for [move] fit the origin of [other]? *)
Definition departureFits (d : Departure) (move other : Move) : bool :=
  let sameFile := fst (parseCoord (from other)) =? fst (parseCoord (from move)) in
  let sameRank := snd (parseCoord (from other)) =? snd (parseCoord (from move)) in
  match d with
  | DepNone => true
  | DepFile => sameFile
  | DepRank => sameRank
  | DepFull => sameFile && sameRank
  end.

(** The departure part tells [move] from every move of the list with the
    same piece type and destination: whichever of them it fits leaves from
    the origin of [move]. *)
Definition identifies (moves : list Move) (move : Move) (d : Departure) : Prop :=
  ∀ other, In other moves →
    to other = to move →
    spaceGetType (what other) = spaceGetType (what move) →
    departureFits d move other = true →
    from other = from move.

Definition isPawnCapture (move : Move) : bool :=
  (spaceGetType (what move) =? PIECETYPE_PAWN) && negb (capture move =? 0).

(** White to move with king e1 and knights b1 and f3, black with king e8:
    both knights reach d2. *)
Definition twoKnightsBoard : Board :=
  setupBoard [(0x04, 22); (0x01, 3); (0x25, 19); (0x74, 30)]
             COLOR_WHITE 0x8888 0x88.

(** The knight move b1-d2 of that position. *)
Definition knightB1D2 : Move :=
  createSimpleMove 3 0x01 0x13 (mkPrior 0 1 0x88 GAMESTATUS_ACTIVE 0x8888).

Definition isSquareb (idx : Z) : bool :=
  (0 <=? idx) && (idx <? 128) && onBoard idx.

(** ** Layer-level readings of the board operations *)

(** The coordinates [performMove] and [revertMove] hand to [set] all pass its
    assertion. *)
Definition moveCoordsOk (m : Move) : bool :=
  onBoard (from m)
  && (if capture m =? 0 then true else onBoard (captureCoord m))
  && onBoard (to m)
  && (if castleRook m =? 0 then true
      else onBoard (castleRookFrom m) && onBoard (castleRookTo m)).

(** The squares [performMove] sets, in its order. *)
Definition performSets (m : Move) (l : Layer) : Layer :=
  let l1 := Layer_set l (from m) SPACE_EMPTY in
  let l2 := if capture m =? 0 then l1
            else Layer_set l1 (captureCoord m) SPACE_EMPTY in
  let l3 := Layer_set l2 (to m) (spaceMarkMoved (what m)) in
  let l4 := if castleRook m =? 0 then l3
            else Layer_set (Layer_set l3 (castleRookFrom m) SPACE_EMPTY)
                           (castleRookTo m) (spaceMarkMoved (castleRook m)) in
  if promote m =? 0 then l4
  else Layer_set l4 (to m)
         (encodePieceSpace (promote m) (spaceGetColor (what m)) true).

Definition performLayer (m : Move) (l : Layer) : Layer :=
  performMeta m (performSets m l).

(** The entry [putBoardHash] writes for the position of the layer. *)
Definition recordHash (under : list Layer) (l : Layer) : Layer :=
  withSeen l
    (<[hashBoard l :=
         jsnum_add1 (match findSeen (hashBoard l) (l :: under) with
                     | Some found => seenAt (hashBoard l) found
                     | None => Num 0
                     end)]> (seen l)).

(** The squares [revertMove] sets, in its order. *)
Definition revertSets (m : Move) (l : Layer) : Layer :=
  let l1 := Layer_set l (from m) (what m) in
  let l2 := Layer_set l1 (to m) SPACE_EMPTY in
  let l3 := if capture m =? 0 then l2
            else Layer_set l2 (captureCoord m) (capture m) in
  if castleRook m =? 0 then l3
  else Layer_set (Layer_set l3 (castleRookTo m) SPACE_EMPTY)
                 (castleRookFrom m) (castleRook m).

Definition forgetHash (under : list Layer) (l : Layer) : Layer :=
  match findSeen (hashBoard l) (l :: under) with
  | Some _ =>
      withSeen l (<[hashBoard l := jsnum_decr (seen l !! hashBoard l)]> (seen l))
  | None => l
  end.

Definition revertLayer (under : list Layer) (m : Move) (l : Layer) : Layer :=
  revertMeta m (revertSets m (forgetHash under l)).

(** [kingInDanger] on a layer: the loop over a piece list. *)
Fixpoint dangerIn (kingColor : Z) (l : Layer) (pieces : list Z) : Res bool :=
  match pieces with
  | [] => Ok false
  | idx :: rest =>
      if onBoard idx then
        let spot := get8 (board l) idx in
        if negb (spaceGetType spot =? PIECETYPE_KING)
           || negb (spaceGetColor spot =? kingColor)
        then dangerIn kingColor l rest
        else if attackMapIsAttacked l idx (8 - kingColor) then Ok true
        else dangerIn kingColor l rest
      else Throw (ChessErrorMsg "Invalid get() coord")
  end.

Definition inDanger (kingColor : Z) (l : Layer) : Res bool :=
  dangerIn kingColor l (pieceList l).

(** The layer on which a candidate is tried: a saved copy of the layer, the
    move applied. *)
Definition trialLayer (l : Layer) (m : Move) : Layer :=
  performLayer m (copyLayer l newLayer).

(** The candidate passes the filter of [_tryPushMove]. *)
Definition trialOK (l : Layer) (m : Move) : Prop :=
  moveCoordsOk m = true
  ∧ inDanger (spaceGetColor (what m)) (trialLayer l m) = Ok false.

(** The layer on which [_tryCastle] asks for danger: a saved copy of the
    layer, king and rook blanked, a king on every square of the king's
    travel. *)
Definition castleProbe (l : Layer) (m : Move) : Layer :=
  fold_left (λ l x, Layer_set l x (what m)) (kingPath m)
    (Layer_set (Layer_set (copyLayer l newLayer) (from m) SPACE_EMPTY)
               (castleRookFrom m) SPACE_EMPTY).

(** The board on which the king's travel is examined, in the words of the
    claim: king and rook lifted off their origins, and a king on every
    square from the lesser to the greater of the king's origin and
    destination, both included. *)
Definition kingsOnTravel (l : Layer) (m : Move) : Layer :=
  fold_left (λ l x, Layer_set l x (what m))
    (seqZ (Z.min (from m) (to m))
          (Z.max (from m) (to m) - Z.min (from m) (to m) + 1))
    (Layer_set (Layer_set (copyLayer l newLayer) (from m) SPACE_EMPTY)
               (castleRookFrom m) SPACE_EMPTY).

(** The castle passes the two checks of [_tryCastle]. *)
Definition castleOK (l : Layer) (m : Move) : Prop :=
  (∀ x, x ∈ castleSpan m → x ≠ from m → x ≠ castleRookFrom m →
        get8 (board l) x = SPACE_EMPTY)
  ∧ inDanger (spaceGetColor (what m)) (castleProbe l m) = Ok false.

(** ** The candidates of the generator *)

Definition priorOf (l : Layer) : PriorState :=
  mkPrior (clock l) (moveNum l) (ep l) (status l) (castles l).

(** The layer on which [listValidMoves] generates the moves of the piece on
    [idx]: a saved copy of the layer with that square blanked. *)
Definition genLayer (l : Layer) (idx : Z) : Layer :=
  Layer_set (copyLayer l newLayer) idx SPACE_EMPTY.

Definition promoOK (promo : Z) : Prop := promo = 0 ∨ promo = PIECETYPE_QUEEN.

(** The move records the generator builds for the piece [sp] taken off
    [idx], read off the places that build them: a move to an empty square
    (a step of a piece, a pawn's advance), a capture on the destination, an
    en-passant capture, and a castle that has passed the checks of
    [_tryCastle]. *)
Inductive Candidate (l : Layer) (sp idx : Z) (pr : PriorState) : Move → Prop :=
| cand_quiet dest promo mark :
    isSquare dest → dest ≠ idx →
    get8 (board l) dest = SPACE_EMPTY →
    promoOK promo →
    Candidate l sp idx pr (createFullMove sp idx dest 0 0 0 0 0 promo mark pr)
| cand_take dest promo :
    isSquare dest → dest ≠ idx →
    get8 (board l) dest ≠ SPACE_EMPTY →
    promoOK promo →
    Candidate l sp idx pr
      (createFullMove sp idx dest (get8 (board l) dest) dest 0 0 0 promo 0 pr)
| cand_ep dest taken promo :
    isSquare dest → dest ≠ idx →
    isSquare taken → taken ≠ idx → taken ≠ dest →
    dest = ep l →
    promoOK promo →
    Candidate l sp idx pr
      (createFullMove sp idx dest (get8 (board l) taken) taken 0 0 0 promo 0 pr)
| cand_castle (kingSide : bool) :
    let file := castleMapGetFile (castles l) (spaceGetColor sp) kingSide in
    let rank := Z.land idx 0xf0 in
    let m := createCastle sp idx (Z.lor rank (if kingSide then 6 else 2))
               (get8 (board l) (Z.lor rank file)) (Z.lor rank file)
               (Z.lor rank (if kingSide then 5 else 3)) pr in
    spaceGetType sp = PIECETYPE_KING →
    Z.land file 0x8 = 0 →
    castleOK l m →
    Candidate l sp idx pr m.

(** A move the generator emits for the piece [sp] taken off [idx]: an entry
    of what an accepted candidate pushes. *)
Definition Emitted (l : Layer) (sp idx : Z) (pr : PriorState) (m' : Move) : Prop :=
  ∃ m, Candidate l sp idx pr m ∧ trialOK l m ∧ In m' (pushed m).

(** A move of the list the generator builds for a colour on a layer. *)
Definition Generated (l : Layer) (color : Z) (m' : Move) : Prop :=
  ∃ idx, idx ∈ pieceList l
         ∧ spaceGetColor (get8 (board l) idx) = color
         ∧ get8 (board l) idx ≠ SPACE_EMPTY
         ∧ Emitted (genLayer l idx) (get8 (board l) idx) idx (priorOf l) m'.

(** A generator step run on the layer [l]: it leaves the board as it is and
    appends emitted moves to the output. *)
Definition Extends (l : Layer) (sp idx : Z) (pr : PriorState)
    (f : list Move → M (list Move)) : Prop :=
  ∀ out b out' b',
    current b = l →
    f out b = Ok (out', b') →
    b' = b ∧ ∃ extra, out' = out ++ extra ∧ Forall (Emitted l sp idx pr) extra.

(** The result of a generator step run with the output [out] on the board
    [b]: if it returns, the board is unchanged and the new output is [out]
    followed by emitted moves. *)
Definition Appended (l : Layer) (sp idx : Z) (pr : PriorState)
    (out : list Move) (b : Board) (res : Res (list Move * Board)) : Prop :=
  ∀ out' b',
    res = Ok (out', b') →
    b' = b ∧ ∃ extra, out' = out ++ extra ∧ Forall (Emitted l sp idx pr) extra.

(** Two layers with the same board array, attack map and piece list. *)
Definition sameArrays (l l' : Layer) : Prop :=
  board l = board l' ∧ attacks l = attacks l' ∧ pieceList l = pieceList l'.

(** The cache slot of the colour, when it is filled, holds moves generated
    for the current layer: the state [listAllValidMoves] leaves, and the one
    [performMove] and [revertMove] lead to by emptying both slots. *)
Definition cacheValid (b : Board) (color : Z) : Prop :=
  ∀ r, moveCache (current b) !! color = Some r →
       Forall (Generated (current b) color) (default [] (arrays b !! r)).

(** Is the piece byte a king of the colour? *)
Definition isKingOf (color spot : Z) : bool :=
  (spaceGetType spot =? PIECETYPE_KING) && (spaceGetColor spot =? color).

(** The board a call of [listAllValidMoves] leaves. *)
Definition listed (b : Board) (color : Z) : Board :=
  default newBoard (execM (listAllValidMoves color) b).

(** The knight move g1-f3 of a new game. *)
Definition knightG1F3 : Move :=
  createSimpleMove 3 0x06 0x25 (mkPrior 0 1 0x88 GAMESTATUS_ACTIVE 0x0707).

(** White to move with king e1 and rook h1, both unmoved, and the right to
    castle on the king's side; black with king e8. *)
Definition castleBoard : Board :=
  setupBoard [(0x04, 6); (0x07, 4); (0x74, 30)] COLOR_WHITE 0x8887 0x88.

(** The castle e1-g1, h1-f1 of that position. *)
Definition shortCastle : Move :=
  createCastle 6 0x04 0x06 4 0x07 0x05
    (mkPrior 0 1 0x88 GAMESTATUS_ACTIVE 0x8887).

(** ** The attack map as a count *)

Definition sumZ (xs : list Z) : Z := foldr Z.add 0 xs.

(** How many times a cell occurs in a list of cells. *)
Definition cnt (cell : Z) (cells : list Z) : Z :=
  sumZ (map (λ c, if bool_decide (c = cell) then 1 else 0) cells).

(** The 64 squares. *)
Definition SQUARES : list Z := filter (λ x, onBoard x = true) (seqZ 0 128).

(** The cells the piece that stands on [s] counts on. *)
Definition pieceCells (brd : list Z) (s : Z) : list Z :=
  let p := get8 brd s in
  if p =? SPACE_EMPTY then []
  else directCells brd s (spaceGetColor p) (spaceGetType p).

(** The number of pieces of the cell's colour that attack the cell's square. *)
Definition attackCount (brd : list Z) (cell : Z) : Z :=
  sumZ (map (λ s, cnt cell (pieceCells brd s)) SQUARES).

(** Equal as bytes. *)
Definition cong256 (a b : Z) : Prop := ∃ k, a = b + 256 * k.

(** The attack map of the layer is off the attack counts of its board by
    [base], cell by cell, as bytes. *)
Definition tracks (base : Z → Z) (l : Layer) : Prop :=
  ∀ i, 0 <= i < 256 →
       cong256 (get8 (attacks l) i) (attackCount (board l) i + base i).

Definition isByte (v : Z) : Prop := 0 <= v < 256.

(** The squares a line runs over, one by one: [k] empty squares from [y]. *)
Definition clearRun (b : list Z) (y d k : Z) : Prop :=
  ∀ j, 0 <= j < k → isSquare (y + j * d) ∧ get8 b (y + j * d) = SPACE_EMPTY.

(** What the piece on [s] counts on [cell] past the square [x] along [e]:
    the squares of the ray that leaves [x] on the board [b0], when the piece
    slides along [e] and its ray on the board [b] ends on [x]. *)
Definition pastCount (b0 b : list Z) (x cell s e : Z) : Z :=
  let q := get8 b0 s in
  if negb (q =? SPACE_EMPTY) && slidesAlong (spaceGetType q) e
     && bool_decide (last (ray b s e) = Some x)
  then cnt cell (map (attackIndex (spaceGetColor q)) (ray b0 x e))
  else 0.

(** What [set] keeps of a layer: the lengths of the two typed arrays, a
    piece list that holds each occupied square once and no other, and an
    attack map that follows the attack counts of the board. *)
Record steady (base : Z → Z) (l : Layer) : Prop := mkSteady {
  st_board : length (board l) = 128%nat;
  st_attacks : length (attacks l) = 256%nat;
  st_bytes : Forall isByte (attacks l);
  st_nodup : NoDup (pieceList l);
  st_pieces : ∀ x, x ∈ pieceList l ↔ isSquare x ∧ get8 (board l) x ≠ SPACE_EMPTY;
  st_tracks : tracks base l }.

(** ** A move applied and reverted *)

Definition isByteb (v : Z) : bool := (0 <=? v) && (v <? 256).

(** A position as the board object holds it between two calls: the two typed
    arrays have their lengths and hold bytes, the piece list holds each
    occupied square once and nothing else, and the en-passant target, when
    it is a square, is empty. *)
Record wellFormed (l : Layer) : Prop := mkWellFormed {
  wf_board : length (board l) = 128%nat;
  wf_attacks : length (attacks l) = 256%nat;
  wf_board_bytes : Forall isByte (board l);
  wf_attack_bytes : Forall isByte (attacks l);
  wf_nodup : NoDup (pieceList l);
  wf_pieces : ∀ x, x ∈ pieceList l ↔ isSquare x ∧ get8 (board l) x ≠ SPACE_EMPTY;
  wf_ep : isSquare (ep l) → get8 (board l) (ep l) = SPACE_EMPTY }.

Definition wellFormedb (l : Layer) : bool :=
  bool_decide (length (board l) = 128%nat)
  && bool_decide (length (attacks l) = 256%nat)
  && forallb isByteb (board l)
  && forallb isByteb (attacks l)
  && bool_decide (NoDup (pieceList l))
  && forallb (λ x, isSquareb x && negb (get8 (board l) x =? SPACE_EMPTY))
             (pieceList l)
  && forallb (λ x, implb (onBoard x && negb (get8 (board l) x =? SPACE_EMPTY))
                         (bool_decide (x ∈ pieceList l)))
             (seqZ 0 128)
  && implb (isSquareb (ep l)) (get8 (board l) (ep l) =? SPACE_EMPTY).

(** The squares of the move lie apart as the [set] calls of [performMove]
    and [revertMove] need them: the mover leaves its square, and a castle
    neither puts the rook where the king stood nor the king where the rook
    stood. *)
Definition revertible (m : Move) : Prop :=
  from m ≠ to m
  ∧ (castleRook m ≠ 0 → from m ≠ castleRookTo m ∧ to m ≠ castleRookFrom m).

(** The second position is the first one in every component, the piece list
    up to the order of its entries. *)
Definition samePosition (l l' : Layer) : Prop :=
  board l' = board l
  ∧ attacks l' = attacks l
  ∧ pieceList l' ≡ₚ pieceList l
  ∧ castles l' = castles l
  ∧ ep l' = ep l
  ∧ clock l' = clock l
  ∧ moveNum l' = moveNum l
  ∧ turn l' = turn l.

(** What the generator has read off the board for a move it built: the
    mover on its origin; then an empty destination, or the captured piece on
    the destination, or the pawn taken in passing beside an empty
    destination, or the castling rook on its origin and empty destinations
    for king and rook. *)
Definition readFrom (brd : list Z) (m : Move) : Prop :=
  isSquare (from m) ∧ isSquare (to m)
  ∧ what m = get8 brd (from m)
  ∧ (promote m = 0 ∨ In (promote m) PROMOTIONS)
  ∧ ((castleRook m = 0 ∧ capture m = 0
      ∧ (to m = from m ∨ get8 brd (to m) = SPACE_EMPTY))
     ∨ (castleRook m = 0 ∧ capture m ≠ 0 ∧ captureCoord m = to m
        ∧ capture m = get8 brd (to m))
     ∨ (castleRook m = 0 ∧ capture m ≠ 0 ∧ isSquare (captureCoord m)
        ∧ captureCoord m ≠ from m ∧ captureCoord m ≠ to m
        ∧ capture m = get8 brd (captureCoord m)
        ∧ get8 brd (to m) = SPACE_EMPTY)
     ∨ (castleRook m ≠ 0 ∧ capture m = 0 ∧ promote m = 0
        ∧ isSquare (castleRookFrom m) ∧ isSquare (castleRookTo m)
        ∧ castleRook m = get8 brd (castleRookFrom m)
        ∧ castleRookFrom m ≠ from m ∧ castleRookTo m ≠ to m
        ∧ (to m = from m ∨ to m = castleRookFrom m
           ∨ get8 brd (to m) = SPACE_EMPTY)
        ∧ (castleRookTo m = from m ∨ castleRookTo m = castleRookFrom m
           ∨ get8 brd (castleRookTo m) = SPACE_EMPTY))).

(** The coordinates the move hands to [set] are squares and the pieces it
    writes are bytes. *)
Definition writesBytes (m : Move) : Prop :=
  isSquare (from m) ∧ isSquare (to m)
  ∧ isByte (what m) ∧ isByte (capture m) ∧ isByte (castleRook m)
  ∧ (capture m ≠ 0 → isSquare (captureCoord m))
  ∧ (castleRook m ≠ 0 → isSquare (castleRookFrom m) ∧ isSquare (castleRookTo m))
  ∧ (promote m ≠ 0 →
     isByte (encodePieceSpace (promote m) (spaceGetColor (what m)) true)).

(** The board after a move has been applied and reverted. *)
Definition appliedAndReverted (m : Move) (b : Board) : option Board :=
  execM (performMove m;; revertMove m) b.

(** White to move with king f1 and rook h1, both unmoved, and the right to
    castle on the king's side; black with king e8.  The castle brings the
    rook to the square the king leaves. *)
Definition kingF1Board : Board :=
  setupBoard [(0x05, 6); (0x07, 4); (0x74, 30)] COLOR_WHITE 0x8887 0x88.

(** The castle f1-g1, h1-f1 of that position. *)
Definition castleF1G1 : Move :=
  createCastle 6 0x05 0x06 4 0x07 0x05
    (mkPrior 0 1 0x88 GAMESTATUS_ACTIVE 0x8887).

(** ** The board object *)

(** The piece list holds each occupied square once, and nothing else. *)
Definition piecesListed (l : Layer) : Prop :=
  NoDup (pieceList l)
  ∧ ∀ x, x ∈ pieceList l ↔ isSquare x ∧ get8 (board l) x ≠ SPACE_EMPTY.

(** The board [revertMove] leaves after [performMove], when both return. *)
Definition revertedBoard (m : Move) (b : Board) : Board :=
  default newBoard (appliedAndReverted m b).

(** The board [performMove] leaves. *)
Definition movedBoard (m : Move) (b : Board) : Board :=
  default newBoard (execM (performMove m) b).

(** ** What a computation leaves of the board object *)

(** When the computation returns, the layers under the current one are the
    ones of before, and the arrays of the store are in their places, new
    ones after them. *)
Definition Framed {A} (f : M A) : Prop :=
  ∀ b a b', f b = Ok (a, b') →
    lower b' = lower b ∧ arrays b `prefix_of` arrays b'.

(** ... and the current layer is the one of before as well. *)
Definition Fixes {A} (f : M A) : Prop :=
  ∀ b a b', f b = Ok (a, b') →
    current b' = current b ∧ lower b' = lower b
    ∧ arrays b `prefix_of` arrays b'.

(** ... the current layer but for the slot of [color] in its move cache. *)
Definition Recaches {A} (color : Z) (f : M A) : Prop :=
  ∀ b a b', f b = Ok (a, b') →
    (∃ cache, current b' = withMoveCache (current b) cache
              ∧ ∀ c, c ≠ color → cache !! c = moveCache (current b) !! c)
    ∧ lower b' = lower b ∧ arrays b `prefix_of` arrays b'.

(** The computation runs on top of the layers of [b0], after a [save], and
    ends on [b0]. *)
Definition Closes {A} (b0 : Board) (f : M A) : Prop :=
  ∀ b a b',
    lower b = current b0 :: lower b0 → arrays b0 `prefix_of` arrays b →
    f b = Ok (a, b') →
    current b' = current b0 ∧ lower b' = lower b0
    ∧ arrays b0 `prefix_of` arrays b'.

(** The board [moveAndCheckResults] leaves and the results it returns. *)
Definition probed (m : Move) (b : Board) : Board :=
  default newBoard (execM (moveAndCheckResults m) b).

Definition probeResults (m : Move) (b : Board) : MoveResults :=
  default (mkMoveResults false false 0) (evalM (moveAndCheckResults m) b).

(** The board [perft] leaves. *)
Definition counted (depth : Z) (b : Board) : Board :=
  default newBoard (execM (perft depth) b).

(** The board [checkMoveResults] leaves and the results it returns. *)
Definition checked (color : Z) (b : Board) : Board :=
  default newBoard (execM (checkMoveResults color) b).

Definition checkResults (color : Z) (b : Board) : MoveResults :=
  default (mkMoveResults false false 0) (evalM (checkMoveResults color) b).

(** ** The generator returns *)

(** Every entry of the piece list passes the on-board test. *)
Definition listedOnBoard (l : Layer) : Prop :=
  Forall (λ x, onBoard x = true) (pieceList l).

(** The computation returns on every board whose current layer has such a
    piece list ... *)
Definition Runs {A} (f : M A) : Prop :=
  ∀ b, listedOnBoard (current b) → ∃ a b', f b = Ok (a, b').

(** ... and leaves such a piece list. *)
Definition Lists {A} (f : M A) : Prop :=
  ∀ b a b', listedOnBoard (current b) → f b = Ok (a, b') →
            listedOnBoard (current b').

(** The computation returns when it runs on top of the layers of [b0],
    after a [save]. *)
Definition RunsAbove {A} (b0 : Board) (f : M A) : Prop :=
  ∀ b, lower b = current b0 :: lower b0 → listedOnBoard (current b) →
       ∃ a b', f b = Ok (a, b').

(** ** Hashes *)

(** The string holds a space.  The hash of a position does: its four fields
    are joined by spaces; the names a plain object inherits from its
    prototype ([constructor], [toString], ...) do not, so that for such a
    string the [in] test of [putBoardHash] and [removeBoardHash] finds own
    keys only. *)
Fixpoint holdsSpace (s : string) : bool :=
  match s with
  | EmptyString => false
  | String c s' => (Ascii.nat_of_ascii c =? 32)%nat || holdsSpace s'
  end.

(** ** Games *)

(** The game after 1. Nf3 from the initial position. *)
Definition gameNf3 : ChessGame :=
  mkChessGame (movedBoard knightG1F3 standardBoard)
    [GameMove.mk 1 "white" "g1" "f3" "Nf3" knightG1F3]
    None None ∅.


(** That game resigned by black, and drawn by agreement. *)
Definition resignedNf3 : ChessGame :=
  ChessGame_withWinner (ChessGame_withStatus gameNf3 GAMESTATUS_RESIGNED)
    (Some WinnerWhite).

Definition drawnNf3 : ChessGame :=
  ChessGame_withReason (ChessGame_withStatus gameNf3 GAMESTATUS_DRAW)
    (Some "agreed").

(** ** The moves of one piece among the moves of all *)

(** The generator step adds its moves at the end of the output array,
    the same moves whatever the array holds. *)
Definition Appends (f : list Move → M (list Move)) : Prop :=
  ∀ out b,
    f out b = match f [] b with
              | Ok (extra, b') => Ok (out ++ extra, b')
              | Throw e => Throw e
              end.

(** The moves [listValidMoves] lists for the piece on a square, into an
    empty array. *)
Definition pieceMoves (b : Board) (idx : Z) : list Move :=
  match listValidMoves idx [] b with
  | Ok (moves, _) => moves
  | Throw _ => []
  end.

(** ** Variations in a PGN move list *)

(** How many parentheses are open after the tokens, [depth] being open
    before them, as the inner loop of [_parseMoveList] counts; [None] when
    the count has come to 0 before the last token. *)
Fixpoint depthAfter (depth : nat) (tokens : list Token) : option nat :=
  match tokens with
  | [] => Some depth
  | tok :: rest =>
      match depth with
      | O => None
      | S d =>
          depthAfter (match tok with
                      | TokChar LParen => S (S d)
                      | TokChar RParen => d
                      | _ => S d
                      end) rest
      end
  end.

(** A selection of moves that finds none. *)
Definition findNone (moves : list Move) (san : string) : Res Move :=
  Throw (ChessBadMove (san +:+ " is not a valid move")).

(** The text of a number that is not needed. *)
Definition noText (n : Z) : string := "".

(** ** Positions on which [perft] runs *)

(** A board array of 128 bytes, and a piece list that holds each occupied
    square once and nothing else. *)
Definition boardListed (l : Layer) : Prop :=
  length (board l) = 128%nat ∧ Forall isByte (board l) ∧ piecesListed l.

Definition boardListedb (l : Layer) : bool :=
  bool_decide (length (board l) = 128%nat)
  && forallb isByteb (board l)
  && bool_decide (NoDup (pieceList l))
  && forallb (λ x, isSquareb x && negb (get8 (board l) x =? SPACE_EMPTY))
             (pieceList l)
  && forallb (λ x, implb (onBoard x && negb (get8 (board l) x =? SPACE_EMPTY))
                         (bool_decide (x ∈ pieceList l)))
             (seqZ 0 128).

(** * Properties *)

(** ** The monad *)

Lemma bind_Ok {A B} (m : M A) (k : A → M B) b a b' :
  m b = Ok (a, b') → (m ≫= k) b = k a b'.
Proof. intros H. unfold mbind, M_bind. by rewrite H. Qed.

Lemma bind_Throw {A B} (m : M A) (k : A → M B) b e :
  m b = Throw e → (m ≫= k) b = Throw e.
Proof. intros H. unfold mbind, M_bind. by rewrite H. Qed.

Lemma bind_inv {A B} (m : M A) (k : A → M B) b r b'' :
  (m ≫= k) b = Ok (r, b'') →
  ∃ a b', m b = Ok (a, b') ∧ k a b' = Ok (r, b'').
Proof.
  unfold mbind, M_bind. destruct (m b) as [[a b']|e]; [|done].
  intros H. by exists a, b'.
Qed.

(** ** perft *)

Lemma perft_rec_shallow n depth b :
  depth <= 1 → perft_rec n depth b = countMoves b.
Proof.
  intros Hd. unfold countMoves.
  destruct n; cbn [perft_rec];
    (replace (depth <=? 1) with true by (symmetry; apply Z.leb_le; lia));
    reflexivity.
Qed.

(** The measure of [perft_rec] is never used up: any larger one gives the
    same computation. *)
Lemma perft_rec_measure n : ∀ n' depth,
  (Z.to_nat (depth - 1) ≤ n)%nat → (Z.to_nat (depth - 1) ≤ n')%nat →
  ∀ b, perft_rec n depth b = perft_rec n' depth b.
Proof.
  induction n as [|n IH]; intros n' depth Hn Hn' b.
  - rewrite !perft_rec_shallow by lia. reflexivity.
  - destruct (Z.leb_spec depth 1) as [Hd|Hd].
    + rewrite !perft_rec_shallow by lia. reflexivity.
    + destruct n' as [|n']; [lia|].
      cbn [perft_rec].
      replace (depth <=? 1) with false by (symmetry; apply Z.leb_gt; lia).
      assert (Hrec : ∀ b, perft_rec n (depth - 1) b = perft_rec n' (depth - 1) b)
        by (intros b0; apply IH; lia).
      unfold mbind, M_bind.
      destruct (getCurrent b) as [[l b1]|]; [|done].
      destruct (listAllValidMoves (turn l) b1) as [[r b2]|]; [|done].
      destruct (readArray r b2) as [[moves b3]|]; [|done].
      generalize 0 as acc. revert b3.
      induction moves as [|mv moves IHm]; intros b3 acc; [done|].
      cbn [foldM]. unfold mbind, M_bind.
      destruct (Board_save b3) as [[? b4]|]; [|done].
      destruct (performMove mv b4) as [[? b5]|]; [|done].
      rewrite Hrec.
      destruct (perft_rec n' (depth - 1) b5) as [[deep b6]|]; [|done].
      destruct (Board_restore b6) as [[? b7]|]; [|done].
      cbn. apply IHm.
Qed.

(** C9: for every board and every depth at most 1, zero and negative depths
    included, [perft] returns the number of legal moves of the side to move;
    so [perft] at depth 0 is [perft] at depth 1, and not 1. *)
Theorem perft_depth_le_1 (depth : Z) (b : Board) :
  depth <= 1 →
  perft depth b = countMoves b ∧ perft 0 b = perft 1 b.
Proof.
  intros Hd. unfold perft. split.
  - apply perft_rec_shallow, Hd.
  - rewrite !perft_rec_shallow by lia. reflexivity.
Qed.

(** ** The outcome classifier *)

(** What [checkMoveResults] hands to [_nextState]: the danger of the enemy
    king, whether the enemy has a legal move, and the count [putBoardHash]
    returned for the position reached. *)
Lemma checkMoveResults_nextState moveColor b r b' :
  checkMoveResults moveColor b = Ok (r, b') →
  ∃ b1 b2 ref n,
    kingInDanger (8 - moveColor) b = Ok (enemyInCheck r, b1)
    ∧ listAllValidMoves (8 - moveColor) b1 = Ok (ref, b2)
    ∧ enemyCanMove r = bool_decide (0 < length (default [] (arrays b2 !! ref)))%nat
    ∧ Board_putBoardHash (hashBoard (current b2)) b2 = Ok (n, b')
    ∧ newGameStatus r = _nextState (current b') (enemyInCheck r) (enemyCanMove r) n.
Proof.
  unfold checkMoveResults. intros H.
  apply bind_inv in H as (chk & b1 & Hk & H).
  apply bind_inv in H as (ref & b2 & Hl & H).
  apply bind_inv in H as (moves & b3 & Hr & H).
  apply bind_inv in H as (l & b4 & Hc & H).
  apply bind_inv in H as (n & b5 & Hp & H).
  apply bind_inv in H as (l' & b6 & Hc' & H).
  exists b1, b2, ref, n.
  unfold readArray in Hr. unfold getCurrent in Hc, Hc'.
  unfold mret, M_ret in H. by simplify_eq.
Qed.

(** C3: the precedence of [_nextState].  No legal move for the enemy gives
    checkmate when the enemy is in check and stalemate otherwise, whatever
    the clock, the repetition count and the material are; else a clock of at
    least 100 gives the fifty-move draw; else a count of at least 3 gives
    the repetition draw; else, the count below 3 or not a number, lacking
    material gives the material draw; else the status stays.  From an active
    game the fifty-move draw is the result exactly when the enemy can move
    and the clock has reached 100, and the repetition draw exactly when
    moreover the clock is below 100 and the count is a number that has
    reached 3. *)
Theorem nextState_precedence (l : Layer) (inCheck canMove : bool) (n : jsnum) :
  (canMove = false → inCheck = true →
     _nextState l inCheck canMove n = GAMESTATUS_CHECKMATE)
  ∧ (canMove = false → inCheck = false →
       _nextState l inCheck canMove n = GAMESTATUS_DRAW_STALEMATE)
  ∧ (canMove = true → 100 <= clock l →
       _nextState l inCheck canMove n = GAMESTATUS_DRAW_FIFTYMOVES)
  ∧ (∀ count, n = Num count → canMove = true → clock l < 100 → 3 <= count →
       _nextState l inCheck canMove n = GAMESTATUS_DRAW_REPETITION)
  ∧ (∀ count, n = Num count → canMove = true → clock l < 100 → count < 3 →
       boardLacksMaterial l = true →
       _nextState l inCheck canMove n = GAMESTATUS_DRAW_NOMATERIAL)
  ∧ (∀ count, n = Num count → canMove = true → clock l < 100 → count < 3 →
       boardLacksMaterial l = false →
       _nextState l inCheck canMove n = status l)
  ∧ (n = NaN → canMove = true → clock l < 100 →
       _nextState l inCheck canMove n
       = if boardLacksMaterial l then GAMESTATUS_DRAW_NOMATERIAL else status l)
  ∧ (status l = GAMESTATUS_ACTIVE →
       (_nextState l inCheck canMove n = GAMESTATUS_DRAW_FIFTYMOVES
        ↔ canMove = true ∧ 100 <= clock l))
  ∧ (status l = GAMESTATUS_ACTIVE →
       (_nextState l inCheck canMove n = GAMESTATUS_DRAW_REPETITION
        ↔ canMove = true ∧ clock l < 100 ∧ ∃ count, n = Num count ∧ 3 <= count)).
Proof.
  unfold _nextState.
  assert (Hgeb : ∀ count, jsnum_geb (Num count) 3 = bool_decide (3 <= count)).
  { intros count. cbn. destruct (Z.leb_spec 3 count).
    - by rewrite bool_decide_eq_true_2.
    - rewrite bool_decide_eq_false_2; [done | lia]. }
  split_and!.
  - by intros -> ->.
  - by intros -> ->.
  - intros -> Hc. cbn. destruct (Z.leb_spec 100 (clock l)); [done | lia].
  - intros count -> -> Hc Hn. cbn [negb]. rewrite Hgeb.
    destruct (Z.leb_spec 100 (clock l)); [lia|].
    by rewrite bool_decide_eq_true_2.
  - intros count -> -> Hc Hn ->. cbn [negb]. rewrite Hgeb.
    destruct (Z.leb_spec 100 (clock l)); [lia|].
    rewrite bool_decide_eq_false_2; [done | lia].
  - intros count -> -> Hc Hn ->. cbn [negb]. rewrite Hgeb.
    destruct (Z.leb_spec 100 (clock l)); [lia|].
    rewrite bool_decide_eq_false_2; [done | lia].
  - intros -> -> Hc. cbn.
    destruct (Z.leb_spec 100 (clock l)); [lia | done].
  - intros Hs. rewrite Hs.
    destruct canMove, inCheck, (Z.leb_spec 100 (clock l)), n as [count|];
      rewrite ?Hgeb; cbn [negb jsnum_geb];
      repeat case_bool_decide; destruct (boardLacksMaterial l);
      split; try done; try (intros [? ?]; done || lia).
  - intros Hs. rewrite Hs.
    destruct canMove, inCheck, (Z.leb_spec 100 (clock l)), n as [count|];
      rewrite ?Hgeb; cbn [negb jsnum_geb];
      repeat case_bool_decide; destruct (boardLacksMaterial l);
      split; try done;
      try (intros (? & ? & c & ? & ?); simplify_eq; done || lia);
      try (intros _; split; [done|]; split; [done|]; by eexists).
Qed.

(** ** The repetition counts *)

Lemma findSeen_Some hash layers l :
  findSeen hash layers = Some l → is_Some (seen l !! hash) ∧ l ∈ layers.
Proof.
  induction layers as [|x rest IH]; [done|]. cbn.
  destruct (seen x !! hash) eqn:E.
  - intros [= <-]. rewrite E. split; [eauto | left].
  - intros H. destruct (IH H). split; [done | by right].
Qed.

(** [putBoardHash] reads the count of the nearest layer that has the hash,
    stores that count plus one in the current layer (1 when no layer has the
    hash), returns it, and leaves the layers below as they are. *)
Lemma putBoardHash_spec hash b :
  Board_putBoardHash hash b =
  Ok (jsnum_add1 (seenCount hash b),
      withCurrent b (withSeen (current b)
                       (<[hash := jsnum_add1 (seenCount hash b)]> (seen (current b))))).
Proof.
  unfold Board_putBoardHash, seenCount.
  destruct (findSeen hash (current b :: lower b)); reflexivity.
Qed.

Lemma seenCount_current hash b n :
  seen (current b) !! hash = Some n → seenCount hash b = n.
Proof. intros H. unfold seenCount, seenAt. cbn. rewrite H. cbn. by rewrite H. Qed.

(** A [putBoardHash] followed by a [removeBoardHash] of the same hash leaves
    the count of every hash as it was, and the lower layers untouched. *)
Lemma put_remove_counts hash b :
  ∃ b', (_ ← Board_putBoardHash hash; Board_removeBoardHash hash) b = Ok (tt, b')
        ∧ lower b' = lower b
        ∧ ∀ h, seenCount h b' = seenCount h b.
Proof.
  erewrite bind_Ok by apply putBoardHash_spec.
  set (n := jsnum_add1 (seenCount hash b)).
  unfold Board_removeBoardHash. cbn [current withCurrent withSeen seen lower findSeen].
  rewrite lookup_insert_eq. eexists. split; [reflexivity|]. split; [done|].
  intros h. unfold seenCount at 1. cbn [current withCurrent withSeen seen lower findSeen].
  destruct (decide (h = hash)) as [->|Hne].
  - rewrite lookup_insert_eq. unfold seenAt. cbn. rewrite lookup_insert_eq. cbn.
    subst n. destruct (seenCount hash b); cbn; [f_equal; lia | done].
  - rewrite !lookup_insert_ne by done.
    unfold seenCount. cbn [findSeen].
    destruct (seen (current b) !! h) eqn:E.
    + unfold seenAt. cbn. by rewrite !lookup_insert_ne, E by done.
    + reflexivity.
Qed.

(** When the nearest layer that has the hash is not the current one,
    [removeBoardHash] leaves that layer's count as it is and stores [NaN] in
    the current layer. *)
Lemma removeBoardHash_below hash b l :
  seen (current b) !! hash = None →
  findSeen hash (lower b) = Some l →
  ∃ b', Board_removeBoardHash hash b = Ok (tt, b')
        ∧ lower b' = lower b
        ∧ seenCount hash b' = NaN.
Proof.
  intros Hc Hl. unfold Board_removeBoardHash. cbn [findSeen].
  rewrite Hc, Hl. eexists. split; [reflexivity|]. split; [done|].
  apply seenCount_current. cbn. by rewrite lookup_insert_eq.
Qed.

(** C7: on a board whose lower layer has seen a hash once and whose current
    layer, made by [save], has not, [removeBoardHash] does not decrement the
    nearest occurrence: the lower layer still holds 1, the current layer
    holds [NaN], and the next [putBoardHash] of the hash returns [NaN]. *)
Theorem removeBoardHash_upper_layer_NaN :
  evalM removeInUpperLayer newBoard = Some (Some NaN, [Some (Num 1)], NaN).
Proof. vm_compute. reflexivity. Qed.

(** ** The move cache *)

(** On a cache miss the array [listAllValidMoves] returns is the array it
    stores in the cache slot. *)
Lemma listAllValidMoves_miss_alias color b r b' :
  moveCache (current b) !! color = None →
  listAllValidMoves color b = Ok (r, b') →
  moveCache (current b') !! color = Some r.
Proof.
  intros Hc. unfold listAllValidMoves.
  unfold mbind at 1, M_bind at 1. cbn [getCurrent]. rewrite Hc.
  intros H. apply bind_inv in H as (out & b1 & _ & H).
  apply bind_inv in H as (r1 & b2 & _ & H).
  apply bind_inv in H as ([] & b3 & Hm & H).
  unfold modifyCurrent in Hm. unfold mret, M_ret in H. simplify_eq. cbn.
  apply lookup_insert_eq.
Qed.

(** On a cache hit the array returned is a fresh one. *)
Lemma listAllValidMoves_hit_fresh color b cached r b' :
  moveCache (current b) !! color = Some cached →
  listAllValidMoves color b = Ok (r, b') →
  r = length (arrays b)
  ∧ arrays b' = arrays b ++ [default [] (arrays b !! cached)]
  ∧ current b' = current b.
Proof.
  intros Hc. unfold listAllValidMoves.
  unfold mbind at 1, M_bind at 1. cbn [getCurrent]. rewrite Hc.
  unfold readArray, allocArray, mbind, M_bind. intros H. by simplify_eq.
Qed.

(** C8: on a new game the first call of [listAllValidMoves] returns the very
    array it has put in the cache slot, not a copy: it has the 20 opening
    moves, and after the caller pushes an entry on it the next call returns a
    list of 21. *)
Theorem listAllValidMoves_returns_cache_array :
  evalM mutateReturnedList standardBoard = Some (20%nat, 21%nat, true).
Proof. vm_compute. reflexivity. Qed.

(** ** Selection of a move by SAN *)

Lemma _selectMoveByInvariant_loop_spec san fn moves : ∀ found,
  _selectMoveByInvariant_loop san fn found moves =
  match found, List.filter fn moves with
  | None, [] => Throw (ChessBadMove (san +:+ " is not a valid move"))
  | None, [m] => Ok m
  | Some f, [] => Ok f
  | None, f :: m :: _ | Some f, m :: _ =>
      if negb (promote f =? 0) && negb (promote m =? 0)
      then Throw ChessNeedsPromotion
      else Throw (ChessBadMove (san +:+ " is ambiguous"))
  end.
Proof.
  induction moves as [|move rest IH]; intros found; cbn.
  - by destruct found.
  - destruct (fn move) eqn:E.
    + destruct found as [f|]; [done|]. rewrite IH. cbn.
      by destruct (List.filter fn rest).
    + apply IH.
Qed.

(** What [_selectMoveByInvariant] returns, by the moves that satisfy the
    invariant, in the order of the list: none is a bad move, one is selected,
    and on two or more the first two decide between the two errors. *)
Lemma _selectMoveByInvariant_spec moves san fn :
  _selectMoveByInvariant moves san fn =
  match List.filter fn moves with
  | [] => Throw (ChessBadMove (san +:+ " is not a valid move"))
  | [m] => Ok m
  | f :: m :: _ =>
      if negb (promote f =? 0) && negb (promote m =? 0)
      then Throw ChessNeedsPromotion
      else Throw (ChessBadMove (san +:+ " is ambiguous"))
  end.
Proof.
  unfold _selectMoveByInvariant.
  by rewrite _selectMoveByInvariant_loop_spec.
Qed.

(** C5: with pawns on c7 and e7 that may both take on d8, the text xd8=Q
    names its promotion piece and fits two legal moves that differ by their
    origin, c7xd8=Q and e7xd8=Q; the selection fails with
    [ChessNeedsPromotion], not with the ambiguity error. *)
Theorem select_xd8Q_needs_promotion :
  map (λ m, (from m, to m, promote m))
      (List.filter (sanInvariant xd8Q) (legalMoves twoPawnsBoard))
  = [(0x62, 0x73, PIECETYPE_QUEEN); (0x64, 0x73, PIECETYPE_QUEEN)]
  ∧ _selectMoveByInvariant (legalMoves twoPawnsBoard) "xd8=Q" (sanInvariant xd8Q)
    = Throw ChessNeedsPromotion.
Proof. split; vm_compute; reflexivity. Qed.

(** ** The squares *)

(** A property of squares that can be computed holds of all of them once it
    is checked on the 128 indices of the board array. *)
Lemma forall_squares (P : Z → bool) :
  forallb (λ idx, implb (onBoard idx) (P idx)) (seqZ 0 128) = true →
  ∀ idx, isSquare idx → P idx = true.
Proof.
  intros H idx [Hr Hb]. rewrite forallb_forall in H.
  specialize (H idx). rewrite Hb in H. apply H.
  apply list_elem_of_In, elem_of_seqZ. lia.
Qed.

Lemma coordToAN_length idx :
  isSquare idx →
  String.length (coordToAN idx) = 2%nat
  ∧ String.length (charAt (coordToAN idx) 0) = 1%nat
  ∧ String.length (charAt (coordToAN idx) 1) = 1%nat.
Proof.
  intros H.
  pose proof (forall_squares
    (λ idx, (String.length (coordToAN idx) =? 2)%nat
            && (String.length (charAt (coordToAN idx) 0) =? 1)%nat
            && (String.length (charAt (coordToAN idx) 1) =? 1)%nat)
    eq_refl idx H) as Hc.
  cbv beta in Hc. rewrite !andb_true_iff, !Nat.eqb_eq in Hc. tauto.
Qed.

(** A square is its file and its rank. *)
Lemma square_file_rank a b :
  isSquare a → isSquare b →
  fst (parseCoord a) = fst (parseCoord b) →
  snd (parseCoord a) = snd (parseCoord b) →
  a = b.
Proof.
  intros Ha Hb Hf Hr.
  pose proof (forall_squares
    (λ a, forallb (λ b, implb (onBoard b)
                          (implb ((fst (parseCoord a) =? fst (parseCoord b))
                                  && (snd (parseCoord a) =? snd (parseCoord b)))
                                 (a =? b)))
                  (seqZ 0 128))
    eq_refl a Ha) as Hc.
  cbv beta in Hc. rewrite forallb_forall in Hc.
  specialize (Hc b). destruct Hb as [Hb1 Hb2]. rewrite Hb2, Hf, Hr, !Z.eqb_refl in Hc.
  apply Z.eqb_eq, Hc, list_elem_of_In, elem_of_seqZ. lia.
Qed.

(** ** The departure part of a SAN move *)

Lemma similarTo_spec move other :
  similarTo move other = true ↔
  from other ≠ from move ∧ to other = to move
  ∧ spaceGetType (what other) = spaceGetType (what move).
Proof.
  unfold similarTo. rewrite !andb_true_iff, negb_true_iff, Z.eqb_neq, !Z.eqb_eq.
  tauto.
Qed.

Lemma departureText_length d move :
  isSquare (from move) →
  String.length (departureText d move) =
  match d with DepNone => 0 | DepFull => 2 | _ => 1 end%nat.
Proof.
  intros H. destruct (coordToAN_length _ H) as (H2 & H0 & H1).
  by destruct d.
Qed.

(** C6: the departure part [_getDeparture] renders.  A pawn capture gets
    the file of departure.  Any other move gets one of the four forms (empty,
    file letter, rank digit, full square) that tells it from every move of
    the same piece type to the same destination, and no form that does so is
    shorter.  When one such move leaves from the same file and one from the
    same rank, the form is the full square. *)
Theorem getDeparture_shortest (moves : list Move) (move : Move) :
  isSquare (from move) →
  (∀ other, In other moves → isSquare (from other)) →
  (isPawnCapture move = true →
     _getDeparture moves move = departureText DepFile move)
  ∧ (isPawnCapture move = false →
       ∃ d, _getDeparture moves move = departureText d move
            ∧ identifies moves move d
            ∧ ∀ d', identifies moves move d' →
                (String.length (departureText d move)
                 ≤ String.length (departureText d' move))%nat)
  ∧ (isPawnCapture move = false →
       (∃ o, In o moves ∧ similarTo move o = true
             ∧ fst (parseCoord (from o)) = fst (parseCoord (from move))) →
       (∃ o, In o moves ∧ similarTo move o = true
             ∧ snd (parseCoord (from o)) = snd (parseCoord (from move))) →
       _getDeparture moves move = coordToAN (from move)).
Proof.
  intros Hsq Hall. unfold _getDeparture, isPawnCapture.
  destruct ((spaceGetType (what move) =? PIECETYPE_PAWN)
            && negb (capture move =? 0)) eqn:Hpc.
  { split; [done|]. split; intros; done. }
  split; [done|].
  remember (List.filter (similarTo move) moves) as similar eqn:Esim.
  assert (Hsim : ∀ o, In o similar ↔ In o moves ∧ similarTo move o = true)
    by (intros o; subst similar; apply filter_In).
  clear Esim.
  assert (Hnone : ∀ d, similar ≠ [] → identifies moves move d → d ≠ DepNone).
  { intros d Hne Hid ->. destruct similar as [|o rest]; [done|].
    assert (Ho : In o (o :: rest)) by (by left).
    apply Hsim in Ho as [Hin Hs].
    apply similarTo_spec in Hs as (Hfrom & Hto & Hty).
    by apply Hfrom, Hid. }
  destruct (parseCoord (from move)) as [file rank] eqn:Hpc'.
  assert (Hfile : file = fst (parseCoord (from move))) by (by rewrite Hpc').
  assert (Hrank : rank = snd (parseCoord (from move))) by (by rewrite Hpc').
  case_bool_decide as Hlen.
  { (* no other origin: the empty form *)
    apply length_zero_iff_nil in Hlen. split.
    - intros _. exists DepNone. split; [done|]. split.
      + intros o Hin Hto Hty _.
        destruct (decide (from o = from move)) as [|Hne]; [done|].
        assert (In o similar) as Ho by (apply Hsim; split; [done|]; by apply similarTo_spec).
        rewrite Hlen in Ho. destruct Ho.
      + intros d' _. cbn. lia.
    - intros _ (o & Hin & Hs & _) _.
      assert (In o similar) as Ho by (by apply Hsim).
      rewrite Hlen in Ho. destruct Ho. }
  assert (Hne : similar ≠ []) by (intros E; apply Hlen; by rewrite E).
  destruct (forallb (λ other, negb (fst (parseCoord (from other)) =? file)) similar) eqn:Hf.
  { (* no twin on the file: the file letter *)
    rewrite forallb_forall in Hf. split.
    - intros _. exists DepFile. split; [done|]. split.
      + intros o Hin Hto Hty Hfit. unfold departureFits in Hfit. apply Z.eqb_eq in Hfit.
        destruct (decide (from o = from move)) as [|Hd]; [done|].
        assert (In o similar) as Ho by (apply Hsim; split; [done|]; by apply similarTo_spec).
        apply Hf in Ho. apply negb_true_iff, Z.eqb_neq in Ho. congruence.
      + intros d' Hid. rewrite !departureText_length by done.
        specialize (Hnone d' Hne Hid). destruct d'; cbn; try lia; done.
    - intros _ (o & Hin & Hs & Hsame) _.
      assert (In o similar) as Ho by (by apply Hsim).
      apply Hf in Ho. apply negb_true_iff, Z.eqb_neq in Ho. congruence. }
  assert (HnoFile : ¬ identifies moves move DepFile).
  { intros Hid.
    assert (∃ o, In o similar ∧ fst (parseCoord (from o)) = file) as (o & Ho & Hsame).
    { clear -Hf. induction similar as [|x rest IH]; [done|]. cbn in Hf.
      apply andb_false_iff in Hf as [Hx|Hr].
      - exists x. split; [by left|]. apply negb_false_iff, Z.eqb_eq in Hx. exact Hx.
      - destruct (IH Hr) as (o & ? & ?). exists o. split; [by right | done]. }
    apply Hsim in Ho as [Hin Hs]. apply similarTo_spec in Hs as (Hfrom & Hto & Hty).
    apply Hfrom, Hid; try done. unfold departureFits. apply Z.eqb_eq. congruence. }
  destruct (forallb (λ other, negb (snd (parseCoord (from other)) =? rank)) similar) eqn:Hr.
  { (* a twin on the file, none on the rank: the rank digit *)
    rewrite forallb_forall in Hr. split.
    - intros _. exists DepRank. split; [done|]. split.
      + intros o Hin Hto Hty Hfit. unfold departureFits in Hfit. apply Z.eqb_eq in Hfit.
        destruct (decide (from o = from move)) as [|Hd]; [done|].
        assert (In o similar) as Ho by (apply Hsim; split; [done|]; by apply similarTo_spec).
        apply Hr in Ho. apply negb_true_iff, Z.eqb_neq in Ho. congruence.
      + intros d' Hid. rewrite !departureText_length by done.
        specialize (Hnone d' Hne Hid). destruct d'; cbn; try lia; done.
    - intros _ _ (o & Hin & Hs & Hsame).
      assert (In o similar) as Ho by (by apply Hsim).
      apply Hr in Ho. apply negb_true_iff, Z.eqb_neq in Ho. congruence. }
  (* a twin on the file and one on the rank: the full square *)
  assert (HnoRank : ¬ identifies moves move DepRank).
  { intros Hid.
    assert (∃ o, In o similar ∧ snd (parseCoord (from o)) = rank) as (o & Ho & Hsame).
    { clear -Hr. induction similar as [|x rest IH]; [done|]. cbn in Hr.
      apply andb_false_iff in Hr as [Hx|Hr].
      - exists x. split; [by left|]. apply negb_false_iff, Z.eqb_eq in Hx. exact Hx.
      - destruct (IH Hr) as (o & ? & ?). exists o. split; [by right | done]. }
    apply Hsim in Ho as [Hin Hs]. apply similarTo_spec in Hs as (Hfrom & Hto & Hty).
    apply Hfrom, Hid; try done. unfold departureFits. apply Z.eqb_eq. congruence. }
  split; [|done].
  intros _. exists DepFull. split; [done|]. split.
  - intros o Hin Hto Hty Hfit. unfold departureFits in Hfit.
    apply andb_true_iff in Hfit as [H1 H2]. apply Z.eqb_eq in H1, H2.
    apply square_file_rank; auto.
  - intros d' Hid. rewrite !departureText_length by done.
    specialize (Hnone d' Hne Hid). destruct d'; cbn; try lia; done.
Qed.

Lemma isSquareb_spec idx : isSquareb idx = true ↔ isSquare idx.
Proof.
  unfold isSquareb, isSquare.
  rewrite !andb_true_iff, Z.leb_le, Z.ltb_lt. tauto.
Qed.

Lemma origins_are_squares (moves : list Move) :
  forallb (λ m, isSquareb (from m)) moves = true →
  ∀ other, In other moves → isSquare (from other).
Proof.
  intros H other Hin. rewrite forallb_forall in H.
  apply isSquareb_spec, H, Hin.
Qed.

(** The knight move b1-d2 with a second knight on f3 that reaches d2 as
    well: the departure part is the file letter. *)
Lemma getDeparture_shortest_witness :
  In knightB1D2 (legalMoves twoKnightsBoard)
  ∧ _getDeparture (legalMoves twoKnightsBoard) knightB1D2 = "b"
  ∧ ∃ d, _getDeparture (legalMoves twoKnightsBoard) knightB1D2
         = departureText d knightB1D2
         ∧ identifies (legalMoves twoKnightsBoard) knightB1D2 d
         ∧ ∀ d', identifies (legalMoves twoKnightsBoard) knightB1D2 d' →
             (String.length (departureText d knightB1D2)
              ≤ String.length (departureText d' knightB1D2))%nat.
Proof.
  split; [vm_compute; tauto|]. split; [vm_compute; reflexivity|].
  apply (getDeparture_shortest (legalMoves twoKnightsBoard) knightB1D2).
  - apply isSquareb_spec. vm_compute. reflexivity.
  - apply origins_are_squares. vm_compute. reflexivity.
  - vm_compute. reflexivity.
Defined.

(** [perft] at depth 0 and at depth -3 on a new game. *)
Lemma perft_depth_le_1_witness :
  (perft 0 standardBoard = countMoves standardBoard
   ∧ perft 0 standardBoard = perft 1 standardBoard)
  ∧ evalM (perft (-3)) standardBoard = Some 20.
Proof.
  split.
  - apply (perft_depth_le_1 0 standardBoard). lia.
  - vm_compute. reflexivity.
Defined.

(** ** The board operations, layer by layer *)

Lemma Board_set_eq idx sp b :
  Board_set idx sp b =
  if onBoard idx then Ok (tt, withCurrent b (Layer_set (current b) idx sp))
  else Throw (ChessErrorMsg "Invalid set() coord").
Proof. unfold Board_set, assert, mbind, M_bind. by destruct (onBoard idx). Qed.

Lemma Board_get_eq idx b :
  Board_get idx b =
  if onBoard idx then Ok (get8 (board (current b)) idx, b)
  else Throw (ChessErrorMsg "Invalid get() coord").
Proof. unfold Board_get, assert, mbind, M_bind. by destruct (onBoard idx). Qed.

Lemma withCurrent_current b : withCurrent b (current b) = b.
Proof. by destruct b. Qed.

Lemma kingInDanger_loop_eq c pieces b :
  kingInDanger_loop c pieces b =
  match dangerIn c (current b) pieces with
  | Ok r => Ok (r, b)
  | Throw e => Throw e
  end.
Proof.
  induction pieces as [|idx rest IH]; [done|].
  cbn [kingInDanger_loop dangerIn]. unfold mbind at 1, M_bind at 1.
  rewrite Board_get_eq. destruct (onBoard idx); [|done].
  destruct (negb _ || negb _); [apply IH|].
  unfold mbind, M_bind, getCurrent.
  destruct (attackMapIsAttacked _ _ _); [done | apply IH].
Qed.

Lemma kingInDanger_eq c b :
  kingInDanger c b =
  match inDanger c (current b) with
  | Ok r => Ok (r, b)
  | Throw e => Throw e
  end.
Proof.
  unfold kingInDanger, inDanger, mbind, M_bind, getCurrent.
  apply kingInDanger_loop_eq.
Qed.

Lemma bind_set {B} idx sp (k : unit → M B) b :
  (Board_set idx sp ≫= k) b =
  if onBoard idx then k tt (withCurrent b (Layer_set (current b) idx sp))
  else Throw (ChessErrorMsg "Invalid set() coord").
Proof.
  unfold mbind, M_bind. rewrite Board_set_eq. by destruct (onBoard idx).
Qed.

Lemma bind_assoc {A B C} (m : M A) (f : A → M B) (k : B → M C) b :
  ((m ≫= f) ≫= k) b = (m ≫= (λ x, f x ≫= k)) b.
Proof. unfold mbind, M_bind. by destruct (m b) as [[]|]. Qed.

Lemma bind_ret {A B} (a : A) (k : A → M B) b : (mret a ≫= k) b = k a b.
Proof. done. Qed.

(** One step of a straight-line sequence of [set]s. *)
Ltac run_sets :=
  repeat first
    [ rewrite bind_ret
    | rewrite bind_assoc
    | rewrite bind_set;
      first
        [ match goal with
          | H : onBoard ?x = true |- context [if onBoard ?x then _ else _] =>
              rewrite H
          end
        | match goal with
          | |- context [if onBoard ?x then _ else _] =>
              destruct (onBoard x) eqn:?; [|by rewrite ?andb_false_r]
          end ] ];
  cbn [andb].

Lemma performMove_eq m b :
  performMove m b =
  if moveCoordsOk m
  then Ok (tt, withCurrent b (recordHash (lower b) (performLayer m (current b))))
  else Throw (ChessErrorMsg "Invalid set() coord").
Proof.
  unfold performMove, moveCoordsOk, performLayer, performSets, when.
  destruct (capture m =? 0), (castleRook m =? 0), (promote m =? 0);
    cbn [negb]; run_sets;
    unfold mbind, M_bind, modifyCurrent, getCurrent, Board_putBoardHash, recordHash;
    cbn [current withCurrent lower];
    by destruct (findSeen _ _).
Qed.

Lemma revertMove_eq m b :
  revertMove m b =
  if moveCoordsOk m
  then Ok (tt, withCurrent b (revertLayer (lower b) m (current b)))
  else Throw (ChessErrorMsg "Invalid set() coord").
Proof.
  unfold revertMove, moveCoordsOk, revertLayer, revertSets, forgetHash, when.
  unfold mbind at 1, M_bind at 1, getCurrent.
  unfold mbind at 1, M_bind at 1, Board_removeBoardHash.
  destruct (findSeen _ _), (capture m =? 0), (castleRook m =? 0);
    cbn [negb]; run_sets;
    unfold mbind, M_bind, modifyCurrent; cbn [current withCurrent lower]; done.
Qed.

(** ** The trial of a candidate *)

Lemma dangerIn_ext c l l' pieces :
  board l = board l' → attacks l = attacks l' →
  dangerIn c l pieces = dangerIn c l' pieces.
Proof.
  intros Hb Ha. induction pieces as [|idx rest IH]; [done|].
  cbn [dangerIn]. unfold attackMapIsAttacked. by rewrite Hb, Ha, IH.
Qed.

Lemma inDanger_ext c l l' :
  board l = board l' → attacks l = attacks l' → pieceList l = pieceList l' →
  inDanger c l = inDanger c l'.
Proof. intros Hb Ha Hp. unfold inDanger. rewrite Hp. by apply dangerIn_ext. Qed.

Lemma _tryPushMove_eq out m b :
  _tryPushMove out m b =
  if moveCoordsOk m then
    match inDanger (spaceGetColor (what m)) (trialLayer (current b) m) with
    | Ok danger => Ok (if negb danger then out ++ pushed m else out, b)
    | Throw e => Throw e
    end
  else Throw (ChessErrorMsg "Invalid set() coord").
Proof.
  unfold _tryPushMove. unfold mbind at 1, M_bind at 1, Board_save.
  unfold mbind at 1, M_bind at 1. rewrite performMove_eq.
  destruct (moveCoordsOk m); [|done].
  unfold mbind at 1, M_bind at 1. rewrite kingInDanger_eq.
  cbn [current withCurrent lower arrays].
  rewrite (inDanger_ext _ (recordHash _ _) (trialLayer (current b) m)) by done.
  destruct (inDanger _ _) as [danger|]; [|done].
  unfold mbind, M_bind, Board_restore. cbn. by destruct b.
Qed.

Lemma Extends_tryPush l sp idx pr m :
  Candidate l sp idx pr m →
  Extends l sp idx pr (λ out, _tryPushMove out m).
Proof.
  intros Hc out b out' b' Hl. rewrite _tryPushMove_eq, Hl.
  destruct (moveCoordsOk m) eqn:Hok; [|done].
  destruct (inDanger _ _) as [danger|] eqn:Hd; [|done].
  intros [= <- <-]. split; [done|]. destruct danger; cbn [negb].
  - exists []. by rewrite app_nil_r.
  - exists (pushed m). split; [done|].
    apply Forall_forall. intros m' Hin. exists m. repeat split; try done.
    by apply list_elem_of_In.
Qed.

Lemma Extends_ret l sp idx pr : Extends l sp idx pr (λ out, mret out).
Proof.
  intros out b out' b' _ [= <- <-]. split; [done|].
  exists []. by rewrite app_nil_r.
Qed.

Lemma Extends_bind l sp idx pr f g :
  Extends l sp idx pr f → Extends l sp idx pr g →
  Extends l sp idx pr (λ out, out1 ← f out; g out1).
Proof.
  intros Hf Hg out b out' b' Hl H.
  apply bind_inv in H as (out1 & b1 & H1 & H2).
  destruct (Hf _ _ _ _ Hl H1) as (-> & e1 & -> & F1).
  destruct (Hg _ _ _ _ Hl H2) as (-> & e2 & -> & F2).
  split; [done|]. exists (e1 ++ e2). rewrite app_assoc. split; [done|].
  by apply Forall_app.
Qed.

Lemma Extends_foldM {B} l sp idx pr (f : list Move → B → M (list Move)) xs :
  (∀ x, x ∈ xs → Extends l sp idx pr (λ out, f out x)) →
  Extends l sp idx pr (λ out, foldM f out xs).
Proof.
  induction xs as [|x xs IH]; intros Hf; [apply Extends_ret|].
  cbn [foldM]. apply Extends_bind.
  - apply Hf. left.
  - apply IH. intros y Hy. apply Hf. by right.
Qed.

(** ** The generator, step by step *)

Lemma onBoard_range x :
  -128 <= x < 256 → onBoard x = true → 0 <= x < 128.
Proof.
  intros Hr Hb.
  assert (H : forallb (λ x, implb (onBoard x) ((0 <=? x) && (x <? 128)))
                      (seqZ (-128) 384) = true) by (vm_compute; reflexivity).
  rewrite forallb_forall in H. specialize (H x).
  rewrite Hb in H. cbn [implb] in H.
  assert (Hin : In x (seqZ (-128) 384))
    by (apply list_elem_of_In, elem_of_seqZ; lia).
  apply H in Hin. apply andb_true_iff in Hin as [H1 H2].
  apply Z.leb_le in H1. apply Z.ltb_lt in H2. lia.
Qed.

(** A step of at most 33 from a square lands on a square or off the board. *)
Lemma isSquare_step x step :
  isSquare x → -33 <= step <= 33 → onBoard (x + step) = true →
  isSquare (x + step).
Proof.
  intros [Hr _] Hs Hb. split; [|done]. apply onBoard_range; [lia | done].
Qed.

Lemma isSquare_next x step :
  isSquare (x - step) → -33 <= step <= 33 → onBoard x = true → isSquare x.
Proof.
  intros Hp Hs Hb. replace x with ((x - step) + step) by lia.
  apply isSquare_step; [done | done |].
  by replace (x - step + step) with x by lia.
Qed.

(** Reading a square in a generator step. *)
Ltac inv_get H :=
  let v := fresh "v" in
  let b := fresh "b" in
  let Hget := fresh "Hget" in
  apply bind_inv in H as (v & b & Hget & H);
  rewrite Board_get_eq in Hget;
  match type of Hget with
  | (if onBoard ?x then _ else _) = _ =>
      let E := fresh "Hon" in
      destruct (onBoard x) eqn:E; [|discriminate Hget]
  end;
  injection Hget as <- <-.

Lemma Extends_ray l sp idx pr step n : ∀ newIdx,
  step ≠ 0 → -33 <= step <= 33 →
  (∃ k, 0 < k ∧ newIdx = idx + k * step) →
  isSquare (newIdx - step) →
  Extends l sp idx pr (λ out, _findMoves_ray n sp idx newIdx step pr out).
Proof.
  induction n as [|n IH]; intros newIdx Hs0 Hs (k & Hk & Hnew) Hprev;
    [apply Extends_ret|].
  intros out b out' b' Hl H. cbn [_findMoves_ray] in H.
  destruct (onBoard newIdx) eqn:Hon;
    [|by apply (Extends_ret l sp idx pr out b out' b')].
  assert (Hsq : isSquare newIdx).
  { replace newIdx with ((newIdx - step) + step) by lia.
    apply isSquare_step; [done | done |].
    by replace (newIdx - step + step) with newIdx by lia. }
  assert (Hne : newIdx ≠ idx) by nia.
  inv_get H. subst l.
  destruct (get8 (board (current b)) newIdx =? SPACE_EMPTY) eqn:He.
  - apply Z.eqb_eq in He.
    refine (Extends_bind (current b) sp idx pr
              (λ out, _tryPushMove out (createSimpleMove sp idx newIdx pr))
              (λ out, _findMoves_ray n sp idx (newIdx + step) step pr out)
              _ _ out b out' b' eq_refl H).
    + apply Extends_tryPush. apply (cand_quiet _ _ _ _ newIdx 0 0); try done.
      by left.
    + apply IH; try done.
      * exists (k + 1). split; [lia|]. lia.
      * by replace (newIdx + step - step) with newIdx by lia.
  - apply Z.eqb_neq in He.
    destruct (spaceGetColor _ =? _).
    + refine (Extends_tryPush (current b) sp idx pr _ _ out b out' b' eq_refl H).
      apply (cand_take _ _ _ _ newIdx 0); try done. by left.
    + by apply (Extends_ret (current b) sp idx pr out b out' b').
Qed.

Lemma Extends_findMoves l sp idx pr dirs lo hi maxDist :
  isSquare idx →
  (∀ step, step ∈ dirs → step ≠ 0 ∧ -33 <= step <= 33) →
  Extends l sp idx pr (λ out, _findMoves sp idx dirs lo hi maxDist out pr).
Proof.
  intros Hidx Hdirs. unfold _findMoves.
  apply (Extends_foldM l sp idx pr
           (λ out step, _findMoves_ray (Z.to_nat maxDist) sp idx (idx + step)
                          step pr out)).
  intros step Hin.
  apply subseteq_take, subseteq_drop in Hin.
  destruct (Hdirs step Hin) as [H0 Hr].
  apply Extends_ray; try done.
  - exists 1. lia.
  - by replace (idx + step - step) with idx by lia.
Qed.

Lemma steps_DIRS step : step ∈ DIRS → step ≠ 0 ∧ -33 <= step <= 33.
Proof.
  unfold DIRS. rewrite !elem_of_cons, elem_of_nil.
  intros [->|[->|[->|[->|[->|[->|[->|[->|[]]]]]]]]]; lia.
Qed.

Lemma steps_KNIGHT step : step ∈ KNIGHT → step ≠ 0 ∧ -33 <= step <= 33.
Proof.
  unfold KNIGHT. rewrite !elem_of_cons, elem_of_nil.
  intros [->|[->|[->|[->|[->|[->|[->|[->|[]]]]]]]]]; lia.
Qed.

Lemma _tryCastle_empty_inv m idxs b r b' :
  _tryCastle_empty m idxs b = Ok (r, b') →
  b' = b
  ∧ (r = true → ∀ x, x ∈ idxs → x ≠ from m → x ≠ castleRookFrom m →
                  get8 (board (current b)) x = SPACE_EMPTY).
Proof.
  induction idxs as [|idx rest IH]; cbn [_tryCastle_empty].
  - intros [= <- <-]. split; [done|]. intros _ x Hx. by apply elem_of_nil in Hx.
  - destruct ((idx =? from m) || (idx =? castleRookFrom m)) eqn:Hskip.
    + intros H. destruct (IH H) as [-> Hall]. split; [done|].
      intros Hr x Hx Hf Hk. apply elem_of_cons in Hx as [->|Hx]; [|by apply Hall].
      apply orb_true_iff in Hskip as [E|E]; apply Z.eqb_eq in E; congruence.
    + intros H. inv_get H.
      destruct (get8 (board (current b)) idx =? SPACE_EMPTY) eqn:He; cbn [negb] in H.
      * destruct (IH H) as [-> Hall]. split; [done|].
        intros Hr x Hx Hf Hk. apply elem_of_cons in Hx as [->|Hx]; [|by apply Hall].
        by apply Z.eqb_eq.
      * injection H as <- <-. split; done.
Qed.

Lemma foldM_set sp xs : ∀ b b',
  foldM (λ _ x, Board_set x sp) tt xs b = Ok (tt, b') →
  b' = withCurrent b (fold_left (λ l x, Layer_set l x sp) xs (current b)).
Proof.
  induction xs as [|x xs IH]; intros b b'; cbn [foldM fold_left].
  - intros [= <-]. by rewrite withCurrent_current.
  - rewrite bind_set. destruct (onBoard x); [|done].
    intros H. apply IH in H. by subst b'.
Qed.

Lemma Extends_tryCastle l sp idx pr m :
  (castleOK l m → Candidate l sp idx pr m) →
  Extends l sp idx pr (λ out, _tryCastle out m).
Proof.
  intros Hcand out b out' b' Hl H. unfold _tryCastle in H.
  apply bind_inv in H as (free & b1 & Hfree & H).
  apply _tryCastle_empty_inv in Hfree as [-> Hspan].
  destruct free; cbn [negb] in H;
    [|by apply (Extends_ret l sp idx pr out b out' b')].
  unfold mbind at 1, M_bind at 1, Board_save in H.
  apply bind_inv in H as ([] & b2 & Hkings & H).
  unfold _tryCastle_kings in Hkings.
  rewrite bind_set in Hkings. destruct (onBoard (from m)); [|done].
  rewrite bind_set in Hkings. destruct (onBoard (castleRookFrom m)); [|done].
  apply foldM_set in Hkings. cbn [current withCurrent] in Hkings.
  apply bind_inv in H as (hasDanger & b3 & Hd & H).
  rewrite kingInDanger_eq in Hd. subst b2. cbn [current withCurrent] in Hd.
  fold (castleProbe (current b) m) in Hd.
  destruct (inDanger _ (castleProbe _ _)) as [d|] eqn:Hdanger; [|done].
  injection Hd as <- <-.
  unfold mbind, M_bind, Board_restore in H. cbn in H.
  replace {| arrays := arrays b; lower := lower b; current := current b |}
    with b in H by (by destruct b).
  destruct d; [by apply (Extends_ret l sp idx pr out b out' b')|].
  refine (Extends_tryPush l sp idx pr m _ out b out' b' Hl H).
  apply Hcand. subst l. split; [|done]. by apply Hspan.
Qed.

Lemma Extends_findKingCastles l sp idx pr :
  spaceGetType sp = PIECETYPE_KING →
  Extends l sp idx pr (λ out, _findKingCastles sp idx out pr).
Proof.
  intros Hking out b out' b' Hl H. unfold _findKingCastles in H.
  destruct (spaceHasMoved sp);
    [by apply (Extends_ret l sp idx pr out b out' b')|].
  unfold mbind at 1, M_bind at 1, getCurrent in H. rewrite Hl in H.
  refine (Extends_bind l sp idx pr
            (λ out,
               if Z.land (castleMapGetFile (castles l) (spaceGetColor sp) true) 8 =? 0
               then
                 rook ← Board_get
                          (Z.lor (Z.land idx 240)
                             (castleMapGetFile (castles l) (spaceGetColor sp) true));
                 _tryCastle out
                   (createCastle sp idx (Z.lor (Z.land idx 240) 6) rook
                      (Z.lor (Z.land idx 240)
                         (castleMapGetFile (castles l) (spaceGetColor sp) true))
                      (Z.lor (Z.land idx 240) 5) pr)
               else mret out)
            (λ out1,
               if Z.land (castleMapGetFile (castles l) (spaceGetColor sp) false) 8 =? 0
               then
                 rook ← Board_get
                          (Z.lor (Z.land idx 240)
                             (castleMapGetFile (castles l) (spaceGetColor sp) false));
                 _tryCastle out1
                   (createCastle sp idx (Z.lor (Z.land idx 240) 2) rook
                      (Z.lor (Z.land idx 240)
                         (castleMapGetFile (castles l) (spaceGetColor sp) false))
                      (Z.lor (Z.land idx 240) 3) pr)
               else mret out1)
            _ _ out b out' b' Hl H);
    clear - Hking; intros out b out' b' Hl H.
  - destruct (Z.land _ 8 =? 0) eqn:Hfile;
      [|by apply (Extends_ret l sp idx pr out b out' b')].
    inv_get H. rewrite Hl in H.
    refine (Extends_tryCastle l sp idx pr _ _ out b out' b' Hl H).
    intros Hok. apply (cand_castle l sp idx pr true); try done.
    by apply Z.eqb_eq.
  - destruct (Z.land _ 8 =? 0) eqn:Hfile;
      [|by apply (Extends_ret l sp idx pr out b out' b')].
    inv_get H. rewrite Hl in H.
    refine (Extends_tryCastle l sp idx pr _ _ out b out' b' Hl H).
    intros Hok. apply (cand_castle l sp idx pr false); try done.
    by apply Z.eqb_eq.
Qed.

Section Appended.
Context (l : Layer) (sp idx : Z) (pr : PriorState).

Lemma Extends_Appended f out b :
  Extends l sp idx pr f → current b = l →
  Appended l sp idx pr out b (f out b).
Proof. intros Hf Hl out' b' H. by apply (Hf out b). Qed.

Lemma Appended_ret out b :
  Appended l sp idx pr out b ((mret out : M (list Move)) b).
Proof.
  intros out' b' [= <- <-]. split; [done|]. exists []. by rewrite app_nil_r.
Qed.

Lemma Appended_bind out b (m : M (list Move)) (k : list Move → M (list Move)) :
  Appended l sp idx pr out b (m b) →
  (∀ out1, Appended l sp idx pr out1 b (k out1 b)) →
  Appended l sp idx pr out b ((m ≫= k) b).
Proof.
  intros Hm Hk out' b' H. apply bind_inv in H as (out1 & b1 & H1 & H2).
  destruct (Hm _ _ H1) as (-> & e1 & -> & F1).
  destruct (Hk _ _ _ H2) as (-> & e2 & -> & F2).
  split; [done|]. exists (e1 ++ e2). rewrite app_assoc. split; [done|].
  by apply Forall_app.
Qed.

Lemma Appended_get out b x (k : Z → M (list Move)) :
  (onBoard x = true → Appended l sp idx pr out b (k (get8 (board (current b)) x) b)) →
  Appended l sp idx pr out b ((Board_get x ≫= k) b).
Proof.
  intros Hk out' b' H. unfold mbind, M_bind in H. rewrite Board_get_eq in H.
  destruct (onBoard x); [|done]. by apply Hk.
Qed.

Lemma Appended_getCurrent out b (k : Layer → M (list Move)) :
  Appended l sp idx pr out b (k (current b) b) →
  Appended l sp idx pr out b ((getCurrent ≫= k) b).
Proof. intros Hk out' b' H. by apply Hk. Qed.

Lemma Appended_tryPush out b m :
  Candidate l sp idx pr m → current b = l →
  Appended l sp idx pr out b (_tryPushMove out m b).
Proof.
  intros Hc Hl.
  apply (Extends_Appended (λ out, _tryPushMove out m)); [|done].
  by apply Extends_tryPush.
Qed.

End Appended.

(** The square beside a pawn is on the board when the square diagonally
    ahead of it on that side is. *)
Lemma beside_onBoard idx dir step :
  isSquare idx → dir = 1 ∨ dir = -1 → step = 1 ∨ step = -1 →
  onBoard (idx + 16 * dir + step) = true → onBoard (idx + step) = true.
Proof.
  intros Hsq Hd Hs.
  pose proof (forall_squares
    (λ idx, forallb (λ dir, forallb (λ step,
               implb (onBoard (idx + 16 * dir + step)) (onBoard (idx + step)))
               [1; -1]) [1; -1]) eq_refl idx Hsq) as H.
  cbn [forallb] in H. rewrite !andb_true_iff in H.
  destruct Hd as [-> | ->], Hs as [-> | ->]; intros E; rewrite E in H; cbn in H;
    tauto.
Qed.

Lemma Appended_pawnCapture l sp idx pr dir promo out b step :
  isSquare idx → dir = 1 ∨ dir = -1 → step ∈ PAWN_CAPS → promoOK promo →
  current b = l →
  Appended l sp idx pr out b
    (_pawnCapture sp idx (idx + 16 * dir) promo (ep l) pr out step b).
Proof.
  intros Hsq Hd Hs Hp Hl. unfold _pawnCapture.
  assert (Hstep : step = 1 ∨ step = -1).
  { unfold PAWN_CAPS in Hs. rewrite !elem_of_cons, elem_of_nil in Hs. tauto. }
  change (Z.land (idx + 16 * dir + step) 0x88 =? 0)
    with (onBoard (idx + 16 * dir + step)).
  destruct (onBoard (idx + 16 * dir + step)) eqn:Hon; cbn [negb];
    [|apply Appended_ret].
  assert (Hdest : isSquare (idx + 16 * dir + step)).
  { replace (idx + 16 * dir + step) with (idx + (16 * dir + step)) in * by lia.
    apply isSquare_step; [done | lia | done]. }
  apply Appended_get. intros _. rewrite Hl.
  destruct (idx + 16 * dir + step =? ep l) eqn:Hep.
  - apply Z.eqb_eq in Hep. apply Appended_get. intros Hon'. rewrite Hl.
    apply Appended_tryPush; [|done].
    apply cand_ep; try done; try lia.
    apply isSquare_step; [done | lia | done].
  - destruct (negb (get8 (board l) (idx + 16 * dir + step) =? SPACE_EMPTY)
              && _) eqn:Hspot; [|apply Appended_ret].
    apply andb_true_iff in Hspot as [Hspot _].
    apply negb_true_iff, Z.eqb_neq in Hspot.
    apply Appended_tryPush; [|done].
    apply cand_take; try done. lia.
Qed.

Lemma Extends_pawnMoves l sp idx pr :
  isSquare idx →
  Extends l sp idx pr (λ out, _pawnMoves sp idx out pr).
Proof.
  intros Hsq out b out' b' Hl. revert out' b'.
  change (Appended l sp idx pr out b (_pawnMoves sp idx out pr b)).
  unfold _pawnMoves.
  set (dir := if spaceGetColor sp =? COLOR_WHITE then 1 else -1).
  assert (Hd : dir = 1 ∨ dir = -1)
    by (subst dir; destruct (spaceGetColor sp =? COLOR_WHITE); tauto).
  change (Z.land (idx + 16 * dir) 0x88 =? 0) with (onBoard (idx + 16 * dir)).
  change (Z.land (idx + 32 * dir) 0x88 =? 0) with (onBoard (idx + 32 * dir)).
  destruct (onBoard (idx + 16 * dir)) eqn:Hon1; cbn [negb]; [|apply Appended_ret].
  assert (H1 : isSquare (idx + 16 * dir))
    by (apply isSquare_step; [done | lia | done]).
  set (promo := if negb (onBoard (idx + 32 * dir)) then PIECETYPE_QUEEN else 0).
  assert (Hp : promoOK promo)
    by (subst promo; destruct (onBoard (idx + 32 * dir)); [by left | by right]).
  apply Appended_get. intros _. rewrite Hl.
  apply Appended_bind.
  - destruct (get8 (board l) (idx + 16 * dir) =? SPACE_EMPTY) eqn:He;
      [|apply Appended_ret].
    apply Z.eqb_eq in He. apply Appended_bind.
    + apply Appended_tryPush; [|done]. apply cand_quiet; try done. lia.
    + intros out1.
      destruct (negb (spaceHasMoved sp) && onBoard (idx + 32 * dir)) eqn:H2;
        [|apply Appended_ret].
      apply andb_true_iff in H2 as [_ Hon2].
      apply Appended_get. intros _. rewrite Hl.
      destruct (get8 (board l) (idx + 32 * dir) =? SPACE_EMPTY) eqn:He2;
        [|apply Appended_ret].
      apply Z.eqb_eq in He2.
      apply Appended_tryPush; [|done]. apply cand_quiet; try done.
      * apply isSquare_step; [done | lia | done].
      * lia.
      * by left.
  - intros out2. apply Appended_getCurrent. rewrite Hl.
    apply (Extends_Appended l sp idx pr
             (λ out, foldM (_pawnCapture sp idx (idx + 16 * dir) promo (ep l) pr)
                           out PAWN_CAPS)); [|done].
    apply Extends_foldM. intros step Hs out3 b3 out3' b3' Hl3.
    by apply Appended_pawnCapture.
Qed.

(** [listValidMoves] leaves the board as it is and appends moves emitted for
    the piece on [idx], generated on the layer with that square blanked. *)
Lemma listValidMoves_inv idx out b out' b' :
  isSquare idx →
  listValidMoves idx out b = Ok (out', b') →
  b' = b
  ∧ get8 (board (current b)) idx ≠ SPACE_EMPTY
  ∧ ∃ extra, out' = out ++ extra
             ∧ Forall (Emitted (genLayer (current b) idx)
                         (get8 (board (current b)) idx) idx (priorOf (current b)))
                      extra.
Proof.
  intros Hsq H. unfold listValidMoves in H.
  inv_get H.
  unfold mbind at 1, M_bind at 1, Board_getPriorState in H.
  unfold mbind at 1, M_bind at 1, getCurrent in H. cbn [mret M_ret] in H.
  fold (priorOf (current b)) in H.
  set (sp := get8 (board (current b)) idx) in *.
  set (pr := priorOf (current b)) in *.
  unfold mbind at 1, M_bind at 1, assert in H.
  destruct (sp =? SPACE_EMPTY) eqn:Hsp; [done|]. cbn [negb] in H.
  apply Z.eqb_neq in Hsp.
  unfold mbind at 1, M_bind at 1, Board_save in H. cbn [mret M_ret] in H.
  rewrite bind_set in H. rewrite Hon in H.
  cbn [current withCurrent lower arrays] in H.
  fold (genLayer (current b) idx) in H.
  set (gen := {| arrays := arrays b; lower := current b :: lower b;
                 current := genLayer (current b) idx |}) in H.
  apply bind_inv in H as (out1 & b1 & Hgen & H).
  assert (Hext : Appended (genLayer (current b) idx) sp idx pr out gen
                   (Ok (out1, b1))).
  { rewrite <- Hgen.
    repeat match goal with
           | |- context [if ?c then _ else _] =>
               destruct c eqn:?
           end;
      try apply Appended_ret;
      try (apply (Extends_Appended _ _ _ _
                    (λ out, _findMoves sp idx _ _ _ _ out pr)); [|done];
           apply Extends_findMoves; [done|]; first [apply steps_DIRS | apply steps_KNIGHT]);
      try (apply (Extends_Appended _ _ _ _ (λ out, _pawnMoves sp idx out pr));
           [|done]; by apply Extends_pawnMoves).
    apply Appended_bind.
    - apply (Extends_Appended _ _ _ _
               (λ out, _findMoves sp idx _ _ _ _ out pr)); [|done].
      apply Extends_findMoves; [done | apply steps_DIRS].
    - intros out2.
      apply (Extends_Appended _ _ _ _ (λ out, _findKingCastles sp idx out pr));
        [|done].
      apply Extends_findKingCastles. by apply Z.eqb_eq. }
  destruct (Hext _ _ eq_refl) as (-> & extra & -> & Hall).
  unfold mbind, M_bind, Board_restore in H. cbn in H. injection H as <- <-.
  split; [by destruct b|]. split; [done|]. by exists extra.
Qed.

Lemma listAllValidMoves_scan_inv color pieces : ∀ out b out' b',
  Forall isSquare pieces →
  foldM (λ out idx,
           sp ← Board_get idx;
           if spaceGetColor sp =? color then listValidMoves idx out
           else mret out) out pieces b = Ok (out', b') →
  b' = b
  ∧ ∃ extra, out' = out ++ extra
      ∧ Forall (λ m', ∃ idx, idx ∈ pieces
                  ∧ spaceGetColor (get8 (board (current b)) idx) = color
                  ∧ get8 (board (current b)) idx ≠ SPACE_EMPTY
                  ∧ Emitted (genLayer (current b) idx)
                      (get8 (board (current b)) idx) idx (priorOf (current b)) m')
               extra.
Proof.
  induction pieces as [|idx rest IH]; intros out b out' b' Hsq; cbn [foldM].
  - intros [= <- <-]. split; [done|]. exists []. by rewrite app_nil_r.
  - intros H. apply Forall_cons in Hsq as [Hidx Hrest].
    apply bind_inv in H as (out1 & b1 & H1 & H).
    assert (b1 = b ∧ ∃ e1, out1 = out ++ e1
              ∧ Forall (λ m', ∃ idx', idx' ∈ idx :: rest
                  ∧ spaceGetColor (get8 (board (current b)) idx') = color
                  ∧ get8 (board (current b)) idx' ≠ SPACE_EMPTY
                  ∧ Emitted (genLayer (current b) idx')
                      (get8 (board (current b)) idx') idx' (priorOf (current b)) m')
                  e1) as (-> & e1 & -> & F1).
    { inv_get H1.
      destruct (spaceGetColor _ =? color) eqn:Hc.
      - apply Z.eqb_eq in Hc.
        apply listValidMoves_inv in H1 as (-> & Hsp & e1 & -> & F); [|done].
        split; [done|]. exists e1. split; [done|].
        eapply Forall_impl; [exact F|]. intros m' Hm. exists idx.
        repeat split; try done. left.
      - injection H1 as <- <-. split; [done|]. exists [].
        by rewrite app_nil_r. }
    destruct (IH _ _ _ _ Hrest H) as (-> & e2 & -> & F2).
    split; [done|]. exists (e1 ++ e2). rewrite app_assoc. split; [done|].
    apply Forall_app. split; [done|].
    eapply Forall_impl; [exact F2|]. intros m' (idx' & Hin & Hm).
    exists idx'. split; [by right | done].
Qed.

(** On a cache miss [listAllValidMoves] returns a new array of generated
    moves, stores its reference in the cache slot and changes nothing else. *)
Lemma listAllValidMoves_miss color b r b' :
  moveCache (current b) !! color = None →
  Forall isSquare (pieceList (current b)) →
  listAllValidMoves color b = Ok (r, b') →
  ∃ out, Forall (Generated (current b) color) out
         ∧ r = length (arrays b)
         ∧ arrays b' = arrays b ++ [out]
         ∧ lower b' = lower b
         ∧ current b' = withMoveCache (current b)
                          (<[color := r]> (moveCache (current b))).
Proof.
  intros Hc Hsq. unfold listAllValidMoves.
  unfold mbind at 1, M_bind at 1. cbn [getCurrent]. rewrite Hc.
  intros H. apply bind_inv in H as (out & b1 & Hscan & H).
  apply listAllValidMoves_scan_inv in Hscan as (-> & extra & Hout & F); [|done].
  cbn [app] in Hout. subst extra.
  unfold mbind, M_bind, allocArray, modifyCurrent in H. cbn in H.
  injection H as <- <-. exists out. by repeat split.
Qed.

(** ** Layers that differ outside their arrays *)

Lemma sameArrays_refl l : sameArrays l l.
Proof. done. Qed.

Lemma sameArrays_sym l l' : sameArrays l l' → sameArrays l' l.
Proof. intros (?&?&?). by repeat split. Qed.

Lemma sameArrays_trans l1 l2 l3 :
  sameArrays l1 l2 → sameArrays l2 l3 → sameArrays l1 l3.
Proof. intros (?&?&?) (?&?&?). repeat split; congruence. Qed.

Lemma Layer_set_board l x v : board (Layer_set l x v) = put8 (board l) x v.
Proof.
  unfold Layer_set, attackMapRemovePiece, attackMapAddPiece.
  repeat case_match; done.
Qed.

Lemma Layer_set_pieceList l x v :
  pieceList (Layer_set l x v) =
  if negb (Bool.eqb (get8 (board l) x =? SPACE_EMPTY) (v =? SPACE_EMPTY)) then
    if get8 (board l) x =? SPACE_EMPTY then pieceList l ++ [x]
    else pieceListRemove (pieceList l) x
  else pieceList l.
Proof.
  unfold Layer_set, attackMapRemovePiece, attackMapAddPiece.
  repeat case_match; done.
Qed.

Lemma Layer_set_attacks l x v :
  attacks (Layer_set l x v) =
  let prior := get8 (board l) x in
  let a1 :=
    if negb (prior =? SPACE_EMPTY) then
      fold_left (bump 1) (throughCells (board l) x)
        (fold_left (bump (-1))
           (directCells (board l) x (spaceGetColor prior) (spaceGetType prior))
           (attacks l))
    else attacks l in
  if negb (v =? SPACE_EMPTY) then
    fold_left (bump (-1)) (throughCells (put8 (board l) x v) x)
      (fold_left (bump 1)
         (directCells (put8 (board l) x v) x (spaceGetColor v) (spaceGetType v))
         a1)
  else a1.
Proof.
  unfold Layer_set, attackMapRemovePiece, attackMapAddPiece.
  repeat case_match; done.
Qed.

Lemma Layer_set_arrays l l' x v :
  sameArrays l l' → sameArrays (Layer_set l x v) (Layer_set l' x v).
Proof.
  intros (Hb & Ha & Hp).
  repeat split;
    rewrite ?Layer_set_board, ?Layer_set_attacks, ?Layer_set_pieceList;
    by rewrite Hb, ?Ha, ?Hp.
Qed.

Lemma inDanger_arrays c l l' : sameArrays l l' → inDanger c l = inDanger c l'.
Proof. intros (?&?&?). by apply inDanger_ext. Qed.

Lemma copyLayer_arrays l d : sameArrays (copyLayer l d) l.
Proof. done. Qed.

Lemma performMeta_arrays m l : sameArrays (performMeta m l) l.
Proof. done. Qed.

Lemma recordHash_arrays under l : sameArrays (recordHash under l) l.
Proof. done. Qed.

Lemma get8_put8_same a x v :
  get8 (put8 a x v) x = if bool_decide (Z.to_nat x < length a)%nat then u8 v else 0.
Proof.
  unfold get8, put8. case_bool_decide as H.
  - by rewrite list_lookup_insert_eq.
  - rewrite list_insert_ge by lia. by rewrite lookup_ge_None_2 by lia.
Qed.

Lemma put8_id a x : get8 a x = 0 → put8 a x 0 = a.
Proof.
  unfold get8, put8. intros H.
  destruct (a !! Z.to_nat x) as [v|] eqn:E.
  - cbn in H. subst v. by apply list_insert_id.
  - apply list_insert_ge. by apply lookup_ge_None.
Qed.

(** Blanking a square that is empty changes nothing. *)
Lemma Layer_set_empty_noop l x :
  get8 (board l) x = SPACE_EMPTY → Layer_set l x SPACE_EMPTY = l.
Proof.
  intros H. unfold Layer_set. rewrite H. cbn.
  unfold withBoard. rewrite put8_id by done. by destruct l.
Qed.

Lemma Layer_set_blank_read l x : get8 (board (Layer_set l x SPACE_EMPTY)) x = 0.
Proof.
  rewrite Layer_set_board, get8_put8_same. by case_bool_decide.
Qed.

(** A move of the piece just taken off its square, applied to the layer the
    generator works on, sets the arrays it sets on the layer itself. *)
Lemma performSets_genLayer l m :
  sameArrays (performSets m (copyLayer (genLayer l (from m)) newLayer))
             (performSets m l).
Proof.
  unfold performSets.
  assert (H1 : sameArrays
                 (Layer_set (copyLayer (genLayer l (from m)) newLayer)
                    (from m) SPACE_EMPTY)
                 (Layer_set l (from m) SPACE_EMPTY)).
  { rewrite Layer_set_empty_noop
      by (cbn [copyLayer board]; apply Layer_set_blank_read).
    eapply sameArrays_trans; [apply copyLayer_arrays|].
    unfold genLayer. apply Layer_set_arrays, copyLayer_arrays. }
  repeat case_match; repeat (first [exact H1 | apply Layer_set_arrays]).
Qed.

(** ** Typed arrays *)

Lemma get8_put8_ne a x y v :
  0 <= x → 0 <= y → x ≠ y → get8 (put8 a x v) y = get8 a y.
Proof.
  intros Hx Hy Hne. unfold get8, put8.
  rewrite list_lookup_insert_ne by lia. done.
Qed.

Lemma put8_length a x v : length (put8 a x v) = length a.
Proof. apply length_insert. Qed.

Lemma bump_length d a i : length (bump d a i) = length a.
Proof. apply put8_length. Qed.

Lemma fold_bump_length d cells : ∀ a,
  length (fold_left (bump d) cells a) = length a.
Proof.
  induction cells as [|c cells IH]; intros a; [done|].
  cbn [fold_left]. by rewrite IH, bump_length.
Qed.

(** Bumping cells leaves every other cell as it is. *)
Lemma fold_bump_other d cells i : ∀ a,
  0 <= i → Forall (λ c, 0 <= c ∧ c ≠ i) cells →
  get8 (fold_left (bump d) cells a) i = get8 a i.
Proof.
  induction cells as [|c cells IH]; intros a Hi Hc; [done|].
  apply Forall_cons in Hc as [[Hc0 Hci] Hc]. cbn [fold_left].
  rewrite IH by done. unfold bump. by apply get8_put8_ne.
Qed.

(** Two arrays of one length that agree on a set of cells still agree on it
    after the same bumps. *)
Lemma fold_bump_agree (P : Z → Prop) d cells : ∀ a a',
  Forall (λ c, 0 <= c) cells →
  length a = length a' →
  (∀ i, 0 <= i → P i → get8 a i = get8 a' i) →
  ∀ i, 0 <= i → P i →
       get8 (fold_left (bump d) cells a) i = get8 (fold_left (bump d) cells a') i.
Proof.
  induction cells as [|c cells IH]; intros a a' Hc Hlen Hag; [done|].
  apply Forall_cons in Hc as [Hc0 Hc]. cbn [fold_left].
  apply IH; [done | by rewrite !bump_length |].
  intros i Hi HP. unfold bump.
  destruct (decide (c = i)) as [->|Hne].
  - rewrite !get8_put8_same, Hlen, (Hag i) by done. done.
  - by rewrite !get8_put8_ne, Hag by done.
Qed.

(** ** Rays *)

Lemma rayFrom_squares n board step : ∀ x,
  isSquare (x - step) → -33 <= step <= 33 →
  Forall isSquare (rayFrom n board x step).
Proof.
  induction n as [|n IH]; intros x Hprev Hs; [by constructor|].
  cbn [rayFrom]. destruct (onBoard x) eqn:Hon; [|by constructor].
  assert (Hx : isSquare x) by (by apply (isSquare_next x step)).
  destruct (get8 board x =? SPACE_EMPTY).
  - constructor; [done|]. apply IH; [|done].
    by replace (x + step - step) with x by lia.
  - constructor; [done | constructor].
Qed.

Lemma ray_squares board sq step :
  isSquare sq → -33 <= step <= 33 → Forall isSquare (ray board sq step).
Proof.
  intros Hsq Hs. apply rayFrom_squares; [|done].
  by replace (sq + step - step) with sq by lia.
Qed.

(** A ray does not come back to the square it leaves. *)
Lemma rayFrom_away n board x0 step : ∀ x,
  (0 < step ∧ x0 < x) ∨ (step < 0 ∧ x < x0) →
  Forall (λ y, y ≠ x0) (rayFrom n board x step).
Proof.
  induction n as [|n IH]; intros x Hdir; [by constructor|].
  cbn [rayFrom]. destruct (onBoard x); [|by constructor].
  destruct (get8 board x =? SPACE_EMPTY).
  - constructor; [lia|]. apply IH. lia.
  - constructor; [lia | constructor].
Qed.

Lemma ray_away board sq step :
  step ≠ 0 → Forall (λ y, y ≠ sq) (ray board sq step).
Proof. intros Hs. apply rayFrom_away. lia. Qed.

(** A ray reads the board only on the squares it runs over. *)
Lemma rayFrom_ext n b b' x0 step : ∀ x,
  (∀ y, isSquare y → y ≠ x0 → get8 b y = get8 b' y) →
  isSquare (x - step) → -33 <= step <= 33 →
  (0 < step ∧ x0 < x) ∨ (step < 0 ∧ x < x0) →
  rayFrom n b x step = rayFrom n b' x step.
Proof.
  induction n as [|n IH]; intros x Hext Hprev Hs Hdir; [done|].
  cbn [rayFrom]. destruct (onBoard x) eqn:Hon; [|done].
  assert (Hx : isSquare x) by (by apply (isSquare_next x step)).
  rewrite <- (Hext x) by (done || lia).
  destruct (get8 b x =? SPACE_EMPTY); [|done].
  f_equal. apply IH; try done; [|lia].
  by replace (x + step - step) with x by lia.
Qed.

Lemma ray_ext b b' sq step :
  (∀ y, isSquare y → y ≠ sq → get8 b y = get8 b' y) →
  isSquare sq → step ≠ 0 → -33 <= step <= 33 →
  ray b sq step = ray b' sq step.
Proof.
  intros Hext Hsq H0 Hs. apply (rayFrom_ext _ _ _ sq); try done; [|lia].
  by replace (sq + step - step) with sq by lia.
Qed.

Lemma lookThrough_ext b b' sq step :
  (∀ y, isSquare y → y ≠ sq → get8 b y = get8 b' y) →
  isSquare sq → step ∈ DIRS →
  lookThrough b sq step = lookThrough b' sq step.
Proof.
  intros Hext Hsq Hstep. destruct (steps_DIRS _ Hstep) as [H0 Hs].
  unfold lookThrough.
  rewrite <- (ray_ext b b' sq step) by done.
  rewrite <- (ray_ext b b' sq (- step)) by (done || lia).
  destruct (last (ray b sq step)) as [t|] eqn:Hlast; [|done].
  assert (Ht : t ∈ ray b sq step).
  { apply last_Some in Hlast as [pre ->]. apply elem_of_app. right. left. }
  pose proof (ray_squares b sq step Hsq Hs) as Hsqs.
  pose proof (ray_away b sq step H0) as Haway.
  rewrite Forall_forall in Hsqs, Haway.
  by rewrite <- (Hext t) by auto.
Qed.

Lemma throughCells_ext b b' sq :
  (∀ y, isSquare y → y ≠ sq → get8 b y = get8 b' y) →
  isSquare sq →
  throughCells b sq = throughCells b' sq.
Proof.
  intros Hext Hsq. unfold throughCells.
  rewrite (map_ext_in (lookThrough b sq) (lookThrough b' sq) DIRS); [done|].
  intros step Hin.
  apply lookThrough_ext; [done | done | by apply list_elem_of_In].
Qed.

(** ** The cells a piece counts on *)

Lemma attackIndex_cell color s :
  isSquare s → color = 0 ∨ color = 8 →
  0 <= attackIndex color s < 256 ∧ attackIndex color s mod 2 = color / 8.
Proof.
  intros [Hr _] [-> | ->]; unfold attackIndex; cbn [Z.shiftr]; split;
    try lia; change (Z.shiftr 0 3) with 0 || change (Z.shiftr 8 3) with 1;
    try lia.
  - replace (2 * s + 0) with (0 + s * 2) by lia. by rewrite Z.mod_add.
  - replace (2 * s + 1) with (1 + s * 2) by lia. by rewrite Z.mod_add.
Qed.

Lemma spaceGetColor_cases sp : spaceGetColor sp = 0 ∨ spaceGetColor sp = 8.
Proof.
  unfold spaceGetColor.
  destruct (Z.testbit sp 3) eqn:E; [right | left]; apply Z.bits_inj'; intros n Hn;
    rewrite Z.land_spec;
    destruct (decide (n = 3)) as [->|Hne]; rewrite ?E; try done.
  - replace (Z.testbit 8 n) with false; [by rewrite andb_false_r|].
    symmetry. change 8 with (2 ^ 3). by apply Z.pow2_bits_false.
  - rewrite Z.bits_0.
    replace (Z.testbit 8 n) with false; [by rewrite andb_false_r|].
    symmetry. change 8 with (2 ^ 3). by apply Z.pow2_bits_false.
Qed.

Lemma attackedSquares_squares board sq color type :
  isSquare sq → Forall isSquare (attackedSquares board sq color type).
Proof.
  intros Hsq. unfold attackedSquares.
  assert (Hfil : ∀ offs, Forall (λ o, -33 <= o <= 33) offs →
            Forall isSquare (filter (λ x, onBoard x = true) (map (Z.add sq) offs))).
  { intros offs Ho. apply Forall_forall. intros x Hx.
    apply list_elem_of_filter in Hx as [Hon Hx].
    apply list_elem_of_fmap in Hx as (o & -> & Hin).
    rewrite Forall_forall in Ho. by apply isSquare_step; [| apply Ho |]. }
  assert (Hrays : ∀ dirs, dirs ⊆ DIRS →
            Forall isSquare (concat (map (ray board sq) dirs))).
  { intros dirs Hd. apply Forall_concat, Forall_forall. intros r Hr.
    apply list_elem_of_fmap in Hr as (d & -> & Hin).
    apply ray_squares; [done|]. by apply steps_DIRS, Hd. }
  repeat case_match; try by constructor.
  - assert (Hd : -33 <= 16 * pawnDir color - 1 <= 33
                 ∧ -33 <= 16 * pawnDir color + 1 <= 33)
      by (unfold pawnDir; case_match; lia).
    specialize (Hfil [16 * pawnDir color - 1; 16 * pawnDir color + 1]).
    cbn [map] in Hfil.
    replace (sq + (16 * pawnDir color - 1)) with (sq + 16 * pawnDir color - 1)
      in Hfil by lia.
    replace (sq + (16 * pawnDir color + 1)) with (sq + 16 * pawnDir color + 1)
      in Hfil by lia.
    apply Hfil. repeat constructor; lia.
  - apply Hfil. apply Forall_forall. intros o Ho. by apply steps_KNIGHT.
  - apply Hfil. apply Forall_forall. intros o Ho. by apply steps_DIRS.
  - apply Hrays. apply subseteq_drop.
  - apply Hrays. apply subseteq_take.
  - by apply Hrays.
Qed.

Lemma directCells_cells board sq color type :
  isSquare sq → color = 0 ∨ color = 8 →
  Forall (λ c, 0 <= c ∧ c mod 2 = color / 8) (directCells board sq color type).
Proof.
  intros Hsq Hc. unfold directCells. apply Forall_fmap.
  eapply Forall_impl; [by apply attackedSquares_squares|].
  intros s Hs. cbn. destruct (attackIndex_cell color s Hs Hc). split; [lia | done].
Qed.

Lemma throughCells_nonneg board sq :
  isSquare sq → Forall (λ c, 0 <= c) (throughCells board sq).
Proof.
  intros Hsq. unfold throughCells. apply Forall_concat, Forall_forall.
  intros r Hr. apply list_elem_of_fmap in Hr as (d & -> & Hin).
  unfold lookThrough. repeat case_match; try by constructor.
  apply Forall_fmap.
  eapply Forall_impl; [apply ray_squares; [done|]|].
  - destruct (steps_DIRS _ Hin). lia.
  - intros s Hs. cbn.
    match goal with
    | |- context [attackIndex (spaceGetColor ?p)] =>
        destruct (attackIndex_cell _ s Hs (spaceGetColor_cases p))
    end. lia.
Qed.

(** ** What [set] does to each array *)

Lemma removelast_Forall {A} (P : A → Prop) (l : list A) :
  Forall P l → Forall P (removelast l).
Proof.
  induction 1 as [|x l Hx Hl IH]; [constructor|].
  cbn. destruct l; [constructor|]. by constructor.
Qed.

Lemma pieceListRemove_Forall (P : Z → Prop) pieces idx :
  P idx → Forall P pieces → Forall P (pieceListRemove pieces idx).
Proof.
  intros Hidx Hall. unfold pieceListRemove.
  repeat case_match; try done; try (by apply removelast_Forall).
  - apply removelast_Forall, Forall_insert; [by apply Forall_insert|].
    eapply Forall_lookup_1; [exact Hall | eassumption].
  - apply removelast_Forall. by apply Forall_insert.
Qed.

Lemma Layer_set_squares l x v :
  isSquare x → Forall isSquare (pieceList l) →
  Forall isSquare (pieceList (Layer_set l x v)).
Proof.
  intros Hx Hall. rewrite Layer_set_pieceList.
  repeat case_match; try done.
  - apply Forall_app. split; [done|]. constructor; [done | constructor].
  - by apply pieceListRemove_Forall.
Qed.

(** ** Danger and the promoted piece *)

Lemma dangerIn_isKingOf c l pieces :
  dangerIn c l pieces =
  match pieces with
  | [] => Ok false
  | idx :: rest =>
      if onBoard idx then
        if isKingOf c (get8 (board l) idx) && attackMapIsAttacked l idx (8 - c)
        then Ok true
        else dangerIn c l rest
      else Throw (ChessErrorMsg "Invalid get() coord")
  end.
Proof.
  destruct pieces as [|idx rest]; [done|]. cbn [dangerIn]. unfold isKingOf.
  destruct (onBoard idx); [|done].
  destruct (spaceGetType _ =? _), (spaceGetColor _ =? _); cbn; try done.
Qed.

Lemma dangerIn_agree c l l' pieces :
  (∀ idx, idx ∈ pieces →
     isKingOf c (get8 (board l) idx) && attackMapIsAttacked l idx (8 - c)
     = isKingOf c (get8 (board l') idx) && attackMapIsAttacked l' idx (8 - c)) →
  dangerIn c l pieces = dangerIn c l' pieces.
Proof.
  induction pieces as [|idx rest IH]; intros H; [done|].
  rewrite (dangerIn_isKingOf c l), (dangerIn_isKingOf c l').
  rewrite (H idx) by left. rewrite IH; [done|].
  intros i Hi. apply H. by right.
Qed.

Lemma u8_small x : 0 <= x < 256 → u8 x = x.
Proof. intros H. unfold u8. by apply Z.mod_small. Qed.

(** Whether the king of a colour is in danger does not depend on which
    piece of that colour, a king apart, is put on a square. *)
Lemma promo_danger l x X X' c :
  isSquare x → Forall isSquare (pieceList l) →
  c = 0 ∨ c = 8 →
  0 < X < 256 → 0 < X' < 256 →
  spaceGetColor X = c → spaceGetColor X' = c →
  spaceGetType X ≠ PIECETYPE_KING → spaceGetType X' ≠ PIECETYPE_KING →
  inDanger c (Layer_set l x X) = inDanger c (Layer_set l x X').
Proof.
  intros Hx Hsq Hc HX HX' HcX HcX' HtX HtX'. unfold inDanger.
  assert (Hp : pieceList (Layer_set l x X) = pieceList (Layer_set l x X')).
  { rewrite !Layer_set_pieceList.
    replace (X =? SPACE_EMPTY) with false by (symmetry; apply Z.eqb_neq; unfold SPACE_EMPTY; lia).
    by replace (X' =? SPACE_EMPTY) with false by (symmetry; apply Z.eqb_neq; unfold SPACE_EMPTY; lia). }
  rewrite <- Hp.
  assert (Hall : Forall isSquare (pieceList (Layer_set l x X)))
    by (by apply Layer_set_squares).
  apply dangerIn_agree. intros idx Hidx.
  rewrite Forall_forall in Hall. specialize (Hall idx Hidx).
  rewrite !Layer_set_board.
  destruct (decide (idx = x)) as [->|Hne].
  - rewrite !get8_put8_same. case_bool_decide; [|done].
    rewrite !u8_small by lia. unfold isKingOf.
    replace (spaceGetType X =? PIECETYPE_KING) with false
      by (symmetry; by apply Z.eqb_neq).
    by replace (spaceGetType X' =? PIECETYPE_KING) with false
      by (symmetry; by apply Z.eqb_neq).
  - assert (Hidxsq : isSquare idx) by exact Hall.
    assert (Hsqx : isSquare x) by exact Hx.
    destruct Hall as [Hr _], Hx as [Hxr Hxb].
    rewrite !get8_put8_ne by lia. apply (f_equal (andb _)).
    unfold attackMapIsAttacked. apply (f_equal (Z.ltb 0)).
    rewrite !Layer_set_attacks. cbv zeta.
    replace (X =? SPACE_EMPTY) with false by (symmetry; apply Z.eqb_neq; unfold SPACE_EMPTY; lia).
    replace (X' =? SPACE_EMPTY) with false by (symmetry; apply Z.eqb_neq; unfold SPACE_EMPTY; lia).
    cbn [negb]. rewrite HcX, HcX'.
    set (a1 := if negb (get8 (board l) x =? SPACE_EMPTY) then _ else _).
    clearbody a1.
    assert (HT : throughCells (put8 (board l) x X') x
                 = throughCells (put8 (board l) x X) x).
    { apply throughCells_ext; [|done].
      intros y [Hy _] Hyx. by rewrite !get8_put8_ne by lia. }
    rewrite HT.
    destruct (attackIndex_cell (8 - c) idx Hidxsq) as [Hi Hpar];
      [destruct Hc as [-> | ->]; [by right | by left]|].
    apply (fold_bump_agree (λ i, i mod 2 = (8 - c) / 8)).
    + apply throughCells_nonneg. exact Hsqx.
    + rewrite !fold_bump_length. reflexivity.
    + intros i Hi0 Hipar.
      assert (Hoff : ∀ t, Forall (λ cell, 0 <= cell ∧ cell ≠ i)
                            (directCells (put8 (board l) x X) x c t)
                          ∧ Forall (λ cell, 0 <= cell ∧ cell ≠ i)
                              (directCells (put8 (board l) x X') x c t)).
      { intros t. split.
        - eapply Forall_impl; [apply (directCells_cells _ x c); assumption|].
          intros cell [Hc0 Hcp]. split; [exact Hc0|]. intros ->.
          rewrite Hipar in Hcp. destruct Hc as [-> | ->]; discriminate Hcp.
        - eapply Forall_impl; [apply (directCells_cells _ x c); assumption|].
          intros cell [Hc0 Hcp]. split; [exact Hc0|]. intros ->.
          rewrite Hipar in Hcp. destruct Hc as [-> | ->]; discriminate Hcp. }
      rewrite (fold_bump_other 1 _ i a1 Hi0 (proj1 (Hoff (spaceGetType X)))).
      rewrite (fold_bump_other 1 _ i a1 Hi0 (proj2 (Hoff (spaceGetType X')))).
      reflexivity.
    + lia.
    + exact Hpar.
Qed.

(** ** From the trial to the position *)

Lemma performSets_arrays m l l' :
  sameArrays l l' → sameArrays (performSets m l) (performSets m l').
Proof.
  intros H. unfold performSets.
  repeat case_match; repeat (first [exact H | apply Layer_set_arrays]).
Qed.

Lemma performLayer_arrays m l l' :
  sameArrays l l' → sameArrays (performLayer m l) (performLayer m l').
Proof.
  intros H. unfold performLayer.
  eapply sameArrays_trans; [apply performMeta_arrays|].
  eapply sameArrays_trans; [by apply performSets_arrays|].
  apply sameArrays_sym, performMeta_arrays.
Qed.

Lemma Candidate_origin l sp idx pr m :
  Candidate l sp idx pr m → what m = sp ∧ from m = idx ∧ prior m = pr.
Proof. by destruct 1. Qed.

Lemma Candidate_promotes l sp idx pr m :
  Candidate l sp idx pr m →
  promote m ≠ 0 →
  promote m = PIECETYPE_QUEEN ∧ castleRook m = 0 ∧ isSquare (to m)
  ∧ (capture m ≠ 0 → isSquare (captureCoord m)).
Proof.
  destruct 1 as [dest promo mark Hd _ _ [-> | ->]
                |dest promo Hd _ _ [-> | ->]
                |dest taken promo Hd _ Ht _ _ _ [-> | ->]
                |kingSide file rank m]; cbn; try done.
Qed.

Lemma promoted_piece c t :
  c = 0 ∨ c = 8 → In t PROMOTIONS ∨ t = PIECETYPE_QUEEN →
  0 < encodePieceSpace t c true < 256
  ∧ spaceGetColor (encodePieceSpace t c true) = c
  ∧ spaceGetType (encodePieceSpace t c true) ≠ PIECETYPE_KING.
Proof.
  intros [-> | ->] [Ht | ->]; cbn in *;
    repeat match goal with H : _ ∨ _ |- _ => destruct H as [<- | H] end;
    try done; vm_compute; repeat split; congruence.
Qed.

(** A move emitted for the piece on [idx] applies to the layer itself, and
    leaves the king of the mover out of danger there. *)
Lemma trial_transfer l idx sp pr m m' :
  isSquare idx → Forall isSquare (pieceList l) →
  Candidate (genLayer l idx) sp idx pr m →
  trialOK (genLayer l idx) m →
  In m' (pushed m) →
  moveCoordsOk m' = true
  ∧ inDanger (spaceGetColor sp) (performLayer m' l) = Ok false.
Proof.
  intros Hidx Hsq Hcand [Hok Hsafe] Hin.
  destruct (Candidate_origin _ _ _ _ _ Hcand) as (Hw & Hf & _).
  unfold trialLayer in Hsafe. rewrite Hw in Hsafe.
  assert (Hm : inDanger (spaceGetColor sp) (performLayer m l) = Ok false).
  { rewrite <- Hsafe. apply inDanger_arrays. unfold performLayer.
    eapply sameArrays_trans; [apply performMeta_arrays|].
    eapply sameArrays_trans; [|apply sameArrays_sym, performMeta_arrays].
    apply sameArrays_sym. rewrite <- Hf. apply performSets_genLayer. }
  unfold pushed in Hin. destruct (promote m =? 0) eqn:Hp; cbn [negb] in Hin.
  { destruct Hin as [<- | []]. done. }
  apply Z.eqb_neq in Hp.
  destruct (Candidate_promotes _ _ _ _ _ Hcand Hp) as (Hq & Hcr & Hto & Hcap).
  apply in_map_iff in Hin as (t & <- & Ht). split; [exact Hok|].
  rewrite <- Hm. unfold performLayer.
  rewrite (inDanger_arrays _ _ _ (performMeta_arrays _ _)).
  rewrite (inDanger_arrays _ _ _ (performMeta_arrays m _)).
  unfold performSets. cbn [moveToPromotion what from to capture captureCoord
                             castleRook castleRookFrom castleRookTo promote].
  rewrite Hcr, Hq, Hw, Hf. cbn [Z.eqb].
  replace (t =? 0) with false
    by (symmetry; apply Z.eqb_neq; intros ->; cbn in Ht; intuition discriminate).
  pose proof (spaceGetColor_cases sp) as Hc.
  destruct (promoted_piece _ t Hc (or_introl Ht)) as (H1 & H2 & H3).
  destruct (promoted_piece _ PIECETYPE_QUEEN Hc (or_intror eq_refl))
    as (H1' & H2' & H3').
  apply promo_danger; try done.
  apply Layer_set_squares; [done|].
  destruct (capture m =? 0) eqn:Hc0.
  - by apply Layer_set_squares.
  - apply Z.eqb_neq in Hc0.
    apply Layer_set_squares; [by apply Hcap|]. by apply Layer_set_squares.
Qed.

Lemma Generated_safe l color m :
  Forall isSquare (pieceList l) →
  Generated l color m →
  moveCoordsOk m = true ∧ inDanger color (performLayer m l) = Ok false.
Proof.
  intros Hsq (idx & Hin & Hcol & Hsp & m0 & Hcand & Htrial & Hm).
  rewrite <- Hcol. eapply trial_transfer; try eassumption.
  rewrite Forall_forall in Hsq. by apply Hsq.
Qed.

(** What a call of [listAllValidMoves] returns when the cache slot is empty
    or valid: generated moves, on a board whose current layer has the arrays
    it had. *)
Lemma listAllValidMoves_generated color b r b' :
  Forall isSquare (pieceList (current b)) →
  cacheValid b color →
  listAllValidMoves color b = Ok (r, b') →
  Forall (Generated (current b) color) (default [] (arrays b' !! r))
  ∧ sameArrays (current b') (current b)
  ∧ lower b' = lower b.
Proof.
  intros Hsq Hvalid H.
  destruct (moveCache (current b) !! color) as [cached|] eqn:Hc.
  - destruct (listAllValidMoves_hit_fresh _ _ _ _ _ Hc H) as (-> & Ha & Hcur).
    rewrite Ha, lookup_app_r, Nat.sub_diag by done. cbn.
    split; [by apply Hvalid|]. rewrite Hcur. split; [done|].
    unfold listAllValidMoves in H. unfold mbind at 1, M_bind at 1 in H.
    cbn [getCurrent] in H. rewrite Hc in H.
    unfold readArray, allocArray, mbind, M_bind in H. by simplify_eq.
  - destruct (listAllValidMoves_miss _ _ _ _ Hc Hsq H)
      as (out & Hgen & -> & Ha & Hlow & Hcur).
    rewrite Ha, lookup_app_r, Nat.sub_diag by done. cbn.
    split; [done|]. rewrite Hcur. done.
Qed.

(** A generated move applies, and leaves the king of its colour out of
    danger. *)
Lemma Generated_performs b b' color m :
  Forall isSquare (pieceList (current b)) →
  Generated (current b) color m →
  sameArrays (current b') (current b) →
  ∃ b'', performMove m b' = Ok (tt, b'')
         ∧ kingInDanger color b'' = Ok (false, b'').
Proof.
  intros Hsq Hgen Hsame.
  destruct (Generated_safe _ _ _ Hsq Hgen) as [Hok Hsafe].
  rewrite performMove_eq, Hok. eexists. split; [reflexivity|].
  rewrite kingInDanger_eq. cbn [current withCurrent].
  rewrite (inDanger_arrays _ _ _ (recordHash_arrays _ _)).
  rewrite (inDanger_arrays _ _ _ (performLayer_arrays m _ _ Hsame)).
  by rewrite Hsafe.
Qed.

(** C2: every move of the list [listAllValidMoves] returns for a colour
    leaves the king of that colour unattacked once [performMove] has applied
    it: the move applies, and [kingInDanger] answers false on the board
    reached.  The piece list holds squares, and the cache slot is empty or
    holds moves generated for the position. *)
Theorem generated_move_keeps_king_safe (b : Board) (color : Z) r b' :
  Forall isSquare (pieceList (current b)) →
  cacheValid b color →
  listAllValidMoves color b = Ok (r, b') →
  ∀ m, m ∈ default [] (arrays b' !! r) →
    ∃ b'', performMove m b' = Ok (tt, b'')
           ∧ kingInDanger color b'' = Ok (false, b'').
Proof.
  intros Hsq Hvalid H m Hm.
  destruct (listAllValidMoves_generated _ _ _ _ Hsq Hvalid H) as (Hgen & Hsame & _).
  rewrite Forall_forall in Hgen.
  apply (Generated_performs b b'); [exact Hsq | by apply Hgen | exact Hsame].
Qed.

(** ** Castles *)

Lemma u8_land x k : 0 <= k < 256 → Z.land (u8 x) k = Z.land x k.
Proof.
  intros Hk. unfold u8. change 256 with (2 ^ 8).
  rewrite <- Z.land_ones by lia. rewrite <- Z.land_assoc. f_equal.
  apply Z.bits_inj'. intros n Hn. rewrite Z.land_spec.
  destruct (Z.ltb_spec n 8).
  - rewrite Z.ones_spec_low by lia. done.
  - rewrite Z.ones_spec_high by lia. cbn.
    symmetry. apply (Z.bits_above_log2 k n); [lia|].
    destruct (decide (k = 0)) as [->|]; [cbn; lia|].
    apply Z.log2_lt_pow2; [lia|].
    eapply Z.lt_le_trans with (2 ^ 8); [lia|].
    apply Z.pow_le_mono_r; lia.
Qed.

Lemma isKingOf_u8 c x : isKingOf c (u8 x) = isKingOf c x.
Proof.
  unfold isKingOf, spaceGetType, spaceGetColor. by rewrite !u8_land by lia.
Qed.

Lemma isKingOf_nonzero c x : isKingOf c x = true → x ≠ 0.
Proof. intros H ->. discriminate H. Qed.

Lemma dangerIn_false c l pieces :
  dangerIn c l pieces = Ok false →
  ∀ x, x ∈ pieces → isKingOf c (get8 (board l) x) = true →
       attackMapIsAttacked l x (8 - c) = false.
Proof.
  induction pieces as [|idx rest IH]; intros H x Hx Hk.
  - by apply elem_of_nil in Hx.
  - rewrite dangerIn_isKingOf in H. destruct (onBoard idx); [|done].
    destruct (isKingOf c (get8 (board l) idx) && _) eqn:E; [done|].
    apply elem_of_cons in Hx as [->|Hx]; [|by apply IH].
    rewrite Hk in E. exact E.
Qed.

(** Kings put one by one on empty squares: each square joins the piece list
    and holds a king; the other squares are as they were. *)
Lemma kings_placed c K xs : ∀ l0,
  isKingOf c K = true →
  NoDup xs → Forall isSquare xs →
  length (board l0) = 128%nat →
  (∀ x, x ∈ xs → get8 (board l0) x = SPACE_EMPTY) →
  let P := fold_left (λ l x, Layer_set l x K) xs l0 in
  pieceList P = pieceList l0 ++ xs
  ∧ (∀ x, x ∈ xs → isKingOf c (get8 (board P) x) = true).
Proof.
  induction xs as [|x xs IH]; intros l0 HK Hnd Hsq Hlen Hempty; cbn [fold_left].
  - split; [by rewrite app_nil_r|]. intros x Hx. by apply elem_of_nil in Hx.
  - apply NoDup_cons in Hnd as [Hx Hnd]. apply Forall_cons in Hsq as [Hxsq Hsq].
    assert (HK0 : (K =? SPACE_EMPTY) = false)
      by (apply Z.eqb_neq; by apply (isKingOf_nonzero c)).
    destruct (IH (Layer_set l0 x K)) as [Hp Hb]; try done.
    + by rewrite Layer_set_board, put8_length.
    + intros y Hy. rewrite Layer_set_board.
      assert (isSquare y) as [Hyr _] by (rewrite Forall_forall in Hsq; by apply Hsq).
      destruct Hxsq as [Hxr _].
      rewrite get8_put8_ne by (try lia; intros ->; done).
      apply Hempty. by right.
    + split.
      * rewrite Hp, Layer_set_pieceList, (Hempty x) by left.
        rewrite HK0. cbn. by rewrite <- app_assoc.
      * intros y Hy. apply elem_of_cons in Hy as [->|Hy]; [|by apply Hb].
        assert (Hkeep : ∀ ys l1, x ∉ ys → Forall isSquare ys →
                  get8 (board (fold_left (λ l x, Layer_set l x K) ys l1)) x
                  = get8 (board l1) x).
        { clear -Hxsq. induction ys as [|y ys IHy]; intros l1 Hn Hs; [done|].
          cbn [fold_left]. apply not_elem_of_cons in Hn as [Hne Hn].
          apply Forall_cons in Hs as [[Hyr _] Hs]. destruct Hxsq as [Hxr _].
          rewrite IHy, Layer_set_board by done.
          apply get8_put8_ne; lia || done. }
        rewrite Hkeep, Layer_set_board, get8_put8_same by done.
        destruct Hxsq as [Hxr _]. rewrite bool_decide_eq_true_2 by lia.
        by rewrite isKingOf_u8.
Qed.

Lemma castle_files idx file :
  isSquare idx → 0 <= file < 8 → isSquare (Z.lor (Z.land idx 0xf0) file).
Proof.
  intros Hsq Hf.
  pose proof (forall_squares
    (λ idx, forallb (λ f, isSquareb (Z.lor (Z.land idx 0xf0) f)) (seqZ 0 8))
    eq_refl idx Hsq) as H.
  cbv beta in H. rewrite forallb_forall in H.
  apply isSquareb_spec, H, list_elem_of_In, elem_of_seqZ. lia.
Qed.

Lemma castle_file_range map color kingSide :
  Z.land (castleMapGetFile map color kingSide) 0x8 = 0 →
  0 <= castleMapGetFile map color kingSide < 8.
Proof.
  unfold castleMapGetFile. set (x := Z.shiftr map _).
  change 0xf with (Z.ones 4). rewrite Z.land_ones by lia.
  intros H. pose proof (Z.mod_pos_bound x (2 ^ 4) eq_refl) as Hr.
  set (f := x mod 2 ^ 4) in *. clearbody f.
  assert (Hall : forallb (λ f, implb (Z.land f 8 =? 0) (f <? 8)) (seqZ 0 16) = true)
    by (vm_compute; reflexivity).
  rewrite forallb_forall in Hall. specialize (Hall f).
  rewrite H in Hall. cbn [Z.eqb implb] in Hall.
  assert ((f <? 8) = true) as Hlt
    by (apply Hall, list_elem_of_In, elem_of_seqZ; change (2 ^ 4) with 16 in Hr; lia).
  apply Z.ltb_lt in Hlt. lia.
Qed.

(** The squares of a castle built by the generator. *)
Lemma Candidate_castle l sp idx pr m :
  isSquare idx →
  Candidate l sp idx pr m →
  castleRook m ≠ 0 →
  isSquare (to m) ∧ isSquare (castleRookFrom m) ∧ isSquare (castleRookTo m)
  ∧ spaceGetType sp = PIECETYPE_KING
  ∧ promote m = 0 ∧ capture m = 0
  ∧ Z.land (to m) 0xf0 = Z.land idx 0xf0
  ∧ castleRook m = get8 (board l) (castleRookFrom m)
  ∧ castleOK l m.
Proof.
  intros Hidx. destruct 1 as [| | |kingSide file rank m Hking Hfile Hok];
    cbn; try done.
  intros _. subst m file rank.
  pose proof (castle_file_range _ _ _ Hfile) as Hrange.
  split_and!; try done;
    try (apply castle_files; [done|]; destruct kingSide; lia).
  pose proof (forall_squares
    (λ idx, forallb (λ f, Z.land (Z.lor (Z.land idx 0xf0) f) 0xf0
                          =? Z.land idx 0xf0) [6; 2]) eq_refl idx Hidx) as H.
  cbn [forallb] in H. rewrite !andb_true_iff, !Z.eqb_eq in H.
  destruct kingSide; tauto.
Qed.

Lemma elem_of_range lo hi x : x ∈ range lo hi ↔ lo <= x <= hi.
Proof. unfold range. rewrite elem_of_seqZ. lia. Qed.

Lemma fold_set_arrays K xs : ∀ l l',
  sameArrays l l' →
  sameArrays (fold_left (λ l x, Layer_set l x K) xs l)
             (fold_left (λ l x, Layer_set l x K) xs l').
Proof.
  induction xs as [|x xs IH]; intros l l' H; [done|].
  cbn [fold_left]. by apply IH, Layer_set_arrays.
Qed.

Lemma castleProbe_genLayer l m :
  sameArrays (castleProbe (genLayer l (from m)) m) (castleProbe l m).
Proof.
  unfold castleProbe. apply fold_set_arrays, Layer_set_arrays.
  rewrite Layer_set_empty_noop
    by (cbn [copyLayer board]; apply Layer_set_blank_read).
  eapply sameArrays_trans; [apply copyLayer_arrays|].
  unfold genLayer. apply sameArrays_refl.
Qed.

(** The squares between two squares of one rank are squares. *)
Lemma path_squares a b x :
  isSquare a → isSquare b → Z.land a 0xf0 = Z.land b 0xf0 →
  Z.min a b <= x <= Z.max a b → isSquare x.
Proof.
  intros Ha Hb Hrank Hx.
  pose proof (forall_squares
    (λ a, forallb (λ b, implb (onBoard b && (Z.land a 0xf0 =? Z.land b 0xf0))
                          (forallb isSquareb (range (Z.min a b) (Z.max a b))))
                  (seqZ 0 128)) eq_refl a Ha) as H.
  cbv beta in H. rewrite forallb_forall in H. specialize (H b).
  destruct Hb as [Hbr Hbb]. rewrite Hbb, Hrank, Z.eqb_refl in H. cbn [andb implb] in H.
  assert (Hin : In b (seqZ 0 128)) by (apply list_elem_of_In, elem_of_seqZ; lia).
  apply H in Hin. rewrite forallb_forall in Hin.
  apply isSquareb_spec, Hin, list_elem_of_In, elem_of_range. done.
Qed.

(** No danger on the board [_tryCastle] builds means that no square of the
    king's travel is attacked there. *)
Lemma castleProbe_safe l m c :
  length (board l) = 128%nat →
  isSquare (from m) → isSquare (to m) → isSquare (castleRookFrom m) →
  Z.land (to m) 0xf0 = Z.land (from m) 0xf0 →
  isKingOf c (what m) = true →
  (∀ x, x ∈ castleSpan m → x ≠ from m → x ≠ castleRookFrom m →
        get8 (board l) x = SPACE_EMPTY) →
  inDanger c (castleProbe l m) = Ok false →
  ∀ x, x ∈ kingPath m → attackMapIsAttacked (castleProbe l m) x (8 - c) = false.
Proof.
  intros Hlen Hf Ht Hr Hrank HK Hspan Hsafe x Hx.
  unfold castleProbe in *.
  set (l0 := Layer_set (Layer_set (copyLayer l newLayer) (from m) SPACE_EMPTY)
                       (castleRookFrom m) SPACE_EMPTY) in *.
  assert (Hlen0 : length (board l0) = 128%nat)
    by (subst l0; by rewrite !Layer_set_board, !put8_length).
  assert (Hpath : Forall isSquare (kingPath m)).
  { apply Forall_forall. intros y Hy. apply elem_of_range in Hy.
    eapply (path_squares (from m) (to m)); done. }
  assert (Hempty : ∀ y, y ∈ kingPath m → get8 (board l0) y = SPACE_EMPTY).
  { intros y Hy. rewrite Forall_forall in Hpath.
    destruct (Hpath y Hy) as [Hyr _]. destruct Hf as [Hfr _], Hr as [Hrr _].
    subst l0. rewrite !Layer_set_board. cbn [copyLayer board].
    destruct (decide (y = castleRookFrom m)) as [->|Hn1].
    { rewrite get8_put8_same. by case_bool_decide. }
    rewrite get8_put8_ne by lia.
    destruct (decide (y = from m)) as [->|Hn2].
    { rewrite get8_put8_same. by case_bool_decide. }
    rewrite get8_put8_ne by lia.
    apply Hspan; [|done|done].
    apply elem_of_range in Hy. apply elem_of_range.
    unfold min4, max4. lia. }
  destruct (kings_placed c (what m) (kingPath m) l0 HK) as [Hp Hk]; try done.
  { apply NoDup_seqZ. }
  unfold inDanger in Hsafe.
  eapply dangerIn_false; [exact Hsafe | | by apply Hk].
  rewrite Hp. apply elem_of_app. by right.
Qed.

(** What the generator has checked for an emitted castle. *)
Lemma Generated_castle l color m :
  Forall isSquare (pieceList l) →
  length (board l) = 128%nat →
  Generated l color m →
  castleRook m ≠ 0 →
  (∀ x, x ∈ castleSpan m → x ≠ from m → x ≠ castleRookFrom m →
        get8 (board l) x = SPACE_EMPTY)
  ∧ (∀ x, x ∈ kingPath m →
          attackMapIsAttacked (castleProbe l m) x (8 - color) = false).
Proof.
  intros Hsq Hlen (idx & Hin & Hcol & Hsp & m0 & Hcand & Htrial & Hm) Hrook.
  assert (Hidx : isSquare idx) by (rewrite Forall_forall in Hsq; by apply Hsq).
  assert (Hm0 : m = m0 ∧ castleRook m0 ≠ 0).
  { unfold pushed in Hm. destruct (promote m0 =? 0) eqn:Hp; cbn [negb] in Hm.
    - destruct Hm as [<- | []]. done.
    - apply in_map_iff in Hm as (t & <- & _). exfalso.
      apply Z.eqb_neq in Hp.
      destruct (Candidate_promotes _ _ _ _ _ Hcand Hp) as (_ & Hcr & _).
      by apply Hrook. }
  destruct Hm0 as [-> Hrook0].
  destruct (Candidate_origin _ _ _ _ _ Hcand) as (Hw & Hf & _).
  destruct (Candidate_castle _ _ _ _ _ Hidx Hcand Hrook0)
    as (Hto & Hrf & Hrt & Hking & _ & _ & Hrank & _ & Hspan & Hsafe).
  assert (Hspan' : ∀ x, x ∈ castleSpan m0 → x ≠ from m0 → x ≠ castleRookFrom m0 →
                        get8 (board l) x = SPACE_EMPTY).
  { intros x Hx Hxf Hxr. rewrite <- (Hspan x Hx Hxf Hxr).
    unfold genLayer. rewrite Layer_set_board. cbn [copyLayer board].
    symmetry. apply get8_put8_ne; [destruct Hidx; lia | | congruence].
    apply elem_of_range in Hx. unfold min4 in Hx.
    destruct Hidx, Hto, Hrf, Hrt. lia. }
  split; [exact Hspan'|].
  rewrite Hw in Hsafe. rewrite <- Hcol.
  apply castleProbe_safe; try done; try congruence.
  - unfold isKingOf. rewrite Hw, Hking, !Z.eqb_refl. done.
  - rewrite <- Hsafe. symmetry. rewrite <- Hf.
    apply inDanger_arrays, castleProbe_genLayer.
Qed.

(** C4: a castle of the list [listAllValidMoves] returns has passed the
    checks of [_tryCastle].  Every square from the least to the greatest of
    king origin, king destination, rook origin and rook destination, both
    included, is empty, the two origins apart; on the board with king and
    rook lifted and a king on every square of the king's travel, no square
    from the lesser to the greater of the king's origin and destination,
    both included, is attacked by the enemy; and once the castle is applied
    the king is not in danger. *)
Theorem castle_needs_clear_and_safe_path (b : Board) (color : Z) r b' :
  Forall isSquare (pieceList (current b)) →
  length (board (current b)) = 128%nat →
  cacheValid b color →
  listAllValidMoves color b = Ok (r, b') →
  ∀ m, m ∈ default [] (arrays b' !! r) → castleRook m ≠ 0 →
    (∀ x, Z.min (Z.min (from m) (to m))
                (Z.min (castleRookFrom m) (castleRookTo m)) <= x
          <= Z.max (Z.max (from m) (to m))
                   (Z.max (castleRookFrom m) (castleRookTo m)) →
          x ≠ from m → x ≠ castleRookFrom m →
          get8 (board (current b)) x = SPACE_EMPTY)
    ∧ (∀ x, Z.min (from m) (to m) <= x <= Z.max (from m) (to m) →
            attackMapIsAttacked (kingsOnTravel (current b) m) x (8 - color)
            = false)
    ∧ ∃ b'', performMove m b' = Ok (tt, b'')
             ∧ kingInDanger color b'' = Ok (false, b'').
Proof.
  intros Hsq Hlen Hvalid H m Hm Hrook.
  destruct (listAllValidMoves_generated _ _ _ _ Hsq Hvalid H) as (Hgen & Hsame & _).
  rewrite Forall_forall in Hgen. specialize (Hgen m Hm).
  destruct (Generated_castle _ _ _ Hsq Hlen Hgen Hrook) as [Ha Hb].
  split; [|split].
  - intros x Hx. apply Ha. apply elem_of_range. unfold min4, max4. lia.
  - intros x Hx.
    change (kingsOnTravel (current b) m) with (castleProbe (current b) m).
    apply Hb. by apply elem_of_range.
  - apply (Generated_performs b b'); [exact Hsq | exact Hgen | exact Hsame].
Qed.

Lemma squares_check (l : list Z) :
  forallb isSquareb l = true → Forall isSquare l.
Proof.
  intros H. rewrite forallb_forall in H. apply Forall_forall.
  intros x Hx. apply isSquareb_spec, H, list_elem_of_In, Hx.
Qed.

Lemma cacheValid_empty b color :
  moveCache (current b) !! color = None → cacheValid b color.
Proof. intros H r Hr. congruence. Qed.

(** The knight move g1-f3 of a new game applies and leaves the white king
    out of danger. *)
Lemma generated_move_keeps_king_safe_witness :
  ∃ b'', performMove knightG1F3 (listed standardBoard COLOR_WHITE) = Ok (tt, b'')
         ∧ kingInDanger COLOR_WHITE b'' = Ok (false, b'').
Proof.
  apply (generated_move_keeps_king_safe standardBoard COLOR_WHITE 0%nat
           (listed standardBoard COLOR_WHITE)).
  - apply squares_check. vm_compute. reflexivity.
  - apply cacheValid_empty. vm_compute. reflexivity.
  - vm_compute. reflexivity.
  - apply list_elem_of_In. vm_compute.
    repeat (first [left; reflexivity | right]).
Defined.

(** The short castle with king e1 and rook h1: f1 and g1 are empty, and e1,
    f1 and g1 are not attacked on the board with kings on them. *)
Lemma castle_needs_clear_and_safe_path_witness :
  (∀ x, Z.min (Z.min (from shortCastle) (to shortCastle))
              (Z.min (castleRookFrom shortCastle) (castleRookTo shortCastle)) <= x
        <= Z.max (Z.max (from shortCastle) (to shortCastle))
                 (Z.max (castleRookFrom shortCastle) (castleRookTo shortCastle)) →
        x ≠ from shortCastle → x ≠ castleRookFrom shortCastle →
        get8 (board (current castleBoard)) x = SPACE_EMPTY)
  ∧ (∀ x, Z.min (from shortCastle) (to shortCastle) <= x
          <= Z.max (from shortCastle) (to shortCastle) →
          attackMapIsAttacked (kingsOnTravel (current castleBoard) shortCastle) x
            (8 - COLOR_WHITE) = false)
  ∧ ∃ b'', performMove shortCastle (listed castleBoard COLOR_WHITE) = Ok (tt, b'')
           ∧ kingInDanger COLOR_WHITE b'' = Ok (false, b'').
Proof.
  apply (castle_needs_clear_and_safe_path castleBoard COLOR_WHITE 0%nat
           (listed castleBoard COLOR_WHITE)).
  - apply squares_check. vm_compute. reflexivity.
  - vm_compute. reflexivity.
  - apply cacheValid_empty. vm_compute. reflexivity.
  - vm_compute. reflexivity.
  - apply list_elem_of_In. vm_compute.
    repeat (first [left; reflexivity | right]).
  - vm_compute. discriminate.
Defined.

(** ** Sums and counts *)

Lemma sumZ_cons x xs : sumZ (x :: xs) = x + sumZ xs.
Proof. done. Qed.

Lemma sumZ_app xs ys : sumZ (xs ++ ys) = sumZ xs + sumZ ys.
Proof. unfold sumZ. induction xs as [|x xs IH]; cbn; lia. Qed.

Lemma sumZ_ext {A} (f g : A → Z) xs :
  (∀ x, x ∈ xs → f x = g x) → sumZ (map f xs) = sumZ (map g xs).
Proof.
  induction xs as [|x xs IH]; intros H; [done|]. cbn [map].
  rewrite !sumZ_cons, (H x) by left. rewrite IH; [done|].
  intros y Hy. apply H. by right.
Qed.

Lemma sumZ_zero {A} (f : A → Z) xs :
  (∀ x, x ∈ xs → f x = 0) → sumZ (map f xs) = 0.
Proof.
  induction xs as [|x xs IH]; intros H; [done|]. cbn [map].
  rewrite !sumZ_cons, (H x) by left. rewrite IH; [done|].
  intros y Hy. apply H. by right.
Qed.

Lemma sumZ_add {A} (f g : A → Z) xs :
  sumZ (map (λ x, f x + g x) xs) = sumZ (map f xs) + sumZ (map g xs).
Proof.
  induction xs as [|x xs IH]; [done|]. cbn [map]. rewrite !sumZ_cons. lia.
Qed.

Lemma sumZ_sub {A} (f g : A → Z) xs :
  sumZ (map (λ x, f x - g x) xs) = sumZ (map f xs) - sumZ (map g xs).
Proof.
  induction xs as [|x xs IH]; [done|]. cbn [map]. rewrite !sumZ_cons. lia.
Qed.

Lemma sumZ_swap {A B} (f : A → B → Z) xs ys :
  sumZ (map (λ x, sumZ (map (f x) ys)) xs)
  = sumZ (map (λ y, sumZ (map (λ x, f x y) xs)) ys).
Proof.
  induction xs as [|x xs IH].
  - cbn. symmetry. by apply sumZ_zero.
  - cbn [map]. rewrite sumZ_cons, IH, <- sumZ_add. by apply sumZ_ext.
Qed.

(** A sum with one term that counts. *)
Lemma sumZ_single (t v : Z) xs :
  NoDup xs → t ∈ xs →
  sumZ (map (λ s, if bool_decide (s = t) then v else 0) xs) = v.
Proof.
  induction 1 as [|x xs Hx Hnd IH]; intros Hin.
  - by apply elem_of_nil in Hin.
  - cbn [map]. rewrite sumZ_cons. case_bool_decide as Hxt.
    + subst x. rewrite sumZ_zero; [lia|].
      intros y Hy. case_bool_decide; [by subst|done].
    + apply elem_of_cons in Hin as [->|Hin]; [done|]. rewrite IH by done. lia.
Qed.

Lemma cnt_app cell xs ys : cnt cell (xs ++ ys) = cnt cell xs + cnt cell ys.
Proof. unfold cnt. by rewrite map_app, sumZ_app. Qed.

Lemma cnt_concat cell xss : cnt cell (concat xss) = sumZ (map (cnt cell) xss).
Proof.
  induction xss as [|xs xss IH]; [done|].
  cbn [concat map]. rewrite cnt_app, IH. done.
Qed.

Lemma cnt_cons cell c cells :
  cnt cell (c :: cells) = (if bool_decide (c = cell) then 1 else 0) + cnt cell cells.
Proof. done. Qed.

Lemma cong256_u8 x : cong256 (u8 x) x.
Proof.
  exists (- (x / 256)). unfold u8.
  pose proof (Z.div_mod x 256). lia.
Qed.

Lemma cong256_trans a b c : cong256 a b → cong256 b c → cong256 a c.
Proof. intros [k ->] [k' ->]. exists (k + k'). lia. Qed.

(** Two bytes that are equal as bytes are equal. *)
Lemma cong256_bytes a b : isByte a → isByte b → cong256 a b → a = b.
Proof. unfold isByte. intros Ha Hb [k ->]. lia. Qed.

(** What a run of bumps leaves in a cell. *)
Lemma fold_bump_get d cells i : ∀ a,
  0 <= i → (Z.to_nat i < length a)%nat → Forall (λ c, 0 <= c) cells →
  cong256 (get8 (fold_left (bump d) cells a) i) (get8 a i + d * cnt i cells).
Proof.
  induction cells as [|c cells IH]; intros a Hi Hlen Hc.
  - exists 0. cbn. unfold cnt. cbn. lia.
  - apply Forall_cons in Hc as [Hc0 Hc]. cbn [fold_left].
    eapply cong256_trans; [apply IH; [done | by rewrite bump_length | done]|].
    rewrite cnt_cons. unfold bump. case_bool_decide as Hci.
    + subst c. rewrite get8_put8_same, bool_decide_eq_true_2 by done.
      destruct (cong256_u8 (get8 a i + d)) as [k ->]. exists k. lia.
    + rewrite get8_put8_ne by done. exists 0. lia.
Qed.

Lemma bump_bytes d a i : Forall isByte a → Forall isByte (bump d a i).
Proof.
  intros H. unfold bump, put8. apply Forall_insert; [done|].
  unfold isByte, u8. apply Z.mod_pos_bound. lia.
Qed.

Lemma fold_bump_bytes d cells : ∀ a,
  Forall isByte a → Forall isByte (fold_left (bump d) cells a).
Proof.
  induction cells as [|c cells IH]; intros a H; [done|].
  cbn [fold_left]. by apply IH, bump_bytes.
Qed.

(** ** Rays and the board edge *)

(** A ray with fuel to spare does not depend on its fuel: the squares that
    the ray on the empty board runs over fit its fuel. *)
Lemma rayFrom_fuel n b d : ∀ m y,
  (length (rayFrom n [] y d) < n)%nat → (n ≤ m)%nat →
  rayFrom m b y d = rayFrom n b y d.
Proof.
  induction n as [|n IH]; intros m y Hlen Hm; [cbn in Hlen; lia|].
  destruct m as [|m]; [lia|]. cbn [rayFrom] in *.
  destruct (onBoard y); [|done].
  change (get8 [] y) with 0 in Hlen. cbn in Hlen.
  destruct (get8 b y =? SPACE_EMPTY); [|done].
  f_equal. apply IH; lia.
Qed.

Lemma rayFrom_rest n b d x : ∀ y,
  (length (rayFrom n [] y d) < n)%nat →
  last (rayFrom n b y d) = Some x →
  (length (rayFrom (n - length (rayFrom n b y d)) [] (x + d) d)
   < n - length (rayFrom n b y d))%nat.
Proof.
  induction n as [|n IH]; intros y Hlen Hlast; [cbn in Hlen; lia|].
  cbn [rayFrom] in *. destruct (onBoard y); [|done].
  change (get8 [] y) with 0 in Hlen. cbn in Hlen.
  destruct (get8 b y =? SPACE_EMPTY).
  - rewrite last_cons in Hlast. cbn [length].
    destruct (last (rayFrom n b (y + d) d)) as [z|] eqn:Hz.
    + simplify_eq. replace (S n - S _)%nat with (n - length (rayFrom n b (y + d) d))%nat by lia.
      apply IH; [lia | done].
    + simplify_eq. apply last_None in Hz. rewrite Hz. cbn [length].
      replace (S n - 1)%nat with n by lia. lia.
  - cbn in Hlast. simplify_eq. cbn [length].
    replace (S n - 1)%nat with n by lia. lia.
Qed.

(** From a square, a line leaves the board within eight steps. *)
Lemma line_short s d :
  isSquare s → d ∈ DIRS → (length (rayFrom 8 [] (s + d) d) < 8)%nat.
Proof.
  intros Hs Hd.
  pose proof (forall_squares
    (λ s, forallb (λ d, bool_decide (length (rayFrom 8 [] (s + d) d) < 8)%nat) DIRS)
    eq_refl s Hs) as H.
  cbv beta in H. rewrite forallb_forall in H.
  apply list_elem_of_In, H, bool_decide_eq_true in Hd. exact Hd.
Qed.

Lemma rayFrom_blocker n b d z : ∀ y,
  isSquare (y - d) → -33 <= d <= 33 →
  last (rayFrom n b y d) = Some z → get8 b z ≠ SPACE_EMPTY →
  ∃ k, 0 <= k < Z.of_nat n ∧ z = y + k * d ∧ clearRun b y d k ∧ isSquare z.
Proof.
  induction n as [|n IH]; intros y Hprev Hd Hlast Hz; [done|].
  cbn [rayFrom] in Hlast. destruct (onBoard y) eqn:Hon; [|done].
  assert (Hy : isSquare y) by (by apply (isSquare_next y d)).
  destruct (get8 b y =? SPACE_EMPTY) eqn:He.
  - apply Z.eqb_eq in He. rewrite last_cons in Hlast.
    destruct (last (rayFrom n b (y + d) d)) as [z'|] eqn:Hz'; simplify_eq.
    destruct (IH (y + d)) as (k & Hk & -> & Hclear & Hsq); try done.
    { by replace (y + d - d) with y by lia. }
    exists (k + 1). split; [lia|]. split; [lia|]. split.
    + intros j Hj. destruct (decide (j = 0)) as [->|Hj0].
      * by replace (y + 0 * d) with y by lia.
      * replace (y + j * d) with (y + d + (j - 1) * d) by lia.
        apply Hclear. lia.
    + done.
  - cbn in Hlast. simplify_eq. exists 0. split; [lia|]. split; [lia|].
    split; [intros j Hj; lia | done].
Qed.

Lemma rayFrom_hits n b d : ∀ y k,
  0 <= k < Z.of_nat n → clearRun b y d k →
  onBoard (y + k * d) = true → get8 b (y + k * d) ≠ SPACE_EMPTY →
  last (rayFrom n b y d) = Some (y + k * d).
Proof.
  induction n as [|n IH]; intros y k Hk Hclear Hon Hocc; [lia|].
  cbn [rayFrom]. destruct (decide (k = 0)) as [->|Hk0].
  - replace (y + 0 * d) with y in * by lia. rewrite Hon.
    apply Z.eqb_neq in Hocc. by rewrite Hocc.
  - destruct (Hclear 0) as [[_ Hy] Hey]; [lia|].
    replace (y + 0 * d) with y in * by lia. rewrite Hy, Hey. cbn.
    rewrite last_cons.
    replace (y + k * d) with (y + d + (k - 1) * d) in * by lia.
    rewrite (IH (y + d) (k - 1)); try done; [lia|].
    intros j Hj. replace (y + d + j * d) with (y + (j + 1) * d) by lia.
    apply Hclear. lia.
Qed.

(** The first piece met from [s] along [d] stands on [x] exactly when the
    first piece met from [x] along [-d] stands on [s]: the squares between
    the two are the same.  The two boards may differ on [s] and [x]. *)
Lemma ray_meets b b' s x d :
  isSquare s → isSquare x → d ≠ 0 → -33 <= d <= 33 →
  (∀ y, isSquare y → y ≠ s → y ≠ x → get8 b y = get8 b' y) →
  get8 b x ≠ SPACE_EMPTY → get8 b' s ≠ SPACE_EMPTY →
  last (ray b s d) = Some x → last (ray b' x (- d)) = Some s.
Proof.
  intros Hs Hx Hd0 Hd Hsame Hbx Hbs Hlast. unfold ray in *.
  destruct (rayFrom_blocker _ _ _ _ _ ltac:(by replace (s + d - d) with s by lia)
              Hd Hlast Hbx) as (k & Hk & Hxk & Hclear & _).
  assert (Es : x + - d + k * - d = s) by lia.
  rewrite <- Es. apply rayFrom_hits; [done | | |]; rewrite ?Es.
  - intros j Hj. destruct (Hclear (k - 1 - j)) as [Hsq He]; [lia|].
    replace (x + - d + j * - d) with (s + d + (k - 1 - j) * d) by lia.
    split; [done|]. rewrite <- Hsame; [done | done | |].
    + intros E. assert ((k - j) * d = 0) as E' by lia.
      apply Z.mul_eq_0 in E'. lia.
    + intros E. rewrite E in He. done.
  - by destruct Hs.
  - done.
Qed.

(** ** One piece more on the board *)

Lemma SQUARES_spec s : s ∈ SQUARES ↔ isSquare s.
Proof.
  unfold SQUARES, isSquare. rewrite list_elem_of_filter, elem_of_seqZ. intuition lia.
Qed.

Lemma SQUARES_NoDup : NoDup SQUARES.
Proof. apply NoDup_filter, NoDup_seqZ. Qed.

(** The cells of a piece do not depend on what stands on its own square. *)
Lemma directCells_own b b' sq color type :
  (∀ y, isSquare y → y ≠ sq → get8 b y = get8 b' y) →
  isSquare sq →
  directCells b sq color type = directCells b' sq color type.
Proof.
  intros Hext Hsq. unfold directCells, attackedSquares.
  assert (Hrays : ∀ dirs, dirs ⊆ DIRS →
            map (ray b sq) dirs = map (ray b' sq) dirs).
  { intros dirs Hd. apply map_ext_in. intros e He.
    apply list_elem_of_In, Hd, steps_DIRS in He as [H0 Hr]. by apply ray_ext. }
  rewrite (Hrays DIRS), (Hrays orthogonals), (Hrays diagonals);
    [done | apply subseteq_drop | apply subseteq_take | done].
Qed.

Lemma slidesAlong_opp t d : d ∈ DIRS → slidesAlong t (- d) = slidesAlong t d.
Proof.
  unfold DIRS. rewrite !elem_of_cons, elem_of_nil. unfold slidesAlong.
  intros [->|[->|[->|[->|[->|[->|[->|[->|[]]]]]]]]];
    repeat case_match; reflexivity.
Qed.

Lemma opp_DIRS d : d ∈ DIRS → - d ∈ DIRS.
Proof.
  unfold DIRS. rewrite !elem_of_cons, elem_of_nil.
  intros [->|[->|[->|[->|[->|[->|[->|[->|[]]]]]]]]]; cbn; tauto.
Qed.

(** A sum over the eight directions, taken over their opposites. *)
Lemma sumZ_DIRS_opp (f : Z → Z) :
  sumZ (map f DIRS) = sumZ (map (λ d, f (- d)) DIRS).
Proof. cbv [DIRS sumZ map foldr Z.opp]. lia. Qed.

(** The directions a piece slides along: all eight for a queen, the first
    four for a rook, the last four for a bishop. *)
Lemma sumZ_slides t (h : Z → bool) (f : Z → Z) :
  sumZ (map (λ e, if slidesAlong t e && h e then f e else 0) DIRS)
  = sumZ (map (λ e, if h e then f e else 0)
            (if t =? PIECETYPE_QUEEN then DIRS
             else if t =? PIECETYPE_ROOK then orthogonals
             else if t =? PIECETYPE_BISHOP then diagonals
             else [])).
Proof.
  unfold slidesAlong.
  destruct (t =? PIECETYPE_QUEEN); [|destruct (t =? PIECETYPE_ROOK);
                                     [|destruct (t =? PIECETYPE_BISHOP)]];
    unfold orthogonals, diagonals, DIRS, sumZ; cbn [take drop map foldr];
    repeat match goal with
           | |- context [bool_decide ?P] =>
               let v := eval vm_compute in (bool_decide P) in
               change (bool_decide P) with v
           end;
    cbn [andb]; lia.
Qed.

Section OnePiece.
Variables (B0 B : list Z) (x cell : Z).
Hypothesis Hx : isSquare x.
Hypothesis Hfree : get8 B0 x = SPACE_EMPTY.
Hypothesis Hocc : get8 B x ≠ SPACE_EMPTY.
Hypothesis Hsame : ∀ y, isSquare y → y ≠ x → get8 B y = get8 B0 y.

(** With [x] empty a ray that ended on [x] runs on. *)
Lemma rayFrom_blocked n d : ∀ y,
  isSquare (y - d) → -33 <= d <= 33 →
  rayFrom n B0 y d =
  rayFrom n B y d ++
    (if bool_decide (last (rayFrom n B y d) = Some x)
     then rayFrom (n - length (rayFrom n B y d)) B0 (x + d) d else []).
Proof.
  induction n as [|n IH]; intros y Hprev Hd; [done|].
  cbn [rayFrom]. destruct (onBoard y) eqn:Hon; [|done].
  assert (Hy : isSquare y) by (by apply (isSquare_next y d)).
  destruct (decide (y = x)) as [->|Hne].
  - rewrite Hfree. apply Z.eqb_neq in Hocc. rewrite Hocc. cbn.
    rewrite bool_decide_eq_true_2 by done. by rewrite Nat.sub_0_r.
  - rewrite Hsame by done. destruct (get8 B0 y =? SPACE_EMPTY).
    + rewrite (IH (y + d)) by (by replace (y + d - d) with y by lia).
      rewrite last_cons. cbn [app length Nat.sub]. do 2 f_equal.
      destruct (last (rayFrom n B (y + d) d)) as [z|] eqn:Hz; [done|].
      rewrite (bool_decide_eq_false_2 (None = Some x)) by done.
      by rewrite bool_decide_eq_false_2 by congruence.
    + cbn. rewrite bool_decide_eq_false_2 by congruence. done.
Qed.

Lemma ray_blocked s d :
  isSquare s → d ∈ DIRS →
  ray B0 s d =
  ray B s d ++ (if bool_decide (last (ray B s d) = Some x) then ray B0 x d else []).
Proof.
  intros Hs Hd. destruct (steps_DIRS _ Hd) as [Hd0 Hr]. unfold ray.
  rewrite rayFrom_blocked by (by replace (s + d - d) with s by lia).
  case_bool_decide as Hlast; [|done]. f_equal. symmetry.
  apply rayFrom_fuel; [|lia].
  apply rayFrom_rest; [by apply line_short | done].
Qed.

Lemma rays_delta s c dirs :
  isSquare s → dirs ⊆ DIRS →
  cnt cell (map (attackIndex c) (concat (map (ray B0 s) dirs)))
  - cnt cell (map (attackIndex c) (concat (map (ray B s) dirs)))
  = sumZ (map (λ e, if bool_decide (last (ray B s e) = Some x)
                    then cnt cell (map (attackIndex c) (ray B0 x e)) else 0) dirs).
Proof.
  intros Hs. induction dirs as [|e dirs IH]; intros Hd; [done|].
  cbn [map concat]. rewrite sumZ_cons, !map_app, !cnt_app.
  rewrite (ray_blocked s e) by (done || apply Hd; left).
  rewrite map_app, cnt_app.
  rewrite <- IH by (intros e' He'; apply Hd; by right).
  case_bool_decide; cbn [map]; change (cnt cell []) with 0; lia.
Qed.

(** What one more piece on [x] takes from the piece on another square. *)
Lemma piece_delta s :
  isSquare s → s ≠ x →
  cnt cell (pieceCells B0 s) - cnt cell (pieceCells B s)
  = sumZ (map (pastCount B0 B x cell s) DIRS).
Proof.
  intros Hs Hne. unfold pieceCells, pastCount. rewrite (Hsame s) by done. cbv zeta.
  destruct (get8 B0 s =? SPACE_EMPTY) eqn:He.
  { cbn [negb andb]. rewrite sumZ_zero by done. done. }
  cbn [negb andb].
  rewrite (sumZ_slides (spaceGetType (get8 B0 s))
             (λ e, bool_decide (last (ray B s e) = Some x))
             (λ e, cnt cell (map (attackIndex (spaceGetColor (get8 B0 s)))
                               (ray B0 x e)))).
  unfold directCells, attackedSquares.
  set (t := spaceGetType (get8 B0 s)).
  destruct (t =? PIECETYPE_PAWN) eqn:E1.
  { apply Z.eqb_eq in E1. rewrite E1. cbn. lia. }
  destruct (t =? PIECETYPE_KNIGHT) eqn:E2.
  { apply Z.eqb_eq in E2. rewrite E2. cbn. lia. }
  destruct (t =? PIECETYPE_KING) eqn:E3.
  { apply Z.eqb_eq in E3. rewrite E3. cbn. lia. }
  destruct (t =? PIECETYPE_BISHOP) eqn:E4.
  { apply Z.eqb_eq in E4. rewrite E4. cbn [Z.eqb Pos.eqb PIECETYPE_QUEEN PIECETYPE_ROOK PIECETYPE_BISHOP].
    apply rays_delta; [done | apply subseteq_drop]. }
  destruct (t =? PIECETYPE_ROOK) eqn:E5.
  { apply Z.eqb_eq in E5. rewrite E5. cbn [Z.eqb Pos.eqb PIECETYPE_QUEEN PIECETYPE_ROOK PIECETYPE_BISHOP].
    apply rays_delta; [done | apply subseteq_take]. }
  destruct (t =? PIECETYPE_QUEEN) eqn:E6.
  { by apply rays_delta. }
  cbn. lia.
Qed.

(** The piece that looks through [x] along [d] is the one whose ray along
    [-d] ends on [x]. *)
Lemma through_count d :
  d ∈ DIRS →
  cnt cell (lookThrough B0 x d)
  = sumZ (map (λ s, if bool_decide (s = x) then 0
                    else pastCount B0 B x cell s (- d)) SQUARES).
Proof.
  intros Hd. destruct (steps_DIRS _ Hd) as [Hd0 Hr].
  assert (Hmeet : ∀ s, isSquare s → s ≠ x → get8 B0 s ≠ SPACE_EMPTY →
            (last (ray B s (- d)) = Some x ↔ last (ray B0 x d) = Some s)).
  { intros s Hs Hne Hq. split; intros H.
    - replace d with (- - d) by lia.
      apply (ray_meets B B0); try done; try lia.
      intros y Hy _ Hyx. by apply Hsame.
    - apply (ray_meets B0 B); try done.
      intros y Hy Hyx _. symmetry. by apply Hsame. }
  unfold lookThrough.
  destruct (last (ray B0 x d)) as [t|] eqn:Hlast.
  - assert (Ht : t ∈ ray B0 x d).
    { apply last_Some in Hlast as [pre ->]. apply elem_of_app. right. left. }
    pose proof (ray_squares B0 x d Hx Hr) as Hsqs.
    pose proof (ray_away B0 x d Hd0) as Haway.
    rewrite Forall_forall in Hsqs, Haway.
    specialize (Hsqs t Ht). specialize (Haway t Ht).
    set (V := cnt cell
                (if negb (get8 B0 t =? SPACE_EMPTY)
                    && slidesAlong (spaceGetType (get8 B0 t)) d
                 then map (attackIndex (spaceGetColor (get8 B0 t)))
                        (ray B0 x (- d))
                 else [])).
    rewrite <- (sumZ_single t V SQUARES SQUARES_NoDup) by (by apply SQUARES_spec).
    apply sumZ_ext. intros s Hs. apply SQUARES_spec in Hs.
    destruct (decide (s = x)) as [->|Hne].
    { rewrite (bool_decide_eq_true_2 (x = x)) by done.
      by rewrite (bool_decide_eq_false_2 (x = t)) by congruence. }
    rewrite (bool_decide_eq_false_2 (s = x)) by done.
    unfold pastCount. cbv zeta. rewrite slidesAlong_opp by done.
    destruct (get8 B0 s =? SPACE_EMPTY) eqn:He.
    { cbn [negb andb]. case_bool_decide as Hst; [|done].
      subst s V. rewrite He. done. }
    apply Z.eqb_neq in He. specialize (Hmeet s Hs Hne He).
    case_bool_decide as Hst.
    + subst s V. rewrite bool_decide_eq_true_2 by (by apply Hmeet).
      rewrite andb_true_r. apply Z.eqb_neq in He. rewrite He. cbn [negb andb].
      by destruct (slidesAlong _ _).
    + rewrite bool_decide_eq_false_2; [by rewrite andb_false_r|].
      intros H. apply Hmeet in H. congruence.
  - symmetry. apply sumZ_zero. intros s Hs. apply SQUARES_spec in Hs.
    case_bool_decide as Hsx; [done|]. unfold pastCount. cbv zeta.
    destruct (get8 B0 s =? SPACE_EMPTY) eqn:He; [done|].
    apply Z.eqb_neq in He.
    rewrite bool_decide_eq_false_2; [by rewrite andb_false_r|].
    intros H. apply (Hmeet s Hs Hsx He) in H. congruence.
Qed.

(** The attack counts of the board with the piece on [x], from those of the
    board without it: the piece counts on the squares it attacks, and the
    sliders that looked through [x] no longer count behind it. *)
Lemma attackCount_add :
  attackCount B cell
  = attackCount B0 cell
    + cnt cell (directCells B0 x (spaceGetColor (get8 B x)) (spaceGetType (get8 B x)))
    - cnt cell (throughCells B0 x).
Proof.
  assert (H1 : sumZ (map (λ s, cnt cell (pieceCells B s) - cnt cell (pieceCells B0 s))
                      SQUARES)
               = sumZ (map (λ s, (if bool_decide (s = x)
                                  then cnt cell (pieceCells B x) else 0)
                                 - sumZ (map (λ e, if bool_decide (s = x) then 0
                                                   else pastCount B0 B x cell s e)
                                           DIRS))
                         SQUARES)).
  { apply sumZ_ext. intros s Hs. apply SQUARES_spec in Hs.
    case_bool_decide as Hsx.
    - subst s. rewrite sumZ_zero by done.
      unfold pieceCells at 2. rewrite Hfree. cbn. lia.
    - rewrite <- piece_delta by done. lia. }
  rewrite sumZ_sub in H1. rewrite sumZ_sub in H1.
  rewrite (sumZ_single x _ SQUARES SQUARES_NoDup) in H1 by (by apply SQUARES_spec).
  rewrite sumZ_swap, sumZ_DIRS_opp in H1.
  rewrite <- (sumZ_ext (λ d, cnt cell (lookThrough B0 x d))
                (λ d, sumZ (map (λ s, if bool_decide (s = x) then 0
                                      else pastCount B0 B x cell s (- d))
                              SQUARES)) DIRS) in H1
    by (intros d Hd; by apply through_count).
  unfold attackCount, throughCells. rewrite cnt_concat, map_map.
  rewrite <- (directCells_own B B0) by done.
  unfold pieceCells at 3 in H1. cbv zeta in H1.
  apply Z.eqb_neq in Hocc. rewrite Hocc in H1. lia.
Qed.

End OnePiece.

(** ** What [set] keeps *)

Lemma attackCount_ext b b' cell :
  (∀ y, isSquare y → get8 b y = get8 b' y) →
  attackCount b cell = attackCount b' cell.
Proof.
  intros Hext. unfold attackCount. apply sumZ_ext. intros s Hs.
  apply SQUARES_spec in Hs. unfold pieceCells. rewrite (Hext s) by done.
  cbv zeta. destruct (get8 b' s =? SPACE_EMPTY); [done|].
  rewrite (directCells_own b b'); [done | | done].
  intros y Hy _. by apply Hext.
Qed.

(** The attack map follows the attack counts through a [set]. *)
Lemma Layer_set_tracks base l x v :
  length (board l) = 128%nat → length (attacks l) = 256%nat →
  isSquare x → isByte v →
  tracks base l → tracks base (Layer_set l x v).
Proof.
  intros Hlen Hlena Hx Hv Htr i Hi.
  rewrite Layer_set_attacks, Layer_set_board. cbv zeta.
  destruct (Htr i Hi) as [k0 Hk0].
  set (B := board l) in *. set (A := attacks l) in *.
  set (B0 := put8 B x 0).
  assert (Hxr : 0 <= x ∧ (Z.to_nat x < length B)%nat) by (destruct Hx; lia).
  assert (F1 : get8 B0 x = SPACE_EMPTY).
  { subst B0. rewrite get8_put8_same. by case_bool_decide. }
  assert (F2 : ∀ y, isSquare y → y ≠ x → get8 B y = get8 B0 y).
  { intros y [Hy _] Hne. subst B0. rewrite get8_put8_ne; [done | lia | lia | done]. }
  assert (F3 : get8 (put8 B x v) x = v).
  { rewrite get8_put8_same, bool_decide_eq_true_2 by lia. by apply u8_small. }
  assert (F4 : ∀ y, isSquare y → y ≠ x → get8 (put8 B x v) y = get8 B0 y).
  { intros y [Hy _] Hne. subst B0. rewrite !get8_put8_ne; [done | lia | lia | done | lia | lia | done]. }
  assert (HT : throughCells B x = throughCells B0 x) by (by apply throughCells_ext).
  assert (HT' : throughCells (put8 B x v) x = throughCells B0 x)
    by (by apply throughCells_ext).
  assert (HD : ∀ c t, directCells B x c t = directCells B0 x c t)
    by (intros; by apply directCells_own).
  assert (HD' : ∀ c t, directCells (put8 B x v) x c t = directCells B0 x c t)
    by (intros; by apply directCells_own).
  rewrite HT, HT', HD, HD'. clear HT HT' HD HD'.
  pose proof (throughCells_nonneg B0 x Hx) as HTn.
  assert (HDn : ∀ c t, c = 0 ∨ c = 8 → Forall (λ c, 0 <= c) (directCells B0 x c t)).
  { intros c t Hc. eapply Forall_impl; [by apply directCells_cells|].
    intros a Ha. cbn in Ha. tauto. }
  (* the counts of the two boards, from those of the board with [x] empty *)
  assert (E1 : attackCount B i =
               if get8 B x =? SPACE_EMPTY then attackCount B0 i
               else attackCount B0 i
                    + cnt i (directCells B0 x (spaceGetColor (get8 B x))
                               (spaceGetType (get8 B x)))
                    - cnt i (throughCells B0 x)).
  { destruct (get8 B x =? SPACE_EMPTY) eqn:Hp.
    - apply Z.eqb_eq in Hp. apply attackCount_ext. intros y Hy.
      destruct (decide (y = x)) as [->|Hne]; [congruence | by apply F2].
    - apply Z.eqb_neq in Hp. by apply attackCount_add. }
  assert (E2 : attackCount (put8 B x v) i =
               if v =? SPACE_EMPTY then attackCount B0 i
               else attackCount B0 i
                    + cnt i (directCells B0 x (spaceGetColor v) (spaceGetType v))
                    - cnt i (throughCells B0 x)).
  { destruct (v =? SPACE_EMPTY) eqn:Hp.
    - apply Z.eqb_eq in Hp. apply attackCount_ext. intros y Hy.
      destruct (decide (y = x)) as [->|Hne]; [congruence | by apply F4].
    - apply Z.eqb_neq in Hp.
      rewrite (attackCount_add B0 (put8 B x v) x i), F3; try done. congruence. }
  rewrite E2. rewrite E1 in Hk0. clear E1 E2.
  set (a1 := if negb (get8 B x =? SPACE_EMPTY)
             then fold_left (bump 1) (throughCells B0 x)
                    (fold_left (bump (-1))
                       (directCells B0 x (spaceGetColor (get8 B x))
                          (spaceGetType (get8 B x))) A)
             else A).
  assert (Ha1len : length a1 = 256%nat).
  { subst a1. destruct (negb _); [|done]. by rewrite !fold_bump_length. }
  assert (Ha1 : cong256 (get8 a1 i) (attackCount B0 i + base i)).
  { subst a1. destruct (get8 B x =? SPACE_EMPTY); cbn [negb].
    - by exists k0.
    - destruct (fold_bump_get 1 (throughCells B0 x) i
                  (fold_left (bump (-1))
                     (directCells B0 x (spaceGetColor (get8 B x))
                        (spaceGetType (get8 B x))) A)) as [k1 Hk1];
        [lia | rewrite fold_bump_length; lia | done |].
      destruct (fold_bump_get (-1)
                  (directCells B0 x (spaceGetColor (get8 B x))
                     (spaceGetType (get8 B x))) i A) as [k2 Hk2];
        [lia | lia | apply HDn, spaceGetColor_cases |].
      exists (k0 + k1 + k2). lia. }
  clearbody a1. destruct Ha1 as [k1 Hk1].
  destruct (v =? SPACE_EMPTY); cbn [negb].
  - by exists k1.
  - destruct (fold_bump_get (-1) (throughCells B0 x) i
                (fold_left (bump 1)
                   (directCells B0 x (spaceGetColor v) (spaceGetType v)) a1))
      as [k2 Hk2]; [lia | rewrite fold_bump_length; lia | done |].
    destruct (fold_bump_get 1
                (directCells B0 x (spaceGetColor v) (spaceGetType v)) i a1)
      as [k3 Hk3]; [lia | lia | apply HDn, spaceGetColor_cases |].
    exists (k1 + k2 + k3). lia.
Qed.

Lemma Layer_set_attacks_length l x v :
  length (attacks (Layer_set l x v)) = length (attacks l).
Proof.
  rewrite Layer_set_attacks. cbv zeta.
  destruct (negb (v =? _)), (negb (get8 _ _ =? _)); by rewrite ?fold_bump_length.
Qed.

Lemma Layer_set_attacks_bytes l x v :
  Forall isByte (attacks l) → Forall isByte (attacks (Layer_set l x v)).
Proof.
  intros H. rewrite Layer_set_attacks. cbv zeta.
  destruct (negb (v =? _)), (negb (get8 _ _ =? _));
    repeat apply fold_bump_bytes; done.
Qed.

(** The piece list *)

Lemma indexOf_Some x l : ∀ i, indexOf x l = Some i → l !! i = Some x.
Proof.
  induction l as [|y l IH]; intros i H; [done|]. cbn in H.
  destruct (x =? y) eqn:E.
  - apply Z.eqb_eq in E. by simplify_eq.
  - destruct (indexOf x l) as [j|]; [|done]. cbn in H. simplify_eq. by apply IH.
Qed.

Lemma indexOf_elem x l : x ∈ l → is_Some (indexOf x l).
Proof.
  induction l as [|y l IH]; intros H; [by apply elem_of_nil in H|].
  cbn. destruct (x =? y) eqn:E; [done|].
  apply Z.eqb_neq in E. apply elem_of_cons in H as [->|H]; [done|].
  destruct (IH H) as [j ->]. done.
Qed.

(** Removal by swap and pop takes one occurrence of the square out of the
    list, and may move the last entry. *)
Lemma pieceListRemove_perm l x : x ∈ l → x :: pieceListRemove l x ≡ₚ l.
Proof.
  intros Hin. unfold pieceListRemove.
  destruct (indexOf_elem _ _ Hin) as [i Hi]. rewrite Hi.
  apply indexOf_Some in Hi.
  destruct (exists_last (l := l)) as (l' & t & ->).
  { intros ->. by apply elem_of_nil in Hin. }
  rewrite length_app. cbn [length].
  replace (length l' + 1 - 1)%nat with (length l') by lia.
  rewrite list_lookup_middle by done.
  case_bool_decide as Hne.
  - assert (Hlt : (i < length l')%nat).
    { apply lookup_lt_Some in Hi. rewrite length_app in Hi. cbn in Hi. lia. }
    rewrite lookup_app_l in Hi by done.
    replace (<[length l' := x]> (l' ++ [t])) with (l' ++ [x]).
    2:{ rewrite insert_app_r_alt by lia. by rewrite Nat.sub_diag. }
    rewrite insert_app_l by done. rewrite removelast_last.
    rewrite <- (take_drop_middle l' i x Hi) at 2.
    rewrite insert_take_drop by done.
    rewrite <- app_assoc. cbn [app]. rewrite <- !Permutation_middle.
    by rewrite app_nil_r.
  - assert (i = length l') as -> by (destruct (decide (i = length l')); [done|tauto]).
    rewrite list_lookup_middle in Hi by done. simplify_eq.
    rewrite removelast_last. apply Permutation_cons_append.
Qed.

Lemma Layer_set_pieces l x v :
  length (board l) = 128%nat → isSquare x → isByte v →
  NoDup (pieceList l) →
  (∀ y, y ∈ pieceList l ↔ isSquare y ∧ get8 (board l) y ≠ SPACE_EMPTY) →
  NoDup (pieceList (Layer_set l x v))
  ∧ (∀ y, y ∈ pieceList (Layer_set l x v)
          ↔ isSquare y ∧ get8 (board (Layer_set l x v)) y ≠ SPACE_EMPTY).
Proof.
  intros Hlen Hx Hv Hnd Hpl.
  rewrite Layer_set_pieceList, Layer_set_board.
  assert (Hxr : 0 <= x ∧ (Z.to_nat x < length (board l))%nat) by (destruct Hx; lia).
  assert (Hsame : get8 (put8 (board l) x v) x = v).
  { rewrite get8_put8_same, bool_decide_eq_true_2 by lia. by apply u8_small. }
  assert (Hother : ∀ y, isSquare y → y ≠ x →
            get8 (put8 (board l) x v) y = get8 (board l) y).
  { intros y [Hy _] Hne. rewrite get8_put8_ne; [done | lia | lia | done]. }
  assert (Hcase : ∀ y, isSquare y →
            (get8 (put8 (board l) x v) y ≠ SPACE_EMPTY
             ↔ (y = x ∧ v ≠ SPACE_EMPTY) ∨ (y ≠ x ∧ get8 (board l) y ≠ SPACE_EMPTY))).
  { intros y Hy. destruct (decide (y = x)) as [->|Hne].
    - rewrite Hsame. tauto.
    - rewrite Hother by done. tauto. }
  destruct (Z.eqb_spec (get8 (board l) x) SPACE_EMPTY) as [Hp|Hp],
           (Z.eqb_spec v SPACE_EMPTY) as [Hv0|Hv0]; cbn [Bool.eqb negb].
  - split; [done|]. intros y. rewrite Hpl. split.
    + intros [Hy Hocc]. split; [done|]. apply Hcase; [done|]. right.
      split; [|done]. intros ->. done.
    + intros [Hy Hocc]. split; [done|]. apply Hcase in Hocc as [[_ ?]|[_ ?]]; done.
  - assert (Hnot : x ∉ pieceList l) by (rewrite Hpl; tauto).
    split.
    + apply NoDup_app. split; [done|]. split; [|apply NoDup_singleton].
      intros y Hy Hy'. apply list_elem_of_singleton in Hy'. by subst.
    + intros y. rewrite elem_of_app, list_elem_of_singleton, Hpl. split.
      * intros [[Hy Hocc]| ->]; (split; [done|]); apply Hcase; try done.
        -- right. split; [|done]. intros ->. done.
        -- by left.
      * intros [Hy Hocc]. apply Hcase in Hocc as [[-> _]|[_ ?]]; [by right | by left | done].
  - assert (Hin : x ∈ pieceList l) by (rewrite Hpl; tauto).
    pose proof (pieceListRemove_perm _ _ Hin) as Hperm.
    assert (Hnd' : NoDup (x :: pieceListRemove (pieceList l) x)) by (by rewrite Hperm).
    apply NoDup_cons in Hnd' as [Hnot Hnd'].
    split; [done|]. intros y.
    assert (Hy : y ∈ pieceList l ↔ y = x ∨ y ∈ pieceListRemove (pieceList l) x).
    { rewrite <- elem_of_cons.
      split; intros H; [rewrite Hperm | rewrite Hperm in H]; done. }
    split.
    + intros Hyr. assert (y ∈ pieceList l) as Hyl by (apply Hy; by right).
      apply Hpl in Hyl as [Hsq Hocc]. split; [done|]. apply Hcase; [done|].
      right. split; [|done]. intros ->. done.
    + intros [Hsq Hocc]. apply Hcase in Hocc as [[_ ?]|[Hne Hocc]]; [done | | done].
      assert (y ∈ pieceList l) as Hyl by (by apply Hpl).
      apply Hy in Hyl as [?|?]; done.
  - split; [done|]. intros y. rewrite Hpl. split.
    + intros [Hy Hocc]. split; [done|]. apply Hcase; [done|].
      destruct (decide (y = x)) as [->|Hne]; [by left | by right].
    + intros [Hy Hocc]. split; [done|].
      apply Hcase in Hocc as [[-> _]|[_ ?]]; done.
Qed.

Lemma Layer_set_steady base l x v :
  isSquare x → isByte v → steady base l → steady base (Layer_set l x v).
Proof.
  intros Hx Hv [H1 H2 H3 H4 H5 H6].
  destruct (Layer_set_pieces l x v H1 Hx Hv H4 H5) as [Hnd Hpl].
  split; try done.
  - by rewrite Layer_set_board, put8_length.
  - by rewrite Layer_set_attacks_length.
  - by apply Layer_set_attacks_bytes.
  - by apply Layer_set_tracks.
Qed.

(** ** What the generator has read *)

Lemma get8_put8 a x v j :
  0 <= x → (Z.to_nat x < length a)%nat → 0 <= j →
  get8 (put8 a x v) j = if bool_decide (j = x) then u8 v else get8 a j.
Proof.
  intros Hx Hlen Hj. case_bool_decide as E.
  - subst j. by rewrite get8_put8_same, bool_decide_eq_true_2.
  - by apply get8_put8_ne.
Qed.

Lemma get8_byte a j : Forall isByte a → isByte (get8 a j).
Proof.
  intros H. unfold get8. destruct (a !! Z.to_nat j) as [v|] eqn:E; cbn.
  - by eapply Forall_lookup_1.
  - unfold isByte. lia.
Qed.

Lemma get8_eq a b :
  length a = length b → (∀ j, 0 <= j → get8 a j = get8 b j) → a = b.
Proof.
  intros Hlen H. apply list_eq. intros i.
  specialize (H (Z.of_nat i) ltac:(lia)). unfold get8 in H.
  rewrite Nat2Z.id in H.
  destruct (a !! i) as [v|] eqn:Ea, (b !! i) as [w|] eqn:Eb; cbn in H.
  - by subst.
  - apply lookup_lt_Some in Ea. apply lookup_ge_None in Eb. lia.
  - apply lookup_lt_Some in Eb. apply lookup_ge_None in Ea. lia.
  - done.
Qed.

Lemma byte_forall (P : Z → bool) :
  forallb P (seqZ 0 256) = true → ∀ v, isByte v → P v = true.
Proof.
  intros H v Hv. rewrite forallb_forall in H.
  apply H, list_elem_of_In, elem_of_seqZ. unfold isByte in Hv. lia.
Qed.

Lemma spaceMarkMoved_byte v : isByte v → isByte (spaceMarkMoved v).
Proof.
  intros Hv.
  pose proof (byte_forall (λ v, isByteb (spaceMarkMoved v)) eq_refl v Hv) as H.
  cbv beta in H. unfold isByteb in H.
  apply andb_true_iff in H as [H1 H2].
  apply Z.leb_le in H1. apply Z.ltb_lt in H2. done.
Qed.

Lemma pushed_fields m0 m :
  In m (pushed m0) →
  what m = what m0 ∧ from m = from m0 ∧ to m = to m0
  ∧ capture m = capture m0 ∧ captureCoord m = captureCoord m0
  ∧ castleRook m = castleRook m0 ∧ castleRookFrom m = castleRookFrom m0
  ∧ castleRookTo m = castleRookTo m0 ∧ prior m = prior m0
  ∧ ((promote m0 = 0 ∧ promote m = 0) ∨ (promote m0 ≠ 0 ∧ In (promote m) PROMOTIONS)).
Proof.
  unfold pushed. destruct (promote m0 =? 0) eqn:Hp; cbn [negb].
  - apply Z.eqb_eq in Hp. intros [<- | []]. split_and!; try done. by left.
  - apply Z.eqb_neq in Hp. intros Hin.
    apply in_map_iff in Hin as (t & <- & Ht). cbn. split_and!; try done. by right.
Qed.

Lemma Layer_set_meta l x v :
  ep (Layer_set l x v) = ep l ∧ clock (Layer_set l x v) = clock l
  ∧ moveNum (Layer_set l x v) = moveNum l ∧ castles (Layer_set l x v) = castles l
  ∧ turn (Layer_set l x v) = turn l ∧ status (Layer_set l x v) = status l.
Proof.
  unfold Layer_set, attackMapRemovePiece, attackMapAddPiece.
  repeat case_match; done.
Qed.

(** The two destinations of a castle differ. *)
Lemma castle_destinations idx (kingSide : bool) :
  isSquare idx →
  Z.lor (Z.land idx 0xf0) (if kingSide then 5 else 3)
  ≠ Z.lor (Z.land idx 0xf0) (if kingSide then 6 else 2).
Proof.
  intros Hidx.
  pose proof (forall_squares
    (λ idx, negb (Z.lor (Z.land idx 0xf0) 5 =? Z.lor (Z.land idx 0xf0) 6)
            && negb (Z.lor (Z.land idx 0xf0) 3 =? Z.lor (Z.land idx 0xf0) 2))
    eq_refl idx Hidx) as H.
  cbv beta in H. apply andb_true_iff in H as [H1 H2].
  apply negb_true_iff, Z.eqb_neq in H1, H2. by destruct kingSide.
Qed.

Lemma Generated_reads l color m :
  wellFormed l → Generated l color m →
  readFrom (board l) m ∧ prior m = priorOf l.
Proof.
  intros Hwf (idx & Hin & Hcol & Hsp & m0 & Hcand & Htrial & Hm).
  destruct Hwf as [Hlen _ _ _ _ Hpl Hep].
  assert (Hidx : isSquare idx) by (by apply Hpl).
  assert (Hgen : ∀ y, isSquare y → y ≠ idx →
            get8 (board (genLayer l idx)) y = get8 (board l) y).
  { intros y [Hy _] Hne. unfold genLayer. rewrite Layer_set_board.
    cbn [copyLayer board]. destruct Hidx as [Hi _].
    apply get8_put8_ne; [lia | lia | done]. }
  assert (Hgen0 : get8 (board (genLayer l idx)) idx = SPACE_EMPTY)
    by apply Layer_set_blank_read.
  destruct (pushed_fields _ _ Hm)
    as (Hw & Hf & Ht & Hc & Hcc & Hr & Hrf & Hrt & Hpr & Hpromo).
  unfold readFrom. rewrite Hw, Hf, Ht, Hc, Hcc, Hr, Hrf, Hrt, Hpr.
  assert (Hprom : promote m = 0 ∨ In (promote m) PROMOTIONS) by tauto.
  destruct Hcand as [dest promo mark Hd Hne He _
                    |dest promo Hd Hne He _
                    |dest taken promo Hd Hne Htk Htne Htd Hdep _
                    |kingSide file rank mc Hking Hfile Hok].
  - cbn. rewrite Hgen in He by done. split_and!; try done.
    left. split_and!; try done. by right.
  - cbn. rewrite Hgen in He |- * by done. split_and!; try done.
    right. left. done.
  - cbn. rewrite Hgen by done.
    assert (Hepl : ep (genLayer l idx) = ep l)
      by exact (proj1 (Layer_set_meta (copyLayer l newLayer) idx SPACE_EMPTY)).
    assert (Hdest : get8 (board l) dest = SPACE_EMPTY).
    { rewrite Hdep, Hepl. apply Hep. by rewrite <- Hepl, <- Hdep. }
    split_and!; try done.
    destruct (decide (get8 (board l) taken = 0)) as [E|E].
    + left. rewrite E. split_and!; try done. by right.
    + right. right. left. done.
  - subst mc. cbn in Hok |- *. cbn in Hpromo.
    pose proof (castle_file_range _ _ _ Hfile) as Hrange.
    fold file in Hrange.
    assert (Hto : isSquare (Z.lor rank (if kingSide then 6 else 2)))
      by (apply castle_files; [done | destruct kingSide; lia]).
    assert (Hrf' : isSquare (Z.lor rank file)) by (by apply castle_files).
    assert (Hrt' : isSquare (Z.lor rank (if kingSide then 5 else 3)))
      by (apply castle_files; [done | destruct kingSide; lia]).
    destruct Hok as [Hspan _]. cbn in Hspan.
    assert (Hempty : ∀ y, isSquare y →
              Z.min (Z.min (Z.lor rank file) (Z.lor rank (if kingSide then 5 else 3)))
                    (Z.min idx (Z.lor rank (if kingSide then 6 else 2))) <= y
              <= Z.max (Z.max (Z.lor rank file) (Z.lor rank (if kingSide then 5 else 3)))
                       (Z.max idx (Z.lor rank (if kingSide then 6 else 2))) →
              y = idx ∨ y = Z.lor rank file ∨ get8 (board l) y = SPACE_EMPTY).
    { intros y Hy Hr'.
      destruct (decide (y = idx)) as [|Hn1]; [by left|].
      destruct (decide (y = Z.lor rank file)) as [|Hn2]; [by right; left|].
      right. right. rewrite <- Hgen by done. apply Hspan; [|done|done].
      unfold castleSpan, createCastle, createFullMove.
      cbn [from to castleRookFrom castleRookTo].
      apply elem_of_range. unfold min4, max4. lia. }
    split_and!; try done.
    destruct (decide (get8 (board (genLayer l idx)) (Z.lor rank file) = 0)) as [E|E].
    + left. rewrite E. split_and!; try done.
      destruct (Hempty _ Hto ltac:(lia)) as [?|[Hx|?]]; [by left | | by right].
      destruct (decide (Z.lor rank file = idx)) as [Hi|Hi]; [left; congruence|].
      right. rewrite Hx, <- Hgen by done. done.
    + right. right. right.
      assert (Hrfi : Z.lor rank file ≠ idx) by (intros Hi; rewrite Hi in E; done).
      rewrite Hgen by done. rewrite Hgen in E by done.
      split_and!; try done.
      * destruct Hpromo as [[_ ->]|[? _]]; done.
      * by apply castle_destinations.
      * apply Hempty; [done | lia].
      * apply Hempty; [done | lia].
Qed.

(** ** The squares a move sets *)

Lemma readFrom_writes brd m :
  Forall isByte brd → readFrom brd m → writesBytes m.
Proof.
  intros Hb (Hf & Ht & Hw & Hprom & Hshape).
  assert (H0 : isByte 0) by (unfold isByte; lia).
  assert (Hwb : isByte (what m)) by (rewrite Hw; by apply get8_byte).
  assert (Hpb : promote m ≠ 0 →
            isByte (encodePieceSpace (promote m) (spaceGetColor (what m)) true)).
  { intros Hp. destruct Hprom as [?|Hin]; [done|].
    destruct (promoted_piece (spaceGetColor (what m)) (promote m)
                (spaceGetColor_cases _) (or_introl Hin)) as [Hr _].
    unfold isByte. lia. }
  unfold writesBytes.
  destruct Hshape as [(Hr & Hc & _)|[(Hr & Hc & Hcc & Hcv)
                     |[(Hr & Hc & Hcs & _ & _ & Hcv & _)
                     |(Hr & Hc & _ & Hrf & Hrt & Hrv & _)]]];
    split_and!; try done; rewrite ?Hr, ?Hc, ?Hcv, ?Hrv, ?Hcc;
    try done; try (by apply get8_byte).
Qed.

Lemma performSets_steady base m l :
  writesBytes m → steady base l → steady base (performSets m l).
Proof.
  intros (Hf & Ht & Hw & Hc & Hr & Hcs & Hrs & Hp) Hst.
  assert (H0 : isByte SPACE_EMPTY) by (unfold isByte, SPACE_EMPTY; lia).
  unfold performSets.
  destruct (Z.eqb_spec (capture m) 0) as [Ec|Ec],
           (Z.eqb_spec (castleRook m) 0) as [Er|Er],
           (Z.eqb_spec (promote m) 0) as [Ep|Ep];
    repeat (apply Layer_set_steady;
            [tauto || done
            |first [done | by apply Hp | by apply spaceMarkMoved_byte] |]);
    done.
Qed.

Lemma revertSets_steady base m l :
  writesBytes m → steady base l → steady base (revertSets m l).
Proof.
  intros (Hf & Ht & Hw & Hc & Hr & Hcs & Hrs & Hp) Hst.
  assert (H0 : isByte SPACE_EMPTY) by (unfold isByte, SPACE_EMPTY; lia).
  unfold revertSets.
  destruct (Z.eqb_spec (capture m) 0) as [Ec|Ec],
           (Z.eqb_spec (castleRook m) 0) as [Er|Er];
    repeat (apply Layer_set_steady; [tauto || done | done |]);
    done.
Qed.

Lemma revertSets_arrays m l l' :
  sameArrays l l' → sameArrays (revertSets m l) (revertSets m l').
Proof.
  intros H. unfold revertSets.
  repeat case_match; repeat (first [exact H | apply Layer_set_arrays]).
Qed.

Lemma forgetHash_arrays under l : sameArrays (forgetHash under l) l.
Proof. unfold forgetHash. by destruct (findSeen _ _). Qed.

(** Reading a square after the [set] calls of a move and of its reversal. *)
Ltac read_board Hlen :=
  rewrite ?Layer_set_board;
  repeat (rewrite get8_put8 by (rewrite ?put8_length, ?Hlen; lia));
  repeat case_bool_decide; simplify_eq; try done;
  rewrite ?u8_small by (assumption || (unfold isByte, SPACE_EMPTY; lia));
  try done; try congruence.

(** The board array after a move and its reversal. *)
Lemma roundtrip_board l m :
  length (board l) = 128%nat → Forall isByte (board l) →
  readFrom (board l) m → revertible m →
  board (revertSets m (performSets m l)) = board l.
Proof.
  intros Hlen Hb Hread [Hft Hcastle].
  destruct (readFrom_writes _ _ Hb Hread)
    as ([Hf _] & [Ht _] & Hwb & Hcb & Hrb & Hcs & Hrs & Hpb).
  destruct Hread as (_ & _ & Hw & _ & Hshape).
  apply get8_eq.
  { unfold revertSets, performSets.
    repeat case_match; by rewrite !Layer_set_board, !put8_length. }
  intros j Hj. unfold revertSets, performSets.
  destruct Hshape as [(Hr & Hc & He)|[(Hr & Hc & Hcc & Hcv)
                     |[(Hr & Hc & [Hcsq _] & Hcf & Hct & Hcv & He)
                     |(Hr & Hc & Hp & [Hrf _] & [Hrt _] & Hrv & Hrff & Hrtt & He & Her)]]].
  - rewrite Hr, Hc. cbn [Z.eqb].
    destruct He as [?|He]; [congruence|].
    destruct (promote m =? 0); read_board Hlen.
  - apply Z.eqb_neq in Hc as Hc'. rewrite Hr, Hc', Hcc. cbn [Z.eqb].
    destruct (promote m =? 0); read_board Hlen.
  - apply Z.eqb_neq in Hc as Hc'. rewrite Hr, Hc'. cbn [Z.eqb].
    destruct (promote m =? 0); read_board Hlen.
  - apply Z.eqb_neq in Hr as Hr'. rewrite Hr', Hc, Hp. cbn [Z.eqb].
    destruct (Hcastle Hr) as [Hfr Htr].
    assert (Hmb : isByte (spaceMarkMoved (castleRook m)))
      by (by apply spaceMarkMoved_byte).
    destruct He as [?|[?|He]]; [congruence | congruence |].
    destruct Her as [?|[Her|Her]]; [congruence | |]; read_board Hlen.
Qed.

(** ** A move applied and reverted *)

Lemma wellFormed_steady l :
  wellFormed l →
  steady (λ i, get8 (attacks l) i - attackCount (board l) i) l.
Proof.
  intros [H1 H2 H3 H4 H5 H6 H7]. split; try done.
  intros i Hi. exists 0. lia.
Qed.

(** Two layers that [set] has kept, with the same board: the attack maps
    are the same, and so are the piece lists up to their order. *)
Lemma steady_same base l l' :
  steady base l → steady base l' → board l' = board l →
  attacks l' = attacks l ∧ pieceList l' ≡ₚ pieceList l.
Proof.
  intros [H1 H2 H3 H4 H5 H6] [H1' H2' H3' H4' H5' H6'] Hb. split.
  - apply get8_eq; [congruence|]. intros j Hj.
    destruct (decide (j < 256)) as [Hlt|Hge].
    + apply cong256_bytes; try (by apply get8_byte).
      destruct (H6 j ltac:(lia)) as [k Hk], (H6' j ltac:(lia)) as [k' Hk'].
      rewrite Hb in Hk'. exists (k' - k). lia.
    + unfold get8. by rewrite !lookup_ge_None_2 by lia.
  - apply list.NoDup_Permutation; [done | done |].
    intros x. by rewrite H5, H5', Hb.
Qed.

Lemma roundtrip_arrays l m :
  wellFormed l → readFrom (board l) m → revertible m →
  board (revertSets m (performSets m l)) = board l
  ∧ attacks (revertSets m (performSets m l)) = attacks l
  ∧ pieceList (revertSets m (performSets m l)) ≡ₚ pieceList l.
Proof.
  intros Hwf Hread Hrev.
  pose proof (wellFormed_steady _ Hwf) as Hst.
  pose proof (readFrom_writes _ _ (wf_board_bytes _ Hwf) Hread) as Hwr.
  pose proof (roundtrip_board l m (wf_board _ Hwf) (wf_board_bytes _ Hwf)
                Hread Hrev) as Hb.
  split; [done|].
  eapply steady_same; [exact Hst | | exact Hb].
  by apply revertSets_steady, performSets_steady.
Qed.

Lemma performSets_turn m l : turn (performSets m l) = turn l.
Proof.
  unfold performSets.
  repeat case_match;
    repeat (etrans; [apply (Layer_set_meta _ _ _)|]); done.
Qed.

Lemma revertSets_turn m l : turn (revertSets m l) = turn l.
Proof.
  unfold revertSets.
  repeat case_match;
    repeat (etrans; [apply (Layer_set_meta _ _ _)|]); done.
Qed.

Lemma forgetHash_turn under l : turn (forgetHash under l) = turn l.
Proof. unfold forgetHash. by destruct (findSeen _ _). Qed.

(** The layer [revertMove] leaves after [performMove], array by array. *)
Lemma roundtrip_layer under under' m l :
  sameArrays (revertLayer under m (recordHash under' (performLayer m l)))
             (revertSets m (performSets m l)).
Proof.
  unfold revertLayer, performLayer.
  eapply sameArrays_trans; [apply sameArrays_refl|].
  change (sameArrays
            (revertSets m (forgetHash under
                             (recordHash under' (performMeta m (performSets m l)))))
            (revertSets m (performSets m l))).
  apply revertSets_arrays.
  eapply sameArrays_trans; [apply forgetHash_arrays|].
  eapply sameArrays_trans; [apply recordHash_arrays|].
  apply performMeta_arrays.
Qed.

Lemma listAllValidMoves_current color b r b' :
  Forall isSquare (pieceList (current b)) →
  listAllValidMoves color b = Ok (r, b') →
  ∃ cache, current b' = withMoveCache (current b) cache.
Proof.
  intros Hsq H.
  destruct (moveCache (current b) !! color) as [cached|] eqn:Hc.
  - destruct (listAllValidMoves_hit_fresh _ _ _ _ _ Hc H) as (_ & _ & ->).
    exists (moveCache (current b)). by destruct (current b).
  - destruct (listAllValidMoves_miss _ _ _ _ Hc Hsq H) as (out & _ & _ & _ & _ & ->).
    by eexists.
Qed.

Lemma wellFormed_squares l : wellFormed l → Forall isSquare (pieceList l).
Proof.
  intros Hwf. apply Forall_forall. intros x Hx.
  by apply (wf_pieces _ Hwf) in Hx as [? _].
Qed.

(** A move that was read off the layer, applied and reverted there. *)
Lemma roundtrip_position l m under under' :
  wellFormed l → readFrom (board l) m → prior m = priorOf l → revertible m →
  samePosition l (revertLayer under m (recordHash under' (performLayer m l))).
Proof.
  intros Hwf Hread Hprior Hrev.
  destruct (roundtrip_arrays l m Hwf Hread Hrev) as (Hb & Ha & Hp).
  destruct (roundtrip_layer under under' m l) as (Hb' & Ha' & Hp').
  unfold samePosition. rewrite Hb', Ha', Hp'. split_and!; try done.
  - unfold revertLayer, revertMeta. cbn. by rewrite Hprior.
  - unfold revertLayer, revertMeta. cbn. by rewrite Hprior.
  - unfold revertLayer, revertMeta. cbn. by rewrite Hprior.
  - unfold revertLayer, revertMeta. cbn. by rewrite Hprior.
  - unfold revertLayer, revertMeta.
    cbn [turn withMoveCache withMeta].
    rewrite revertSets_turn, forgetHash_turn. unfold recordHash, performLayer, performMeta.
    cbn [turn withSeen withMoveCache withMeta].
    rewrite performSets_turn. lia.
Qed.

(** X1: a move of the list [listAllValidMoves] returns, applied by
    [performMove] and then reverted by [revertMove], leaves the position it
    was applied to.  Both calls return; the board array, the attack map, the
    castle rights, the en-passant target, the half-move clock, the full-move
    number and the side to move are those of the position before, and the
    piece list holds the same squares, in an order that may differ.  The
    position is well formed, the cache slot is empty or holds moves generated
    for the position, and the squares of the move lie apart ([revertible]).
    [performMove] and the attack-map routines are the ones modelled from the
    spec. *)
Theorem perform_revert_restores (b : Board) (color : Z) r b' :
  wellFormed (current b) →
  cacheValid b color →
  listAllValidMoves color b = Ok (r, b') →
  ∀ m, m ∈ default [] (arrays b' !! r) → revertible m →
    ∃ b1 b2, performMove m b' = Ok (tt, b1)
             ∧ revertMove m b1 = Ok (tt, b2)
             ∧ samePosition (current b') (current b2).
Proof.
  intros Hwf Hvalid H m Hm Hrev.
  pose proof (wellFormed_squares _ Hwf) as Hsq.
  destruct (listAllValidMoves_generated _ _ _ _ Hsq Hvalid H) as (Hgen & _ & _).
  rewrite Forall_forall in Hgen. specialize (Hgen m Hm).
  destruct (listAllValidMoves_current _ _ _ _ Hsq H) as [cache Hcur].
  destruct (Generated_safe _ _ _ Hsq Hgen) as [Hok _].
  destruct (Generated_reads _ _ _ Hwf Hgen) as [Hread Hprior].
  assert (Hwf' : wellFormed (current b')).
  { rewrite Hcur. by destruct Hwf. }
  eexists _, _. rewrite performMove_eq, Hok. split; [reflexivity|].
  rewrite revertMove_eq, Hok. split; [reflexivity|].
  cbn [current withCurrent lower].
  apply roundtrip_position; [done | | | done]; by rewrite Hcur.
Qed.

Lemma wellFormed_check l : wellFormedb l = true → wellFormed l.
Proof.
  unfold wellFormedb. rewrite !andb_true_iff, !bool_decide_eq_true, !forallb_forall.
  intros (((((((H1 & H2) & H3) & H4) & H5) & H6) & H7) & H8).
  assert (Hbytes : ∀ a, (∀ x, In x a → isByteb x = true) → Forall isByte a).
  { intros a Ha. apply Forall_forall. intros x Hx.
    apply list_elem_of_In, Ha in Hx. unfold isByteb in Hx.
    apply andb_true_iff in Hx as [Hx1 Hx2].
    apply Z.leb_le in Hx1. apply Z.ltb_lt in Hx2. done. }
  split; try done; try (by apply Hbytes).
  - intros x. split.
    + intros Hx. apply list_elem_of_In, H6, andb_true_iff in Hx as [Hx1 Hx2].
      apply isSquareb_spec in Hx1. apply negb_true_iff, Z.eqb_neq in Hx2. done.
    + intros [[Hr Hon] Hocc]. specialize (H7 x).
      rewrite Hon in H7. apply Z.eqb_neq in Hocc. rewrite Hocc in H7.
      cbn in H7. apply (bool_decide_eq_true_1 (x ∈ pieceList l)), H7.
      apply list_elem_of_In, elem_of_seqZ. lia.
  - intros Hep. apply isSquareb_spec in Hep. rewrite Hep in H8.
    cbn in H8. by apply Z.eqb_eq.
Qed.

(** The order of the piece list is not kept: g1-f3 in the position of a new
    game is a legal move, both calls return, and the piece list they leave
    is not the list of before; the entry of the knight, removed by swap and
    pop and appended again, has changed its place. *)
Lemma roundtrip_reorders_piece_list :
  knightG1F3 ∈ legalMoves standardBoard
  ∧ ∃ b2, appliedAndReverted knightG1F3 standardBoard = Some b2
          ∧ pieceList (current b2) ≠ pieceList (current standardBoard).
Proof.
  split.
  - apply list_elem_of_In. vm_compute.
    repeat (first [left; reflexivity | right]).
  - eexists. split; [vm_compute; reflexivity|].
    vm_compute. discriminate.
Qed.

(** C1: [revertMove] after [performMove] does not always give back the
    position.  With the white king on f1 and the rook on h1, both unmoved
    (a position of Chess960, well formed), the castle that sends the king to
    g1 and the rook to f1 is a legal move; both calls return, and the king's
    origin f1, where the king stood, is empty in the position they leave:
    [revertMove] puts the king back on its origin and afterwards blanks the
    rook's destination, the same square.  No square holds a white king any
    more, and the board array is not the one of before. *)
Theorem castle_revert_loses_king :
  wellFormed (current kingF1Board)
  ∧ castleF1G1 ∈ legalMoves kingF1Board
  ∧ get8 (board (current kingF1Board)) (from castleF1G1) = what castleF1G1
  ∧ ∃ b2, appliedAndReverted castleF1G1 kingF1Board = Some b2
          ∧ get8 (board (current b2)) (from castleF1G1) = SPACE_EMPTY
          ∧ forallb (λ x, negb (isKingOf COLOR_WHITE
                                  (get8 (board (current b2)) x)))
                    (seqZ 0 128) = true
          ∧ board (current b2) ≠ board (current kingF1Board).
Proof.
  split; [|split; [|split]].
  - apply wellFormed_check. vm_compute. reflexivity.
  - apply list_elem_of_In. vm_compute.
    repeat (first [left; reflexivity | right]).
  - vm_compute. reflexivity.
  - eexists. split; [vm_compute; reflexivity|].
    split; [vm_compute; reflexivity|].
    split; [vm_compute; reflexivity|]. vm_compute. discriminate.
Qed.

(** The short castle with king e1 and rook h1, applied and reverted, leaves
    the position it was applied to. *)
Lemma perform_revert_restores_witness :
  ∃ b1 b2, performMove shortCastle (listed castleBoard COLOR_WHITE) = Ok (tt, b1)
           ∧ revertMove shortCastle b1 = Ok (tt, b2)
           ∧ samePosition (current (listed castleBoard COLOR_WHITE)) (current b2).
Proof.
  apply (perform_revert_restores castleBoard COLOR_WHITE 0%nat
           (listed castleBoard COLOR_WHITE)).
  - apply wellFormed_check. vm_compute. reflexivity.
  - apply cacheValid_empty. vm_compute. reflexivity.
  - vm_compute. reflexivity.
  - apply list_elem_of_In. vm_compute.
    repeat (first [left; reflexivity | right]).
  - split; [vm_compute; discriminate|]. intros _. split; vm_compute; discriminate.
Defined.

(** * Further properties of the code *)

(** ** models/board.ts *)

Lemma wellFormed_piecesListed l : wellFormed l → piecesListed l.
Proof. intros Hwf. split; [apply (wf_nodup _ Hwf) | apply (wf_pieces _ Hwf)]. Qed.

(** X2: [set] keeps the piece list in step with the board.  On a board
    array of 128 bytes whose piece list holds each occupied square once and
    nothing else, [set] of a byte on a square returns, and the piece list it
    leaves again holds each occupied square once and nothing else. *)
Theorem set_keeps_piece_list (b : Board) (idx sp : Z) :
  length (board (current b)) = 128%nat →
  isSquare idx → isByte sp →
  piecesListed (current b) →
  ∃ b', Board_set idx sp b = Ok (tt, b') ∧ piecesListed (current b').
Proof.
  intros Hlen Hidx Hsp [Hnd Hpl].
  rewrite Board_set_eq. destruct Hidx as [Hr Hon]. rewrite Hon.
  eexists. split; [reflexivity|]. cbn [current withCurrent].
  by apply Layer_set_pieces.
Qed.

Lemma set_keeps_piece_list_witness :
  ∃ b', Board_set 0x06 SPACE_EMPTY standardBoard = Ok (tt, b')
        ∧ piecesListed (current b').
Proof.
  apply (set_keeps_piece_list standardBoard 0x06 SPACE_EMPTY).
  - vm_compute. reflexivity.
  - split; [lia | vm_compute; reflexivity].
  - unfold isByte, SPACE_EMPTY. lia.
  - apply wellFormed_piecesListed, wellFormed_check. vm_compute. reflexivity.
Defined.

(** X3: [get] reads what [set] has written.  On a board array of 128
    entries, [set] on a square followed by [get] on a square returns: the
    byte written, which is the value modulo 256, when the two squares are
    the same, and what the square held before otherwise. *)
Theorem get_after_set (b : Board) (idx idx' sp : Z) :
  length (board (current b)) = 128%nat →
  isSquare idx → isSquare idx' →
  ∃ b', (Board_set idx sp;; Board_get idx') b
        = Ok (if bool_decide (idx' = idx) then sp mod 256
              else get8 (board (current b)) idx', b').
Proof.
  intros Hlen [Hr Hon] [Hr' Hon'].
  rewrite bind_set, Hon, Board_get_eq, Hon'. cbn [current withCurrent].
  eexists. rewrite Layer_set_board, get8_put8 by lia. reflexivity.
Qed.

Lemma get_after_set_witness :
  ∃ b', (Board_set 0x24 300;; Board_get 0x24) standardBoard
        = Ok (if bool_decide (0x24 = 0x24) then 300 mod 256
              else get8 (board (current standardBoard)) 0x24, b').
Proof.
  apply (get_after_set standardBoard 0x24 0x24 300).
  - vm_compute. reflexivity.
  - split; [lia | vm_compute; reflexivity].
  - split; [lia | vm_compute; reflexivity].
Defined.

Lemma placePieces_layers writes : ∀ b b',
  placePieces writes b = Ok (tt, b') →
  lower b' = lower b ∧ arrays b' = arrays b.
Proof.
  unfold placePieces.
  induction writes as [|[x v] ws IH]; intros b b'; cbn [foldM].
  - intros [= <-]. done.
  - rewrite bind_set. cbn [fst snd]. destruct (onBoard x); [|done].
    intros H. apply IH in H. done.
Qed.

Lemma placePieces_returns writes : ∀ b,
  Forall (λ p, onBoard p.1 = true) writes →
  ∃ b', placePieces writes b = Ok (tt, b').
Proof.
  unfold placePieces.
  induction writes as [|[x v] ws IH]; intros b Hon; cbn [foldM].
  - by eexists.
  - apply Forall_cons in Hon as [Hx Hon]. cbn [fst] in Hx.
    rewrite bind_set. cbn [fst snd]. rewrite Hx. by apply IH.
Qed.

(** X4: [restore] undoes [save] and the [set] calls made since.  After
    [save], any [set] calls on coordinates that pass the on-board test and
    [restore], the board object is the one of before: the current layer,
    the layers under it and the stored move lists.  At layer 0 [restore]
    alone changes nothing. *)
Theorem save_sets_restore (b : Board) (writes : list (Z * Z)) :
  Forall (λ p, onBoard p.1 = true) writes →
  (Board_save;; placePieces writes;; Board_restore) b = Ok (tt, b)
  ∧ (lower b = [] → Board_restore b = Ok (tt, b)).
Proof.
  intros Hon. split.
  - unfold mbind at 1, M_bind at 1, Board_save.
    destruct (placePieces_returns writes
                (mkBoard (arrays b) (current b :: lower b)
                   (copyLayer (current b) newLayer)) Hon) as [b1 H1].
    unfold mbind, M_bind. rewrite H1.
    apply placePieces_layers in H1 as [Hl Ha]. cbn [lower arrays] in Hl, Ha.
    unfold Board_restore. rewrite Hl, Ha. by destruct b.
  - intros Hl. unfold Board_restore. by rewrite Hl.
Qed.

Lemma save_sets_restore_witness :
  (Board_save;; placePieces [(0x04, 0); (0x34, 22)];; Board_restore) standardBoard
  = Ok (tt, standardBoard)
  ∧ (lower standardBoard = [] → Board_restore standardBoard = Ok (tt, standardBoard)).
Proof.
  apply (save_sets_restore standardBoard [(0x04, 0); (0x34, 22)]).
  repeat constructor.
Defined.

Lemma seenCount_insert_ne h hash n b :
  h ≠ hash →
  seenCount h (withCurrent b (withSeen (current b) (<[hash := n]> (seen (current b)))))
  = seenCount h b.
Proof.
  intros Hne. unfold seenCount, seenAt.
  cbn [findSeen current lower withCurrent withSeen seen].
  rewrite lookup_insert_ne by done.
  destruct (seen (current b) !! h) eqn:E; [|done].
  cbn. by rewrite lookup_insert_ne by done.
Qed.

Lemma holdsSpace_app a b : holdsSpace (a +:+ b) = holdsSpace a || holdsSpace b.
Proof.
  induction a as [|c a IH]; [done|].
  simpl. by rewrite IH, orb_assoc.
Qed.

(** The hash of every position holds a space. *)
Lemma hashBoard_holdsSpace l : holdsSpace (hashBoard l) = true.
Proof.
  unfold hashBoard. rewrite holdsSpace_app.
  apply orb_true_iff. right. reflexivity.
Qed.

(** X5: [putBoardHash] counts one more.  For a hash that holds a space,
    as the hash of every position does (and no key a plain object inherits
    does), it returns one more than the count the walk down the layers reads
    for the hash (the count of the nearest layer that has it, 0 when none
    has), the walk reads the returned count afterwards, the counts of the
    other hashes are as before and no layer under the current one is
    written. *)
Theorem putBoardHash_counts (hash : string) (b : Board) :
  holdsSpace hash = true →
  ∃ n b', Board_putBoardHash hash b = Ok (n, b')
          ∧ n = jsnum_add1 (seenCount hash b)
          ∧ seenCount hash b' = n
          ∧ (∀ h, h ≠ hash → seenCount h b' = seenCount h b)
          ∧ lower b' = lower b.
Proof.
  intros _.
  eexists _, _. split; [apply putBoardHash_spec|]. split; [done|]. split.
  - apply seenCount_current. cbn. by rewrite lookup_insert_eq.
  - split; [|done]. intros h Hne. by apply seenCount_insert_ne.
Qed.

(** The hash of the position of a new game, counted a second time. *)
Lemma putBoardHash_counts_witness :
  ∃ n b', Board_putBoardHash (hashBoard (current standardBoard)) standardBoard
          = Ok (n, b')
          ∧ n = jsnum_add1 (seenCount (hashBoard (current standardBoard))
                                      standardBoard)
          ∧ seenCount (hashBoard (current standardBoard)) b' = n
          ∧ (∀ h, h ≠ hashBoard (current standardBoard) →
                  seenCount h b' = seenCount h standardBoard)
          ∧ lower b' = lower standardBoard.
Proof.
  apply (putBoardHash_counts (hashBoard (current standardBoard)) standardBoard).
  vm_compute. reflexivity.
Defined.

(** ** logic/revert-move.ts *)

(** X6: [revertMove] loses the king of a castle that brings the rook to the
    king's origin.  For a castle ([castleRook] set) whose [castleRookTo] is
    its [from] and whose [castleRookFrom] is another square, on a board
    array of 128 entries, [revertMove] returns and leaves [from] empty: it
    puts the king back on [from] and afterwards blanks the rook's
    destination, the same square. *)
Theorem revertMove_castle_blanks_origin (m : Move) (b b' : Board) :
  length (board (current b)) = 128%nat →
  isSquare (from m) → isSquare (castleRookFrom m) →
  castleRook m ≠ 0 →
  castleRookTo m = from m → castleRookFrom m ≠ from m →
  revertMove m b = Ok (tt, b') →
  get8 (board (current b')) (from m) = SPACE_EMPTY.
Proof.
  intros Hlen [Hf _] [Hrf _] Hrook Hto Hne H.
  rewrite revertMove_eq in H. destruct (moveCoordsOk m); [|done].
  injection H as <-. cbn [current withCurrent].
  unfold revertLayer, revertMeta. cbn [board withMoveCache withMeta].
  unfold revertSets. apply Z.eqb_neq in Hrook. rewrite Hrook, Hto.
  rewrite !Layer_set_board.
  rewrite get8_put8_ne by lia.
  rewrite get8_put8_same, bool_decide_eq_true_2; [done|].
  destruct (capture m =? 0);
    rewrite ?Layer_set_board, ?put8_length;
    unfold forgetHash; destruct (findSeen _ _); cbn [board withSeen]; lia.
Qed.

(** The castle f1-g1, h1-f1, applied and reverted: f1, where the king
    stood, is empty. *)
Lemma revertMove_castle_blanks_origin_witness :
  get8 (board (current (revertedBoard castleF1G1 kingF1Board))) (from castleF1G1)
  = SPACE_EMPTY.
Proof.
  apply (revertMove_castle_blanks_origin castleF1G1
           (movedBoard castleF1G1 kingF1Board)
           (revertedBoard castleF1G1 kingF1Board)).
  - vm_compute. reflexivity.
  - split; [cbn; lia | vm_compute; reflexivity].
  - split; [cbn; lia | vm_compute; reflexivity].
  - vm_compute. discriminate.
  - vm_compute. reflexivity.
  - vm_compute. discriminate.
  - vm_compute. reflexivity.
Defined.

(** ** models/castle-map.ts *)

Lemma nibble_forall (P : Z → bool) :
  forallb P (seqZ 0 16) = true → ∀ x, 0 <= x < 16 → P x = true.
Proof.
  intros H x Hx. rewrite forallb_forall in H.
  apply H, list_elem_of_In, elem_of_seqZ. lia.
Qed.

Lemma land_nibble x : 0 <= Z.land x 0xf < 16.
Proof.
  split; [apply Z.land_nonneg; by right|].
  change 0xf with (Z.ones 4). rewrite Z.land_ones by lia.
  apply Z.mod_pos_bound. lia.
Qed.

(** X7: a castle map gives back the rook files it was built from.  For
    each colour and side, [castleMapGetFile] on the map [buildCastleMap]
    builds is the low nibble of the coordinate given for that rook. *)
Theorem castleMap_build_get (whiteQRook whiteKRook blackQRook blackKRook : Z) :
  castleMapGetFile (buildCastleMap whiteQRook whiteKRook blackQRook blackKRook)
    COLOR_WHITE true = Z.land whiteKRook 0xf
  ∧ castleMapGetFile (buildCastleMap whiteQRook whiteKRook blackQRook blackKRook)
      COLOR_WHITE false = Z.land whiteQRook 0xf
  ∧ castleMapGetFile (buildCastleMap whiteQRook whiteKRook blackQRook blackKRook)
      COLOR_BLACK true = Z.land blackKRook 0xf
  ∧ castleMapGetFile (buildCastleMap whiteQRook whiteKRook blackQRook blackKRook)
      COLOR_BLACK false = Z.land blackQRook 0xf.
Proof.
  unfold buildCastleMap.
  pose proof (land_nibble whiteQRook) as Ha. pose proof (land_nibble whiteKRook) as Hb.
  pose proof (land_nibble blackQRook) as Hc. pose proof (land_nibble blackKRook) as Hd.
  set (a := Z.land whiteQRook 0xf) in *. set (k := Z.land whiteKRook 0xf) in *.
  set (c := Z.land blackQRook 0xf) in *. set (d := Z.land blackKRook 0xf) in *.
  clearbody a k c d.
  assert (Hall : forallb
    (λ a, forallb (λ k, forallb (λ c, forallb (λ d,
       let map := Z.lor (Z.lor (Z.lor k (Z.shiftl a 4)) (Z.shiftl d 8))
                        (Z.shiftl c 12) in
       (castleMapGetFile map COLOR_WHITE true =? k)
       && (castleMapGetFile map COLOR_WHITE false =? a)
       && (castleMapGetFile map COLOR_BLACK true =? d)
       && (castleMapGetFile map COLOR_BLACK false =? c))
       (seqZ 0 16)) (seqZ 0 16)) (seqZ 0 16)) (seqZ 0 16) = true)
    by (vm_compute; reflexivity).
  pose proof (nibble_forall _ Hall a Ha) as H. clear Hall.
  cbv beta in H. rewrite forallb_forall in H.
  specialize (H k ltac:(apply list_elem_of_In, elem_of_seqZ; lia)).
  rewrite forallb_forall in H.
  specialize (H c ltac:(apply list_elem_of_In, elem_of_seqZ; lia)).
  rewrite forallb_forall in H.
  specialize (H d ltac:(apply list_elem_of_In, elem_of_seqZ; lia)).
  cbv zeta in H. rewrite !andb_true_iff, !Z.eqb_eq in H. tauto.
Qed.

(** A property of the maps of four nibbles, checked nibble by nibble. *)
Lemma map16_forall (P : Z → bool) :
  forallb (λ d, forallb (λ c, forallb (λ b, forallb (λ a,
     P (a + 16 * b + 256 * c + 4096 * d))
     (seqZ 0 16)) (seqZ 0 16)) (seqZ 0 16)) (seqZ 0 16) = true →
  ∀ x, 0 <= x < 65536 → P x = true.
Proof.
  intros H x Hx.
  pose proof (Z.div_mod x 16 ltac:(lia)) as E1.
  pose proof (Z.mod_pos_bound x 16 ltac:(lia)) as B1.
  pose proof (Z.div_mod (x / 16) 16 ltac:(lia)) as E2.
  pose proof (Z.mod_pos_bound (x / 16) 16 ltac:(lia)) as B2.
  pose proof (Z.div_mod (x / 16 / 16) 16 ltac:(lia)) as E3.
  pose proof (Z.mod_pos_bound (x / 16 / 16) 16 ltac:(lia)) as B3.
  set (a := x mod 16) in *. set (b := (x / 16) mod 16) in *.
  set (c := (x / 16 / 16) mod 16) in *. set (d := x / 16 / 16 / 16) in *.
  assert (Bd : 0 <= d < 16) by lia.
  replace x with (a + 16 * b + 256 * c + 4096 * d) by lia.
  pose proof (nibble_forall _ H d Bd) as H1. cbv beta in H1.
  pose proof (nibble_forall _ H1 c B3) as H2. cbv beta in H2.
  pose proof (nibble_forall _ H2 b B2) as H3. cbv beta in H3.
  exact (nibble_forall _ H3 a B1).
Qed.

(** X8: a king move ends both castle rights of its colour and no other.
    On a map of four nibbles, after [castleMapKingMoved] both files of the
    colour read 8, which fails the test for a right, and both files of the
    other colour read as before. *)
Theorem castleMapKingMoved_clears (map color : Z) (kingSide : bool) :
  0 <= map < 65536 → color = COLOR_WHITE ∨ color = COLOR_BLACK →
  castleMapGetFile (castleMapKingMoved map color) color kingSide = 8
  ∧ castleMapGetFile (castleMapKingMoved map color) (8 - color) kingSide
    = castleMapGetFile map (8 - color) kingSide.
Proof.
  intros Hmap Hc.
  pose proof (map16_forall
    (λ map, forallb (λ color, forallb (λ side,
       (castleMapGetFile (castleMapKingMoved map color) color side =? 8)
       && (castleMapGetFile (castleMapKingMoved map color) (8 - color) side
           =? castleMapGetFile map (8 - color) side))
       [true; false]) [COLOR_WHITE; COLOR_BLACK])
    ltac:(vm_compute; reflexivity) map Hmap) as H.
  cbv beta in H. cbn [forallb] in H.
  rewrite !andb_true_iff, !Z.eqb_eq in H.
  destruct Hc as [-> | ->], kingSide; tauto.
Qed.

Lemma castleMapKingMoved_clears_witness :
  castleMapGetFile (castleMapKingMoved 0x0707 COLOR_WHITE) COLOR_WHITE true = 8
  ∧ castleMapGetFile (castleMapKingMoved 0x0707 COLOR_WHITE) (8 - COLOR_WHITE) true
    = castleMapGetFile 0x0707 (8 - COLOR_WHITE) true.
Proof.
  apply (castleMapKingMoved_clears 0x0707 COLOR_WHITE true).
  - lia.
  - left. reflexivity.
Defined.

(** The bits of a nibble of the map, and of the map with a nibble set to 8. *)
Lemma nibble_bits map off i :
  0 <= off → 0 <= i →
  Z.testbit (Z.land (Z.shiftr map off) 0xf) i = Z.testbit map (i + off) && (i <? 4).
Proof.
  intros Ho Hi. rewrite Z.land_spec, Z.shiftr_spec by done.
  change 0xf with (Z.ones 4). by rewrite Z.testbit_ones_nonneg by lia.
Qed.

Lemma cleared_bits map k j :
  0 <= k → 0 <= j →
  Z.testbit (Z.lor (Z.land map (Z.lnot (Z.shiftl 0xf k))) (Z.shiftl 0x8 k)) j
  = if (k <=? j) && (j <? k + 4) then j =? k + 3 else Z.testbit map j.
Proof.
  intros Hk Hj.
  rewrite Z.lor_spec, Z.land_spec, Z.lnot_spec, !Z.shiftl_spec by done.
  change 0xf with (Z.ones 4). change 0x8 with (2 ^ 3).
  rewrite Z.testbit_ones, Z.pow2_bits_eqb by lia.
  destruct (Z.leb_spec k j), (Z.ltb_spec j (k + 4)), (Z.leb_spec 0 (j - k)),
    (Z.ltb_spec (j - k) 4), (Z.eqb_spec 3 (j - k)), (Z.eqb_spec j (k + 3));
    cbn; try lia; by rewrite ?andb_true_r, ?andb_false_r, ?orb_false_r.
Qed.

Lemma nibble_cleared_same map k :
  0 <= k →
  Z.land (Z.shiftr (Z.lor (Z.land map (Z.lnot (Z.shiftl 0xf k))) (Z.shiftl 0x8 k)) k)
         0xf = 8.
Proof.
  intros Hk. apply Z.bits_inj'. intros i Hi.
  rewrite nibble_bits, cleared_bits by lia.
  change 8 with (2 ^ 3). rewrite Z.pow2_bits_eqb by lia.
  destruct (Z.leb_spec k (i + k)), (Z.ltb_spec (i + k) (k + 4)), (Z.ltb_spec i 4),
    (Z.eqb_spec (i + k) (k + 3)), (Z.eqb_spec 3 i); cbn; try lia; done.
Qed.

Lemma nibble_cleared_apart map k off :
  0 <= k → 0 <= off → off + 4 <= k ∨ k + 4 <= off →
  Z.land (Z.shiftr (Z.lor (Z.land map (Z.lnot (Z.shiftl 0xf k))) (Z.shiftl 0x8 k)) off)
         0xf
  = Z.land (Z.shiftr map off) 0xf.
Proof.
  intros Hk Ho Hapart. apply Z.bits_inj'. intros i Hi.
  rewrite !nibble_bits, cleared_bits by lia.
  destruct (Z.leb_spec k (i + off)), (Z.ltb_spec (i + off) (k + 4)), (Z.ltb_spec i 4);
    cbn; try lia; by rewrite ?andb_false_r.
Qed.

(** X9: a rook move ends the castle right of its file on its half of the
    board, and nothing else.  [castleMapRookMoved] reads the colour off the
    coordinate (white below 0x40) and compares the file of the coordinate
    with the king-side file of that colour, then with the queen-side file:
    the first that is equal reads 8 afterwards, which fails the test for a
    right, and every other file reads as before; when neither is equal the
    map is returned as it is. *)
Theorem castleMapRookMoved_clears (map coord : Z) :
  let color := if coord <? 0x40 then COLOR_WHITE else COLOR_BLACK in
  let file := Z.land coord 0x0f in
  let map' := castleMapRookMoved map coord in
  (∀ side, castleMapGetFile map' (8 - color) side
           = castleMapGetFile map (8 - color) side)
  ∧ (castleMapGetFile map color true = file →
       castleMapGetFile map' color true = 8
       ∧ castleMapGetFile map' color false = castleMapGetFile map color false)
  ∧ (castleMapGetFile map color true ≠ file →
     castleMapGetFile map color false = file →
       castleMapGetFile map' color false = 8
       ∧ castleMapGetFile map' color true = castleMapGetFile map color true)
  ∧ (castleMapGetFile map color true ≠ file →
     castleMapGetFile map color false ≠ file →
       map' = map).
Proof.
  cbv zeta.
  unfold castleMapRookMoved, castleMapGetFile.
  destruct (coord <? 64); unfold COLOR_WHITE, COLOR_BLACK;
    change (8 - 0 + 0) with 8; change (8 - 0 + 4) with 12;
    change (0 + 0) with 0; change (0 + 4) with 4;
    change (8 - 8 + 0) with 0; change (8 - 8 + 4) with 4;
    change (8 + 0) with 8; change (8 + 4) with 12;
    repeat match goal with
           | |- context [Z.eqb ?a ?b] =>
               lazymatch a with
               | Z.land _ _ => destruct (Z.eqb_spec a b)
               end
           end;
    (split; [intros []|]); repeat split; intros;
    first [ done | congruence
          | apply nibble_cleared_same; lia
          | apply nibble_cleared_apart; lia ].
Qed.

(** ** models/coord.ts *)

(** X10: coordinates and their file and rank.  [buildCoord] on the file and
    rank [parseCoord] gives for a square is the square; [buildCoord] always
    builds a square, and [parseCoord] gives back the file and the rank it
    was built from, each taken modulo 8. *)
Theorem coord_build_parse :
  (∀ idx, isSquare idx →
     buildCoord (parseCoord idx).1 (parseCoord idx).2 = idx)
  ∧ (∀ file rank,
       isSquare (buildCoord file rank)
       ∧ parseCoord (buildCoord file rank) = (Z.land file 0x7, Z.land rank 0x7)).
Proof.
  split.
  - intros idx Hidx.
    pose proof (forall_squares
      (λ idx, buildCoord (parseCoord idx).1 (parseCoord idx).2 =? idx)
      ltac:(vm_compute; reflexivity) idx Hidx) as H.
    cbv beta in H. by apply Z.eqb_eq in H.
  - intros file rank. unfold buildCoord.
    assert (Hb : ∀ x, 0 <= Z.land x 0x7 < 8).
    { intros x. split; [apply Z.land_nonneg; by right|].
      change 0x7 with (Z.ones 3). rewrite Z.land_ones by lia.
      apply Z.mod_pos_bound. lia. }
    pose proof (Hb file) as Hf. pose proof (Hb rank) as Hr.
    set (f := Z.land file 0x7) in *. set (r := Z.land rank 0x7) in *.
    clearbody f r.
    assert (Hall : forallb (λ f, forallb (λ r,
              isSquareb (Z.lor (Z.shiftl r 4) f)
              && ((parseCoord (Z.lor (Z.shiftl r 4) f)).1 =? f)
              && ((parseCoord (Z.lor (Z.shiftl r 4) f)).2 =? r))
              (seqZ 0 8)) (seqZ 0 8) = true) by (vm_compute; reflexivity).
    rewrite forallb_forall in Hall.
    specialize (Hall f ltac:(apply list_elem_of_In, elem_of_seqZ; lia)).
    rewrite forallb_forall in Hall.
    specialize (Hall r ltac:(apply list_elem_of_In, elem_of_seqZ; lia)).
    rewrite !andb_true_iff, !Z.eqb_eq, isSquareb_spec in Hall.
    destruct Hall as [[H1 H2] H3]. split; [done|].
    destruct (parseCoord _) as [a b]. cbn in H2, H3. by subst.
Qed.

Lemma AN_RE_test_inv an :
  AN_RE_test an = true →
  ∃ f r, an = String (Ascii.ascii_of_nat f) (String (Ascii.ascii_of_nat r) EmptyString)
         ∧ f ∈ [97; 98; 99; 100; 101; 102; 103; 104; 65; 66; 67; 68; 69; 70; 71; 72]%nat
         ∧ r ∈ [49; 50; 51; 52; 53; 54; 55; 56]%nat.
Proof.
  destruct an as [|f [|r [|]]]; try done. cbn.
  intros H. exists (Ascii.nat_of_ascii f), (Ascii.nat_of_ascii r).
  rewrite !Ascii.ascii_nat_embedding. split; [done|].
  rewrite !andb_true_iff, orb_true_iff, !andb_true_iff, !Z.leb_le in H.
  set (n := Ascii.nat_of_ascii f) in *. set (k := Ascii.nat_of_ascii r) in *.
  clearbody n k. split.
  - assert (n = 97 ∨ n = 98 ∨ n = 99 ∨ n = 100 ∨ n = 101 ∨ n = 102 ∨ n = 103
            ∨ n = 104 ∨ n = 65 ∨ n = 66 ∨ n = 67 ∨ n = 68 ∨ n = 69 ∨ n = 70
            ∨ n = 71 ∨ n = 72)%nat as Hn by lia.
    rewrite !elem_of_cons. tauto.
  - assert (k = 49 ∨ k = 50 ∨ k = 51 ∨ k = 52 ∨ k = 53 ∨ k = 54 ∨ k = 55
            ∨ k = 56)%nat as Hk by lia.
    rewrite !elem_of_cons. tauto.
Qed.

(** X11: squares and their names.  [coordFromAN] on the name [coordToAN]
    gives a square returns the square.  When [coordFromAN] returns on a
    string, the string has two characters, the result is a square, and
    [coordToAN] names it by the string in lower case; on every other string
    [coordFromAN] throws "Invalid coord". *)
Theorem coord_names :
  (∀ idx, isSquare idx → coordFromAN (coordToAN idx) = Ok idx)
  ∧ (∀ an idx, coordFromAN an = Ok idx →
       String.length an = 2%nat ∧ isSquare idx
       ∧ coordToAN idx = toLowerCase an)
  ∧ (∀ an, (∀ idx, coordFromAN an ≠ Ok idx) →
       coordFromAN an = Throw (ChessErrorMsg "Invalid coord")).
Proof.
  split; [|split].
  - intros idx Hidx.
    pose proof (forall_squares
      (λ idx, match coordFromAN (coordToAN idx) with
              | Ok v => v =? idx
              | Throw _ => false
              end) ltac:(vm_compute; reflexivity) idx Hidx) as H.
    cbv beta in H. destruct (coordFromAN _); [|done].
    by apply Z.eqb_eq in H as ->.
  - intros an idx H. unfold coordFromAN in H.
    destruct (AN_RE_test an) eqn:Ht; [|done].
    destruct (AN_RE_test_inv _ Ht) as (f & r & -> & Hf & Hr).
    injection H as <-.
    assert (Hall : forallb (λ f, forallb (λ r,
              let an := String (Ascii.ascii_of_nat f)
                          (String (Ascii.ascii_of_nat r) EmptyString) in
              let idx := buildCoord (charCodeAt (toLowerCase an) 0 - 97)
                                    (charCodeAt (toLowerCase an) 1 - 49) in
              isSquareb idx && String.eqb (coordToAN idx) (toLowerCase an))
              [49; 50; 51; 52; 53; 54; 55; 56]%nat)
              [97; 98; 99; 100; 101; 102; 103; 104; 65; 66; 67; 68; 69; 70; 71; 72]%nat
            = true) by (vm_compute; reflexivity).
    rewrite forallb_forall in Hall.
    specialize (Hall f ltac:(by apply list_elem_of_In)).
    rewrite forallb_forall in Hall.
    specialize (Hall r ltac:(by apply list_elem_of_In)).
    cbv zeta in Hall. apply andb_true_iff in Hall as [H1 H2].
    apply isSquareb_spec in H1. apply String.eqb_eq in H2. done.
  - intros an H. unfold coordFromAN in *.
    destruct (AN_RE_test an); [|done]. by destruct (H _ eq_refl).
Qed.

(** ** logic/list-valid-moves.ts *)

Lemma listAllValidMoves_hit color b cached :
  moveCache (current b) !! color = Some cached →
  listAllValidMoves color b
  = Ok (length (arrays b),
        mkBoard (arrays b ++ [default [] (arrays b !! cached)]) (lower b) (current b)).
Proof.
  intros Hc. unfold listAllValidMoves.
  unfold mbind at 1, M_bind at 1. cbn [getCurrent]. by rewrite Hc.
Qed.

(** X12: the second call copies.  When [listAllValidMoves] has returned for
    a colour, a second call for that colour returns as well, with the same
    moves in an array that is not the one the first call returned, and it
    leaves the layers of the board as they are. *)
Theorem listAllValidMoves_again (color : Z) (b : Board) r b' :
  listAllValidMoves color b = Ok (r, b') →
  ∃ r' b'', listAllValidMoves color b' = Ok (r', b'')
            ∧ default [] (arrays b'' !! r') = default [] (arrays b' !! r)
            ∧ r' ≠ r
            ∧ current b'' = current b' ∧ lower b'' = lower b'.
Proof.
  intros H.
  assert (Hc : ∃ c, moveCache (current b') !! color = Some c
                    ∧ default [] (arrays b' !! c) = default [] (arrays b' !! r)
                    ∧ (r < length (arrays b'))%nat).
  { destruct (moveCache (current b) !! color) as [cached|] eqn:Hc.
    - rewrite (listAllValidMoves_hit _ _ _ Hc) in H. injection H as <- <-.
      exists cached. cbn [current arrays]. split; [done|].
      rewrite length_app. cbn [length]. split; [|lia].
      rewrite (list_lookup_middle (arrays b) [] _ (length (arrays b)) eq_refl).
      cbn [default].
      destruct (decide (cached < length (arrays b))%nat) as [Hlt|Hge].
      + by rewrite lookup_app_l.
      + rewrite (lookup_ge_None_2 (arrays b)) by lia. cbn.
        destruct (decide (cached = length (arrays b))) as [->|Hne].
        * by rewrite (list_lookup_middle (arrays b) [] _ (length (arrays b)) eq_refl).
        * rewrite lookup_ge_None_2; [done|]. rewrite length_app. cbn. lia.
    - unfold listAllValidMoves in H.
      unfold mbind at 1, M_bind at 1 in H. cbn [getCurrent] in H. rewrite Hc in H.
      apply bind_inv in H as (out & b1 & _ & H).
      unfold mbind, M_bind, allocArray, modifyCurrent in H. cbn in H.
      injection H as <- <-. exists (length (arrays b1)).
      cbn [current arrays withCurrent withMoveCache moveCache].
      rewrite lookup_insert_eq, length_app. cbn. split; [done|]. split; [done | lia]. }
  destruct Hc as (c & Hc & Hsame & Hlt).
  rewrite (listAllValidMoves_hit _ _ _ Hc). eexists _, _. split; [reflexivity|].
  cbn [arrays current lower].
  rewrite (list_lookup_middle (arrays b') [] _ (length (arrays b')) eq_refl).
  split; [done|]. split; [lia | done].
Qed.

Lemma listAllValidMoves_again_witness :
  ∃ r' b'', listAllValidMoves COLOR_WHITE (listed standardBoard COLOR_WHITE)
            = Ok (r', b'')
            ∧ default [] (arrays b'' !! r')
              = default [] (arrays (listed standardBoard COLOR_WHITE) !! 0%nat)
            ∧ r' ≠ 0%nat
            ∧ current b'' = current (listed standardBoard COLOR_WHITE)
            ∧ lower b'' = lower (listed standardBoard COLOR_WHITE).
Proof.
  apply (listAllValidMoves_again COLOR_WHITE standardBoard 0%nat
           (listed standardBoard COLOR_WHITE)).
  vm_compute. reflexivity.
Defined.

(** X13: a generated move records the board it was generated on.  For a
    well-formed position, every move of the list [listAllValidMoves] returns
    for a colour leaves a square that holds a piece of that colour and
    records that piece as [what]; its destination is a square; a capture
    records the piece on [captureCoord] and a castle the piece on
    [castleRookFrom]; [promote] is 0 or one of the four promotion pieces;
    and [prior] holds clock, move number, en-passant target, status and
    castle rights of the position. *)
Theorem generated_move_reads_board (b : Board) (color : Z) r b' :
  wellFormed (current b) →
  cacheValid b color →
  listAllValidMoves color b = Ok (r, b') →
  ∀ m, m ∈ default [] (arrays b' !! r) →
    isSquare (from m) ∧ isSquare (to m)
    ∧ what m = get8 (board (current b)) (from m)
    ∧ what m ≠ SPACE_EMPTY
    ∧ spaceGetColor (what m) = color
    ∧ (capture m ≠ 0 → capture m = get8 (board (current b)) (captureCoord m))
    ∧ (castleRook m ≠ 0 →
         castleRook m = get8 (board (current b)) (castleRookFrom m))
    ∧ (promote m = 0 ∨ In (promote m) PROMOTIONS)
    ∧ prior m = priorOf (current b).
Proof.
  intros Hwf Hvalid H m Hm.
  pose proof (wellFormed_squares _ Hwf) as Hsq.
  destruct (listAllValidMoves_generated _ _ _ _ Hsq Hvalid H) as (Hgen & _ & _).
  rewrite Forall_forall in Hgen. specialize (Hgen m Hm).
  destruct (Generated_reads _ _ _ Hwf Hgen)
    as [(Hf & Ht & Hw & Hprom & Hshape) Hprior].
  destruct Hgen as (idx & Hin & Hcol & Hsp & m0 & Hcand & _ & Hpush).
  destruct (Candidate_origin _ _ _ _ _ Hcand) as (Hw0 & Hf0 & _).
  destruct (pushed_fields _ _ Hpush) as (Hw1 & Hf1 & _).
  assert (Hfrom : from m = idx) by congruence.
  split_and!; try done.
  - rewrite Hw, Hfrom. done.
  - rewrite Hw, Hfrom. done.
  - intros Hc.
    destruct Hshape as [(_ & ? & _)|[(_ & _ & Hcc & Hcv)|[(_ & _ & _ & _ & _ & Hcv & _)
                       |(_ & ? & _)]]]; try done.
    by rewrite Hcc.
  - intros Hr.
    destruct Hshape as [(? & _)|[(? & _)|[(? & _)
                       |(_ & _ & _ & _ & _ & Hrv & _)]]]; done.
Qed.

Lemma generated_move_reads_board_witness :
  isSquare (from knightG1F3) ∧ isSquare (to knightG1F3)
  ∧ what knightG1F3 = get8 (board (current standardBoard)) (from knightG1F3)
  ∧ what knightG1F3 ≠ SPACE_EMPTY
  ∧ spaceGetColor (what knightG1F3) = COLOR_WHITE
  ∧ (capture knightG1F3 ≠ 0 →
       capture knightG1F3
       = get8 (board (current standardBoard)) (captureCoord knightG1F3))
  ∧ (castleRook knightG1F3 ≠ 0 →
       castleRook knightG1F3
       = get8 (board (current standardBoard)) (castleRookFrom knightG1F3))
  ∧ (promote knightG1F3 = 0 ∨ In (promote knightG1F3) PROMOTIONS)
  ∧ prior knightG1F3 = priorOf (current standardBoard).
Proof.
  apply (generated_move_reads_board standardBoard COLOR_WHITE 0%nat
           (listed standardBoard COLOR_WHITE)).
  - apply wellFormed_check. vm_compute. reflexivity.
  - apply cacheValid_empty. vm_compute. reflexivity.
  - vm_compute. reflexivity.
  - apply list_elem_of_In. vm_compute.
    repeat (first [left; reflexivity | right]).
Defined.

(** X14: [listValidMoves] at its edges.  On a coordinate that fails the
    on-board test it throws "Invalid get() coord"; on an empty square of a
    board array of 128 entries (a coordinate from 0 to 127 that passes the
    test) it throws "Listing moves of empty space"; and when it returns for
    a square, the board object is the one of before, the output array has
    grown at its end, and each move added leaves that square with the piece
    that stands there. *)
Theorem listValidMoves_edges (idx : Z) (out : list Move) (b : Board) :
  (onBoard idx = false →
     listValidMoves idx out b = Throw (ChessErrorMsg "Invalid get() coord"))
  ∧ (isSquare idx → length (board (current b)) = 128%nat →
     get8 (board (current b)) idx = SPACE_EMPTY →
       listValidMoves idx out b
       = Throw (ChessErrorMsg "Listing moves of empty space"))
  ∧ (isSquare idx → ∀ out' b',
       listValidMoves idx out b = Ok (out', b') →
       b' = b
       ∧ ∃ extra, out' = out ++ extra
                  ∧ Forall (λ m, from m = idx
                                 ∧ what m = get8 (board (current b)) idx) extra).
Proof.
  split; [|split].
  - intros Hon. unfold listValidMoves.
    unfold mbind at 1, M_bind at 1. by rewrite Board_get_eq, Hon.
  - intros [_ Hon] _ He. unfold listValidMoves.
    unfold mbind at 1, M_bind at 1. rewrite Board_get_eq, Hon, He. reflexivity.
  - intros Hsq out' b' H.
    destruct (listValidMoves_inv _ _ _ _ _ Hsq H) as (-> & _ & extra & -> & F).
    split; [done|]. exists extra. split; [done|].
    eapply Forall_impl; [exact F|]. intros m (m0 & Hcand & _ & Hpush).
    destruct (Candidate_origin _ _ _ _ _ Hcand) as (Hw0 & Hf0 & _).
    destruct (pushed_fields _ _ Hpush) as (Hw1 & Hf1 & _).
    split; congruence.
Qed.

(** ** logic/king-in-danger.ts *)

Lemma dangerIn_spec c l pieces :
  Forall (λ x, onBoard x = true) pieces →
  dangerIn c l pieces
  = Ok (existsb (λ idx, isKingOf c (get8 (board l) idx)
                        && attackMapIsAttacked l idx (8 - c)) pieces).
Proof.
  induction 1 as [|idx rest Hon _ IH]; [done|].
  rewrite dangerIn_isKingOf, Hon. cbn [existsb].
  by destruct (isKingOf _ _ && _).
Qed.

Lemma onBoard_check (l : list Z) :
  forallb onBoard l = true → Forall (λ x, onBoard x = true) l.
Proof.
  intros H. rewrite forallb_forall in H. apply Forall_forall.
  intros x Hx. apply H, list_elem_of_In, Hx.
Qed.



(** ** logic/find-move-by-san.ts *)

Lemma append_inj_l (s t u : string) : s +:+ t = s +:+ u → t = u.
Proof. induction s as [|c s IH]; cbn; [done|]. intros [= H]. by apply IH. Qed.

(** X16: [_selectMoveByInvariant] selects a move exactly when it is the
    only entry of the list that satisfies the invariant, an entry listed
    twice counting twice; it throws the bad-move error "... is not a valid
    move" exactly when no entry satisfies the invariant. *)
Theorem selectMoveByInvariant_unique (moves : list Move) (san : string)
    (fn : Move → bool) :
  (∀ m, _selectMoveByInvariant moves san fn = Ok m ↔ List.filter fn moves = [m])
  ∧ (_selectMoveByInvariant moves san fn
     = Throw (ChessBadMove (san +:+ " is not a valid move"))
     ↔ List.filter fn moves = []).
Proof.
  rewrite _selectMoveByInvariant_spec.
  destruct (List.filter fn moves) as [|f [|m rest]].
  - split; [intros m; split; done|]. done.
  - split; [intros m; split; congruence|]. split; done.
  - split.
    + intros m'. split; [|done]. by destruct (negb _ && negb _).
    + split; [|done]. destruct (negb _ && negb _); [done|].
      intros [= H]. by apply append_inj_l in H.
Qed.

(** ** What the generator and its callers leave of the board object *)

Lemma Fixes_ret {A} (a : A) : Fixes (mret a).
Proof. intros b a' b' [= <- <-]. done. Qed.

Lemma Fixes_bind {A B} (m : M A) (k : A → M B) :
  Fixes m → (∀ a, Fixes (k a)) → Fixes (m ≫= k).
Proof.
  intros Hm Hk b r b'' H. apply bind_inv in H as (a & b' & H1 & H2).
  destruct (Hm _ _ _ H1) as (Hc & Hl & Ha).
  destruct (Hk _ _ _ _ H2) as (Hc' & Hl' & Ha').
  split; [congruence|]. split; [congruence | by etrans].
Qed.

Lemma Fixes_Framed {A} (f : M A) : Fixes f → Framed f.
Proof. intros H b a b' E. by destruct (H _ _ _ E) as (_ & ? & ?). Qed.

Lemma Framed_bind {A B} (m : M A) (k : A → M B) :
  Framed m → (∀ a, Framed (k a)) → Framed (m ≫= k).
Proof.
  intros Hm Hk b r b'' H. apply bind_inv in H as (a & b' & H1 & H2).
  destruct (Hm _ _ _ H1) as (Hl & Ha).
  destruct (Hk _ _ _ _ H2) as (Hl' & Ha').
  split; [congruence | by etrans].
Qed.

Lemma Fixes_foldM {A B} (f : A → B → M A) xs :
  (∀ acc x, Fixes (f acc x)) → ∀ acc, Fixes (foldM f acc xs).
Proof.
  intros Hf. induction xs as [|x xs IH]; intros acc; cbn [foldM].
  - apply Fixes_ret.
  - apply Fixes_bind; [apply Hf | done].
Qed.

Lemma Framed_foldM {A B} (f : A → B → M A) xs :
  (∀ acc x, Framed (f acc x)) → ∀ acc, Framed (foldM f acc xs).
Proof.
  intros Hf. induction xs as [|x xs IH]; intros acc; cbn [foldM].
  - apply Fixes_Framed, Fixes_ret.
  - apply Framed_bind; [apply Hf | done].
Qed.

Lemma Fixes_get idx : Fixes (Board_get idx).
Proof.
  intros b a b' H. rewrite Board_get_eq in H.
  destruct (onBoard idx); [|done]. by injection H as <- <-.
Qed.

Lemma Fixes_getCurrent : Fixes getCurrent.
Proof. intros b a b' [= <- <-]. done. Qed.

Lemma Fixes_getPriorState : Fixes Board_getPriorState.
Proof. intros b a b' [= <- <-]. done. Qed.

Lemma Fixes_assert c msg : Fixes (assert c msg).
Proof. intros b a b' H. destruct c; [|done]. by injection H as <- <-. Qed.

Lemma Fixes_readArray r : Fixes (readArray r).
Proof. intros b a b' [= <- <-]. done. Qed.

Lemma Fixes_kingInDanger c : Fixes (kingInDanger c).
Proof.
  intros b a b' H. rewrite kingInDanger_eq in H.
  destruct (inDanger _ _); [|done]. by injection H as <- <-.
Qed.

Lemma Framed_modify f : Framed (modifyCurrent f).
Proof. intros b a b' [= <- <-]. done. Qed.

Lemma Framed_set idx sp : Framed (Board_set idx sp).
Proof.
  intros b a b' H. rewrite Board_set_eq in H.
  destruct (onBoard idx); [|done]. by injection H as <- <-.
Qed.

Lemma Framed_performMove m : Framed (performMove m).
Proof.
  intros b a b' H. rewrite performMove_eq in H.
  destruct (moveCoordsOk m); [|done]. by injection H as <- <-.
Qed.

Lemma Framed_putBoardHash hash : Framed (Board_putBoardHash hash).
Proof. intros b a b' H. rewrite putBoardHash_spec in H. by injection H as <- <-. Qed.

Lemma Framed_allocArray moves : Framed (allocArray moves).
Proof.
  intros b a b' [= <- <-]. cbn. split; [done|]. by apply prefix_app_r.
Qed.

(** A [save] opens what a [restore] closes. *)
Lemma Fixes_save {A} (body : M A) :
  (∀ b0, Closes b0 body) → Fixes (Board_save;; body).
Proof.
  intros Hbody b a b' H. apply bind_inv in H as ([] & b1 & Hs & H).
  unfold Board_save in Hs. injection Hs as <-.
  by apply (Hbody b _ a b' (eq_refl : lower (mkBoard _ _ _) = _) (reflexivity (arrays b)) H).
Qed.

Lemma Closes_restore {A} b0 (k : M A) :
  Fixes k → Closes b0 (Board_restore;; k).
Proof.
  intros Hk b a b' Hl Ha H. apply bind_inv in H as ([] & b1 & Hr & H).
  unfold Board_restore in Hr. rewrite Hl in Hr. injection Hr as <-.
  destruct (Hk _ _ _ H) as (Hc' & Hl' & Ha'). cbn in Hc', Hl', Ha'.
  split; [done|]. split; [done | by etrans].
Qed.

Lemma Closes_bind {A B} b0 (m : M A) (k : A → M B) :
  Framed m → (∀ a, Closes b0 (k a)) → Closes b0 (m ≫= k).
Proof.
  intros Hm Hk b r b'' Hl Ha H. apply bind_inv in H as (a & b' & H1 & H2).
  destruct (Hm _ _ _ H1) as (Hl' & Ha').
  apply (Hk a b' r b''); [congruence | by etrans | done].
Qed.

Lemma Fixes_tryPushMove out m : Fixes (_tryPushMove out m).
Proof.
  apply Fixes_save. intros b0.
  apply Closes_bind; [apply Framed_performMove|]. intros _.
  apply Closes_bind; [apply Fixes_Framed, Fixes_kingInDanger|]. intros danger.
  apply Closes_restore, Fixes_ret.
Qed.

Lemma Fixes_ray sp idx step pr n : ∀ newIdx out,
  Fixes (_findMoves_ray n sp idx newIdx step pr out).
Proof.
  induction n as [|n IH]; intros newIdx out; cbn [_findMoves_ray];
    [apply Fixes_ret|].
  destruct (onBoard newIdx); [|apply Fixes_ret].
  apply Fixes_bind; [apply Fixes_get|]. intros newSp.
  destruct (newSp =? SPACE_EMPTY).
  - apply Fixes_bind; [apply Fixes_tryPushMove | intros; apply IH].
  - destruct (_ =? _); [apply Fixes_tryPushMove | apply Fixes_ret].
Qed.

Lemma Fixes_findMoves sp idx dirs lo hi maxDist out pr :
  Fixes (_findMoves sp idx dirs lo hi maxDist out pr).
Proof. apply Fixes_foldM. intros. apply Fixes_ray. Qed.

Lemma Fixes_tryCastle_empty m idxs : Fixes (_tryCastle_empty m idxs).
Proof.
  induction idxs as [|idx rest IH]; cbn [_tryCastle_empty]; [apply Fixes_ret|].
  destruct (_ || _); [done|].
  apply Fixes_bind; [apply Fixes_get|]. intros sp.
  destruct (negb _); [apply Fixes_ret | done].
Qed.

Lemma Fixes_tryCastle out m : Fixes (_tryCastle out m).
Proof.
  unfold _tryCastle.
  apply Fixes_bind; [apply Fixes_tryCastle_empty|]. intros free.
  destruct (negb free); [apply Fixes_ret|].
  apply Fixes_save. intros b0.
  apply Closes_bind.
  { unfold _tryCastle_kings.
    apply Framed_bind; [apply Framed_set|]. intros _.
    apply Framed_bind; [apply Framed_set|]. intros _.
    apply Framed_foldM. intros. apply Framed_set. }
  intros _.
  apply Closes_bind; [apply Fixes_Framed, Fixes_kingInDanger|]. intros danger.
  apply Closes_restore.
  destruct danger; [apply Fixes_ret | apply Fixes_tryPushMove].
Qed.

Lemma Fixes_findKingCastles sp idx out pr : Fixes (_findKingCastles sp idx out pr).
Proof.
  unfold _findKingCastles. destruct (spaceHasMoved sp); [apply Fixes_ret|].
  apply Fixes_bind; [apply Fixes_getCurrent|]. intros l.
  apply Fixes_bind.
  - destruct (_ =? 0); [|apply Fixes_ret].
    apply Fixes_bind; [apply Fixes_get | intros; apply Fixes_tryCastle].
  - intros out1. destruct (_ =? 0); [|apply Fixes_ret].
    apply Fixes_bind; [apply Fixes_get | intros; apply Fixes_tryCastle].
Qed.

Lemma Fixes_pawnCapture sp idx oneUp promo ep pr out step :
  Fixes (_pawnCapture sp idx oneUp promo ep pr out step).
Proof.
  unfold _pawnCapture. destruct (negb _); [apply Fixes_ret|].
  apply Fixes_bind; [apply Fixes_get|]. intros spot.
  destruct (_ =? ep).
  - apply Fixes_bind; [apply Fixes_get | intros; apply Fixes_tryPushMove].
  - destruct (_ && _); [apply Fixes_tryPushMove | apply Fixes_ret].
Qed.

Lemma Fixes_pawnMoves sp idx out pr : Fixes (_pawnMoves sp idx out pr).
Proof.
  unfold _pawnMoves. cbv zeta. destruct (negb _); [apply Fixes_ret|].
  apply Fixes_bind; [apply Fixes_get|]. intros front.
  apply Fixes_bind.
  - destruct (front =? SPACE_EMPTY); [|apply Fixes_ret].
    apply Fixes_bind; [apply Fixes_tryPushMove|]. intros out1.
    destruct (_ && _); [|apply Fixes_ret].
    apply Fixes_bind; [apply Fixes_get|]. intros far.
    destruct (far =? SPACE_EMPTY); [apply Fixes_tryPushMove | apply Fixes_ret].
  - intros out2.
    apply Fixes_bind; [apply Fixes_getCurrent|]. intros l.
    apply Fixes_foldM. intros. apply Fixes_pawnCapture.
Qed.

Lemma Fixes_listValidMoves idx out : Fixes (listValidMoves idx out).
Proof.
  unfold listValidMoves.
  apply Fixes_bind; [apply Fixes_get|]. intros sp.
  apply Fixes_bind; [apply Fixes_getPriorState|]. intros pr.
  apply Fixes_bind; [apply Fixes_assert|]. intros _.
  apply Fixes_save. intros b0.
  apply Closes_bind; [apply Framed_set|]. intros _.
  apply Closes_bind.
  { apply Fixes_Framed. cbv zeta.
    repeat (match goal with
            | |- Fixes (if ?c then _ else _) => destruct c
            end; try apply Fixes_findMoves; try apply Fixes_pawnMoves;
            try apply Fixes_ret).
    apply Fixes_bind; [apply Fixes_findMoves|]. intros.
    apply Fixes_findKingCastles. }
  intros out'. apply Closes_restore, Fixes_ret.
Qed.

Lemma Fixes_scan color pieces : Fixes (listAllValidMoves_scan color pieces).
Proof.
  apply Fixes_foldM. intros out idx.
  apply Fixes_bind; [apply Fixes_get|]. intros sp.
  destruct (_ =? color); [apply Fixes_listValidMoves | apply Fixes_ret].
Qed.

Lemma Recaches_listAllValidMoves color :
  Recaches color (listAllValidMoves color).
Proof.
  intros b r b' H. unfold listAllValidMoves in H.
  apply bind_inv in H as (l & b0 & [= <- <-] & H).
  destruct (moveCache (current b) !! color) as [cached|].
  - cbn in H. injection H as <- <-. cbn. split; [|split; [done|]].
    + exists (moveCache (current b)). split; [by destruct (current b) | done].
    + by apply prefix_app_r.
  - apply bind_inv in H as (out & b1 & Hscan & H).
    destruct (Fixes_scan _ _ _ _ _ Hscan) as (Hc & Hl & Ha).
    cbn in H. injection H as <- <-. cbn. split; [|split; [done|]].
    + rewrite Hc. eexists. split; [done|].
      intros c Hne. by rewrite lookup_insert_ne.
    + etrans; [exact Ha|]. by apply prefix_app_r.
Qed.

Lemma Recaches_Framed {A} color (f : M A) : Recaches color f → Framed f.
Proof. intros H b a b' E. by destruct (H _ _ _ E) as (_ & ? & ?). Qed.

Lemma Framed_checkMoveResults color : Framed (checkMoveResults color).
Proof.
  unfold checkMoveResults. cbv zeta.
  apply Framed_bind; [apply Fixes_Framed, Fixes_kingInDanger|]. intros chk.
  apply Framed_bind; [apply (Recaches_Framed (8 - color)), Recaches_listAllValidMoves|]. intros r.
  apply Framed_bind; [apply Fixes_Framed, Fixes_readArray|]. intros moves.
  apply Framed_bind; [apply Fixes_Framed, Fixes_getCurrent|]. intros l.
  apply Framed_bind; [apply Framed_putBoardHash|]. intros n.
  apply Framed_bind; [apply Fixes_Framed, Fixes_getCurrent|]. intros l'.
  apply Fixes_Framed, Fixes_ret.
Qed.

Lemma Fixes_moveAndCheckResults m : Fixes (moveAndCheckResults m).
Proof.
  unfold moveAndCheckResults. cbv zeta.
  apply Fixes_save. intros b0.
  apply Closes_bind; [apply Framed_performMove|]. intros _.
  apply Closes_bind; [apply Framed_checkMoveResults|]. intros out.
  apply Closes_restore, Fixes_ret.
Qed.

Lemma seenCount_layers hash b b' :
  current b' = current b → lower b' = lower b →
  seenCount hash b' = seenCount hash b.
Proof. intros Hc Hl. unfold seenCount. by rewrite Hc, Hl. Qed.

(** X17: [moveAndCheckResults] gives the board back.  When it returns, the
    current layer and the layers under it are the ones of before the call:
    position, status, move cache and repetition counts are untouched, and
    the arrays of moves that existed are in their places, the arrays the
    call has built after them. *)
Theorem moveAndCheckResults_restores (m : Move) (b : Board) res b' :
  moveAndCheckResults m b = Ok (res, b') →
  current b' = current b ∧ lower b' = lower b
  ∧ arrays b `prefix_of` arrays b'
  ∧ ∀ hash, seenCount hash b' = seenCount hash b.
Proof.
  intros H. destruct (Fixes_moveAndCheckResults _ _ _ _ H) as (Hc & Hl & Ha).
  repeat split; try done. intros hash. by apply seenCount_layers.
Qed.

Lemma moveAndCheckResults_restores_witness :
  current (probed knightG1F3 standardBoard) = current standardBoard
  ∧ lower (probed knightG1F3 standardBoard) = lower standardBoard
  ∧ arrays standardBoard `prefix_of` arrays (probed knightG1F3 standardBoard)
  ∧ ∀ hash, seenCount hash (probed knightG1F3 standardBoard)
            = seenCount hash standardBoard.
Proof.
  apply (moveAndCheckResults_restores knightG1F3 standardBoard
           (probeResults knightG1F3 standardBoard)).
  vm_compute. reflexivity.
Defined.

Lemma Recaches_perft_rec n : ∀ depth b v b',
  perft_rec n depth b = Ok (v, b') →
  (∃ cache, current b' = withMoveCache (current b) cache
            ∧ ∀ c, c ≠ turn (current b) → cache !! c = moveCache (current b) !! c)
  ∧ lower b' = lower b ∧ arrays b `prefix_of` arrays b'.
Proof.
  induction n as [|n IH]; intros depth b v b' H.
  - assert (H' : (l ← getCurrent; r ← listAllValidMoves (turn l);
                  moves ← readArray r; mret (Z.of_nat (length moves))) b
                 = Ok (v, b')).
    { cbn [perft_rec] in H. by destruct (depth <=? 1). }
    clear H. apply bind_inv in H' as (l & b0 & [= <- <-] & H).
    apply bind_inv in H as (r & b1 & Hl & H).
    apply bind_inv in H as (moves & b2 & [= <- <-] & H).
    injection H as <- <-. by apply (Recaches_listAllValidMoves _ _ _ _ Hl).
  - cbn [perft_rec] in H.
    apply bind_inv in H as (l & b0 & [= <- <-] & H).
    apply bind_inv in H as (r & b1 & Hl & H).
    apply bind_inv in H as (moves & b2 & [= <- <-] & H).
    destruct (Recaches_listAllValidMoves _ _ _ _ Hl) as (Hc & Hlow & Ha).
    destruct (depth <=? 1); [by injection H as <- <-|].
    assert (F : Fixes (foldM (λ num move,
                 Board_save;; performMove move;;
                 deep ← perft_rec n (depth - 1);
                 Board_restore;; mret (num + deep)) 0
                 (default [] (arrays b1 !! r)))).
    { apply Fixes_foldM. intros num move.
      apply Fixes_save. intros b0.
      apply Closes_bind; [apply Framed_performMove|]. intros _.
      apply Closes_bind.
      { intros x y z E. by destruct (IH _ _ _ _ E) as (_ & ? & ?). }
      intros deep. apply Closes_restore, Fixes_ret. }
    destruct (F _ _ _ H) as (Hc' & Hl' & Ha').
    split; [by rewrite Hc'|]. split; [congruence | by etrans].
Qed.

(** X18: [perft] gives the board back.  When it returns, whatever the depth,
    the layers under the current one are the ones of before, and so is the
    current layer but for the slot of the side to move in its move cache:
    position, status and repetition counts are untouched, and the arrays of
    moves that existed are in their places. *)
Theorem perft_restores (depth : Z) (b : Board) n b' :
  perft depth b = Ok (n, b') →
  (∃ cache, current b' = withMoveCache (current b) cache
            ∧ ∀ c, c ≠ turn (current b) → cache !! c = moveCache (current b) !! c)
  ∧ lower b' = lower b
  ∧ arrays b `prefix_of` arrays b'
  ∧ ∀ hash, seenCount hash b' = seenCount hash b.
Proof.
  intros H. destruct (Recaches_perft_rec _ _ _ _ _ H) as (Hc & Hl & Ha).
  split; [done|]. split; [done|]. split; [done|]. intros hash.
  destruct Hc as (cache & Hc & _). unfold seenCount. rewrite Hc, Hl.
  cbn [findSeen withMoveCache seen].
  destruct (seen (current b) !! hash); [|done].
  unfold seenAt. by destruct (current b).
Qed.

Lemma perft_restores_witness :
  (∃ cache, current (counted 2 standardBoard)
            = withMoveCache (current standardBoard) cache
            ∧ ∀ c, c ≠ turn (current standardBoard) →
                   cache !! c = moveCache (current standardBoard) !! c)
  ∧ lower (counted 2 standardBoard) = lower standardBoard
  ∧ arrays standardBoard `prefix_of` arrays (counted 2 standardBoard)
  ∧ ∀ hash, seenCount hash (counted 2 standardBoard)
            = seenCount hash standardBoard.
Proof.
  apply (perft_restores 2 standardBoard 400).
  vm_compute. reflexivity.
Defined.

(** X19: [checkMoveResults] counts the position.  Each call that returns
    has raised the repetition count of the current position by one and handed
    the raised count to [_nextState]; the counts of the other positions, the
    position itself, the status and the layers under the current one are as
    before. *)
Theorem checkMoveResults_counts (moveColor : Z) (b : Board) r b' :
  checkMoveResults moveColor b = Ok (r, b') →
  seenCount (hashBoard (current b)) b'
  = jsnum_add1 (seenCount (hashBoard (current b)) b)
  ∧ (∀ h, h ≠ hashBoard (current b) → seenCount h b' = seenCount h b)
  ∧ newGameStatus r
    = _nextState (current b) (enemyInCheck r) (enemyCanMove r)
        (jsnum_add1 (seenCount (hashBoard (current b)) b))
  ∧ samePosition (current b) (current b')
  ∧ status (current b') = status (current b)
  ∧ lower b' = lower b.
Proof.
  intros H.
  destruct (checkMoveResults_nextState _ _ _ _ H)
    as (b1 & b2 & ref & n & Hk & Hl & _ & Hp & Hs).
  rewrite kingInDanger_eq in Hk.
  destruct (inDanger _ _); [|done]. injection Hk as _ <-.
  destruct (Recaches_listAllValidMoves _ _ _ _ Hl) as ((cache & Hc & _) & Hlow & _).
  rewrite putBoardHash_spec in Hp. injection Hp as <- <-.
  assert (Hh : hashBoard (current b2) = hashBoard (current b)) by (by rewrite Hc).
  assert (Hn : seenCount (hashBoard (current b)) b2
               = seenCount (hashBoard (current b)) b).
  { unfold seenCount. rewrite Hc, Hlow. cbn [findSeen withMoveCache seen].
    destruct (seen (current b) !! _); [|done]. unfold seenAt.
    by destruct (current b). }
  rewrite Hh in *. rewrite Hn in *.
  split; [apply seenCount_current; cbn; by rewrite lookup_insert_eq|].
  split.
  { intros h Hne. rewrite seenCount_insert_ne by done.
    unfold seenCount. rewrite Hc, Hlow. cbn [findSeen withMoveCache seen].
    destruct (seen (current b) !! _); [|done]. unfold seenAt.
    by destruct (current b). }
  split.
  { rewrite Hs. cbn [current withCurrent]. rewrite Hc.
    unfold _nextState, boardLacksMaterial. by destruct (current b). }
  cbn [current withCurrent lower]. rewrite Hc.
  split; [|by destruct (current b)].
  unfold samePosition. by destruct (current b).
Qed.

Lemma checkMoveResults_counts_witness :
  seenCount (hashBoard (current standardBoard)) (checked COLOR_BLACK standardBoard)
  = jsnum_add1 (seenCount (hashBoard (current standardBoard)) standardBoard)
  ∧ (∀ h, h ≠ hashBoard (current standardBoard) →
          seenCount h (checked COLOR_BLACK standardBoard) = seenCount h standardBoard)
  ∧ newGameStatus (checkResults COLOR_BLACK standardBoard)
    = _nextState (current standardBoard)
        (enemyInCheck (checkResults COLOR_BLACK standardBoard))
        (enemyCanMove (checkResults COLOR_BLACK standardBoard))
        (jsnum_add1 (seenCount (hashBoard (current standardBoard)) standardBoard))
  ∧ samePosition (current standardBoard) (current (checked COLOR_BLACK standardBoard))
  ∧ status (current (checked COLOR_BLACK standardBoard))
    = status (current standardBoard)
  ∧ lower (checked COLOR_BLACK standardBoard) = lower standardBoard.
Proof.
  apply (checkMoveResults_counts COLOR_BLACK standardBoard).
  vm_compute. reflexivity.
Defined.

(** ** The generator returns *)

Lemma Runs_ret {A} (a : A) : Runs (mret a).
Proof. intros b _. by eexists _, _. Qed.

Lemma Runs_bind {A B} (m : M A) (k : A → M B) :
  Runs m → Lists m → (∀ a, Runs (k a)) → Runs (m ≫= k).
Proof.
  intros Hm Hl Hk b Hb. destruct (Hm b Hb) as (a & b' & E).
  destruct (Hk a b' (Hl _ _ _ Hb E)) as (r & b'' & E').
  exists r, b''. unfold mbind, M_bind. by rewrite E.
Qed.

Lemma Fixes_Lists {A} (f : M A) : Fixes f → Lists f.
Proof. intros H b a b' Hb E. destruct (H _ _ _ E) as (Hc & _). by rewrite Hc. Qed.

Lemma Lists_bind {A B} (m : M A) (k : A → M B) :
  Lists m → (∀ a, Lists (k a)) → Lists (m ≫= k).
Proof.
  intros Hm Hk b r b'' Hb H. apply bind_inv in H as (a & b' & H1 & H2).
  eapply Hk; [|exact H2]. by eapply Hm.
Qed.

Lemma Lists_foldM {A B} (f : A → B → M A) xs :
  (∀ acc x, Lists (f acc x)) → ∀ acc, Lists (foldM f acc xs).
Proof.
  intros Hf. induction xs as [|x xs IH]; intros acc; cbn [foldM].
  - apply Fixes_Lists, Fixes_ret.
  - apply Lists_bind; [apply Hf | done].
Qed.

Lemma Runs_foldM {A B} (f : A → B → M A) xs :
  Forall (λ x, ∀ acc, Runs (f acc x)) xs → (∀ acc x, Lists (f acc x)) →
  ∀ acc, Runs (foldM f acc xs).
Proof.
  intros Hr Hl. induction Hr as [|x xs Hx _ IH]; intros acc; cbn [foldM].
  - apply Runs_ret.
  - apply Runs_bind; [apply Hx | apply Hl | done].
Qed.

Lemma Runs_get idx : onBoard idx = true → Runs (Board_get idx).
Proof. intros Hon b _. rewrite Board_get_eq, Hon. by eexists _, _. Qed.

Lemma Runs_set idx sp : onBoard idx = true → Runs (Board_set idx sp).
Proof. intros Hon b _. rewrite Board_set_eq, Hon. by eexists _, _. Qed.

Lemma Runs_getCurrent : Runs getCurrent.
Proof. intros b _. by eexists _, _. Qed.

Lemma Layer_set_listed l x v :
  onBoard x = true → listedOnBoard l → listedOnBoard (Layer_set l x v).
Proof.
  intros Hx Hl. unfold listedOnBoard. rewrite Layer_set_pieceList.
  destruct (negb _); [|done]. destruct (_ =? _).
  - apply Forall_app. split; [done|]. by apply Forall_singleton.
  - by apply pieceListRemove_Forall.
Qed.

Lemma Lists_set idx sp : Lists (Board_set idx sp).
Proof.
  intros b a b' Hb H. rewrite Board_set_eq in H.
  destruct (onBoard idx) eqn:Hon; [|done]. injection H as _ <-.
  by apply Layer_set_listed.
Qed.

Lemma performSets_listed m l :
  moveCoordsOk m = true → listedOnBoard l → listedOnBoard (performSets m l).
Proof.
  unfold moveCoordsOk, performSets. intros Hok Hl.
  apply andb_true_iff in Hok as [Hok Hc].
  apply andb_true_iff in Hok as [Hok Ht].
  apply andb_true_iff in Hok as [Hf Hx].
  assert (H1 : listedOnBoard (Layer_set l (from m) SPACE_EMPTY))
    by (by apply Layer_set_listed).
  destruct (capture m =? 0); destruct (castleRook m =? 0);
    destruct (promote m =? 0);
    try apply andb_true_iff in Hc as [Hc1 Hc2];
    repeat (apply Layer_set_listed; [done|]); done.
Qed.

Lemma Lists_performMove m : Lists (performMove m).
Proof.
  intros b a b' Hb H. rewrite performMove_eq in H.
  destruct (moveCoordsOk m) eqn:Hok; [|done]. injection H as _ <-.
  cbn [current withCurrent]. unfold listedOnBoard.
  replace (pieceList (recordHash (lower b) (performLayer m (current b))))
    with (pieceList (performSets m (current b))) by done.
  by apply performSets_listed.
Qed.

Lemma Runs_performMove m : moveCoordsOk m = true → Runs (performMove m).
Proof. intros Hok b _. rewrite performMove_eq, Hok. by eexists _, _. Qed.

Lemma Runs_kingInDanger c : Runs (kingInDanger c).
Proof.
  intros b Hb. rewrite kingInDanger_eq. unfold inDanger.
  rewrite dangerIn_spec by done. by eexists _, _.
Qed.

Lemma Runs_save {A} (body : M A) :
  (∀ b0, listedOnBoard (current b0) → RunsAbove b0 body) →
  Runs (Board_save;; body).
Proof.
  intros Hbody b Hb. unfold mbind, M_bind, Board_save.
  apply (Hbody b Hb); [done|]. exact Hb.
Qed.

Lemma RunsAbove_restore {A} b0 (k : M A) :
  listedOnBoard (current b0) → Runs k → RunsAbove b0 (Board_restore;; k).
Proof.
  intros H0 Hk b Hl Hb. unfold mbind, M_bind, Board_restore. rewrite Hl.
  by apply Hk.
Qed.

Lemma RunsAbove_bind {A B} b0 (m : M A) (k : A → M B) :
  Runs m → Framed m → Lists m → (∀ a, RunsAbove b0 (k a)) →
  RunsAbove b0 (m ≫= k).
Proof.
  intros Hm Hf Hl Hk b Hlow Hb. destruct (Hm b Hb) as (a & b' & E).
  destruct (Hf _ _ _ E) as (Hlow' & _).
  destruct (Hk a b') as (r & b'' & E');
    [congruence | by apply (Hl _ _ _ Hb E) |].
  exists r, b''. unfold mbind, M_bind. by rewrite E.
Qed.

Lemma Runs_tryPushMove out m :
  moveCoordsOk m = true → Runs (_tryPushMove out m).
Proof.
  intros Hok. apply Runs_save. intros b0 H0.
  apply RunsAbove_bind;
    [by apply Runs_performMove | apply Framed_performMove
    | apply Lists_performMove |]. intros _.
  apply RunsAbove_bind;
    [apply Runs_kingInDanger | apply Fixes_Framed, Fixes_kingInDanger
    | apply Fixes_Lists, Fixes_kingInDanger |]. intros danger.
  apply RunsAbove_restore; [done | apply Runs_ret].
Qed.

Lemma Runs_ray sp idx step pr n : ∀ newIdx out,
  onBoard idx = true → Runs (_findMoves_ray n sp idx newIdx step pr out).
Proof.
  induction n as [|n IH]; intros newIdx out Hidx; cbn [_findMoves_ray];
    [apply Runs_ret|].
  destruct (onBoard newIdx) eqn:Hnew; [|apply Runs_ret].
  apply Runs_bind; [by apply Runs_get | apply Fixes_Lists, Fixes_get|].
  intros newSp. destruct (newSp =? SPACE_EMPTY).
  - apply Runs_bind;
      [apply Runs_tryPushMove | apply Fixes_Lists, Fixes_tryPushMove
      | intros; by apply IH].
    unfold moveCoordsOk. cbn. by rewrite Hidx, Hnew.
  - destruct (_ =? _); [|apply Runs_ret].
    apply Runs_tryPushMove. unfold moveCoordsOk. cbn.
    rewrite Hidx, Hnew. by destruct (newSp =? 0).
Qed.

Lemma Runs_findMoves sp idx dirs lo hi maxDist out pr :
  onBoard idx = true → Runs (_findMoves sp idx dirs lo hi maxDist out pr).
Proof.
  intros Hidx. apply Runs_foldM.
  - apply Forall_forall. intros step _ acc. by apply Runs_ray.
  - intros. apply Fixes_Lists, Fixes_ray.
Qed.

Lemma Runs_tryCastle_empty m idxs :
  Forall (λ x, onBoard x = true) idxs → Runs (_tryCastle_empty m idxs).
Proof.
  induction 1 as [|idx rest Hon _ IH]; cbn [_tryCastle_empty]; [apply Runs_ret|].
  destruct (_ || _); [done|].
  apply Runs_bind; [by apply Runs_get | apply Fixes_Lists, Fixes_get|].
  intros sp. destruct (negb _); [apply Runs_ret | done].
Qed.

Lemma Runs_tryCastle out m :
  moveCoordsOk m = true → onBoard (castleRookFrom m) = true →
  Forall (λ x, onBoard x = true) (castleSpan m) →
  Forall (λ x, onBoard x = true) (kingPath m) →
  Runs (_tryCastle out m).
Proof.
  intros Hok Hrook Hspan Hpath. unfold _tryCastle.
  assert (Hfrom : onBoard (from m) = true).
  { unfold moveCoordsOk in Hok. by destruct (onBoard (from m)). }
  apply Runs_bind;
    [by apply Runs_tryCastle_empty | apply Fixes_Lists, Fixes_tryCastle_empty|].
  intros free. destruct (negb free); [apply Runs_ret|].
  apply Runs_save. intros b0 H0.
  apply RunsAbove_bind.
  - unfold _tryCastle_kings.
    apply Runs_bind; [by apply Runs_set | apply Lists_set|]. intros _.
    apply Runs_bind; [by apply Runs_set | apply Lists_set|]. intros _.
    apply Runs_foldM; [|intros; apply Lists_set].
    eapply Forall_impl; [exact Hpath|]. intros x Hx _. by apply Runs_set.
  - unfold _tryCastle_kings.
    apply Framed_bind; [apply Framed_set|]. intros _.
    apply Framed_bind; [apply Framed_set|]. intros _.
    apply Framed_foldM. intros. apply Framed_set.
  - unfold _tryCastle_kings.
    apply Lists_bind; [apply Lists_set|]. intros _.
    apply Lists_bind; [apply Lists_set|]. intros _.
    apply Lists_foldM. intros. apply Lists_set.
  - intros _.
    apply RunsAbove_bind;
      [apply Runs_kingInDanger | apply Fixes_Framed, Fixes_kingInDanger
      | apply Fixes_Lists, Fixes_kingInDanger |]. intros danger.
    apply RunsAbove_restore; [done|].
    destruct danger; [apply Runs_ret | by apply Runs_tryPushMove].
Qed.

(** The squares of the castles the generator builds for a king on [idx]. *)
Lemma castle_squares idx file (kingSide : bool) sp rook pr :
  isSquare idx → 0 <= file < 8 →
  let rank := Z.land idx 0xf0 in
  let m := createCastle sp idx (Z.lor rank (if kingSide then 6 else 2)) rook
             (Z.lor rank file) (Z.lor rank (if kingSide then 5 else 3)) pr in
  moveCoordsOk m = true ∧ onBoard (castleRookFrom m) = true
  ∧ Forall (λ x, onBoard x = true) (castleSpan m)
  ∧ Forall (λ x, onBoard x = true) (kingPath m).
Proof.
  intros Hsq Hf rank m.
  pose proof (forall_squares
    (λ idx, forallb (λ file, forallb (λ dest : Z * Z,
       let rank := Z.land idx 0xf0 in
       onBoard idx && onBoard (Z.lor rank dest.1) && onBoard (Z.lor rank file)
       && onBoard (Z.lor rank dest.2)
       && forallb onBoard
            (range (min4 (Z.lor rank file) (Z.lor rank dest.2) idx (Z.lor rank dest.1))
                   (max4 (Z.lor rank file) (Z.lor rank dest.2) idx (Z.lor rank dest.1)))
       && forallb onBoard
            (range (Z.min idx (Z.lor rank dest.1)) (Z.max idx (Z.lor rank dest.1))))
       [(6, 5); (2, 3)]) (seqZ 0 8))
    ltac:(vm_compute; reflexivity) idx Hsq) as H.
  cbv beta in H. rewrite forallb_forall in H.
  specialize (H file ltac:(apply list_elem_of_In, elem_of_seqZ; lia)).
  cbn [forallb] in H. rewrite andb_true_r in H.
  apply andb_true_iff in H as [Hk Hq].
  assert (Hm : ∀ d1 d2,
    (let rank := Z.land idx 0xf0 in
     onBoard idx && onBoard (Z.lor rank d1) && onBoard (Z.lor rank file)
     && onBoard (Z.lor rank d2)
     && forallb onBoard
          (range (min4 (Z.lor rank file) (Z.lor rank d2) idx (Z.lor rank d1))
                 (max4 (Z.lor rank file) (Z.lor rank d2) idx (Z.lor rank d1)))
     && forallb onBoard
          (range (Z.min idx (Z.lor rank d1)) (Z.max idx (Z.lor rank d1)))) = true →
    let m := createCastle sp idx (Z.lor rank d1) rook (Z.lor rank file)
               (Z.lor rank d2) pr in
    moveCoordsOk m = true ∧ onBoard (castleRookFrom m) = true
    ∧ Forall (λ x, onBoard x = true) (castleSpan m)
    ∧ Forall (λ x, onBoard x = true) (kingPath m)).
  { intros d1 d2 E m0. subst m0 rank. cbv zeta in E. rewrite !andb_true_iff in E.
    destruct E as [[[[[E1 E2] E3] E4] E5] E6].
    unfold moveCoordsOk, castleSpan, kingPath, createCastle, createFullMove.
    cbn [from to capture captureCoord castleRook castleRookFrom castleRookTo].
    rewrite E1, E2, E3, E4. cbn [Z.eqb andb].
    split; [by destruct (rook =? 0)|]. split; [done|].
    split; by apply onBoard_check. }
  subst m. destruct kingSide; by apply Hm.
Qed.

Lemma Runs_findKingCastles sp idx out pr :
  isSquare idx → Runs (_findKingCastles sp idx out pr).
Proof.
  intros Hsq. unfold _findKingCastles.
  destruct (spaceHasMoved sp); [apply Runs_ret|].
  apply Runs_bind; [apply Runs_getCurrent | apply Fixes_Lists, Fixes_getCurrent|].
  intros l.
  assert (Hside : ∀ (kingSide : bool) out,
    Runs (if Z.land (castleMapGetFile (castles l) (spaceGetColor sp) kingSide) 0x8 =? 0
          then
            rook ← Board_get (Z.lor (Z.land idx 0xf0)
                     (castleMapGetFile (castles l) (spaceGetColor sp) kingSide));
            _tryCastle out
              (createCastle sp idx
                 (Z.lor (Z.land idx 0xf0) (if kingSide then 6 else 2)) rook
                 (Z.lor (Z.land idx 0xf0)
                    (castleMapGetFile (castles l) (spaceGetColor sp) kingSide))
                 (Z.lor (Z.land idx 0xf0) (if kingSide then 5 else 3)) pr)
          else mret out)).
  { intros kingSide out0. destruct (_ =? 0) eqn:Hfile; [|apply Runs_ret].
    apply Z.eqb_eq in Hfile. pose proof (castle_file_range _ _ _ Hfile) as Hr.
    apply Runs_bind; [|apply Fixes_Lists, Fixes_get|].
    - apply Runs_get. by apply castle_files.
    - intros rook.
      destruct (castle_squares idx _ kingSide sp rook pr Hsq Hr)
        as (H1 & H2 & H3 & H4).
      by apply Runs_tryCastle. }
  apply Runs_bind; [apply (Hside true) | | intros out1; apply (Hside false)].
  apply Fixes_Lists.
  destruct (_ =? 0); [|apply Fixes_ret].
  apply Fixes_bind; [apply Fixes_get | intros; apply Fixes_tryCastle].
Qed.

Lemma Runs_pawnCapture sp idx dir promo ep pr out step :
  isSquare idx → dir = 1 ∨ dir = -1 → step = 1 ∨ step = -1 →
  Runs (_pawnCapture sp idx (idx + 16 * dir) promo ep pr out step).
Proof.
  intros Hsq Hd Hs. unfold _pawnCapture.
  destruct (negb _) eqn:Hoff; [apply Runs_ret|].
  apply negb_false_iff in Hoff. fold (onBoard (idx + 16 * dir + step)) in Hoff.
  apply Runs_bind; [by apply Runs_get | apply Fixes_Lists, Fixes_get|].
  intros spot.
  pose proof (beside_onBoard _ _ _ Hsq Hd Hs Hoff) as Hside.
  destruct Hsq as [_ Hidx].
  destruct (_ =? ep).
  - apply Runs_bind; [by apply Runs_get | apply Fixes_Lists, Fixes_get|].
    intros epSpot. apply Runs_tryPushMove. unfold moveCoordsOk. cbn.
    rewrite Hidx, Hoff, Hside. by destruct (epSpot =? 0).
  - destruct (_ && _); [|apply Runs_ret].
    apply Runs_tryPushMove. unfold moveCoordsOk. cbn.
    rewrite Hidx, Hoff. by destruct (spot =? 0).
Qed.

Lemma Runs_pawnMoves sp idx out pr :
  isSquare idx → Runs (_pawnMoves sp idx out pr).
Proof.
  intros Hsq. unfold _pawnMoves. cbv zeta.
  set (dir := if spaceGetColor sp =? COLOR_WHITE then 1 else -1).
  assert (Hd : dir = 1 ∨ dir = -1) by (subst dir; destruct (_ =? _); auto).
  destruct (negb _) eqn:Hoff; [apply Runs_ret|].
  apply negb_false_iff in Hoff. fold (onBoard (idx + 16 * dir)) in Hoff.
  pose proof (proj2 Hsq) as Hidx.
  apply Runs_bind; [by apply Runs_get | apply Fixes_Lists, Fixes_get|].
  intros front.
  apply Runs_bind.
  - destruct (front =? SPACE_EMPTY); [|apply Runs_ret].
    apply Runs_bind; [|apply Fixes_Lists, Fixes_tryPushMove|].
    + apply Runs_tryPushMove. unfold moveCoordsOk. cbn. by rewrite Hidx, Hoff.
    + intros out1. destruct (negb (spaceHasMoved sp)); cbn [andb];
        [|apply Runs_ret].
      destruct (_ =? 0) eqn:Htwo; [|apply Runs_ret].
      fold (onBoard (idx + 32 * dir)) in Htwo.
      apply Runs_bind; [by apply Runs_get | apply Fixes_Lists, Fixes_get|].
      intros far. destruct (far =? SPACE_EMPTY); [|apply Runs_ret].
      apply Runs_tryPushMove. unfold moveCoordsOk. cbn. by rewrite Hidx, Htwo.
  - apply Fixes_Lists.
    destruct (front =? SPACE_EMPTY); [|apply Fixes_ret].
    apply Fixes_bind; [apply Fixes_tryPushMove|]. intros out1.
    destruct (_ && _); [|apply Fixes_ret].
    apply Fixes_bind; [apply Fixes_get|]. intros far.
    destruct (far =? SPACE_EMPTY); [apply Fixes_tryPushMove | apply Fixes_ret].
  - intros out2.
    apply Runs_bind; [apply Runs_getCurrent | apply Fixes_Lists, Fixes_getCurrent|].
    intros l. apply Runs_foldM; [|intros; apply Fixes_Lists, Fixes_pawnCapture].
    unfold PAWN_CAPS. repeat constructor; intros acc;
      apply Runs_pawnCapture; auto.
Qed.

Lemma Runs_generate sp idx out pr :
  isSquare idx →
  Runs (Board_save;;
        Board_set idx SPACE_EMPTY;;
        out' ←
          (let type := spaceGetType sp in
           if type =? PIECETYPE_BISHOP then _findMoves sp idx DIRS 4 8 8 out pr
           else if type =? PIECETYPE_ROOK then _findMoves sp idx DIRS 0 4 8 out pr
           else if type =? PIECETYPE_QUEEN then _findMoves sp idx DIRS 0 8 8 out pr
           else if type =? PIECETYPE_KNIGHT then _findMoves sp idx KNIGHT 0 8 1 out pr
           else if type =? PIECETYPE_KING then
             out1 ← _findMoves sp idx DIRS 0 8 1 out pr;
             _findKingCastles sp idx out1 pr
           else if type =? PIECETYPE_PAWN then _pawnMoves sp idx out pr
           else mret out);
        Board_restore;; mret out').
Proof.
  intros Hsq. pose proof (proj2 Hsq) as Hidx.
  apply Runs_save. intros b0 H0.
  apply RunsAbove_bind;
    [by apply Runs_set | apply Framed_set | apply Lists_set |]. intros _.
  apply RunsAbove_bind.
  - cbv zeta.
    repeat (match goal with
            | |- Runs (if ?c then _ else _) => destruct c
            end; try (by apply Runs_findMoves); try (by apply Runs_pawnMoves);
            try apply Runs_ret).
    apply Runs_bind;
      [by apply Runs_findMoves | apply Fixes_Lists, Fixes_findMoves|].
    intros. by apply Runs_findKingCastles.
  - apply Fixes_Framed. cbv zeta.
    repeat (match goal with
            | |- Fixes (if ?c then _ else _) => destruct c
            end; try apply Fixes_findMoves; try apply Fixes_pawnMoves;
            try apply Fixes_ret).
    apply Fixes_bind; [apply Fixes_findMoves|]. intros.
    apply Fixes_findKingCastles.
  - apply Fixes_Lists. cbv zeta.
    repeat (match goal with
            | |- Fixes (if ?c then _ else _) => destruct c
            end; try apply Fixes_findMoves; try apply Fixes_pawnMoves;
            try apply Fixes_ret).
    apply Fixes_bind; [apply Fixes_findMoves|]. intros.
    apply Fixes_findKingCastles.
  - intros out'. apply RunsAbove_restore; [done | apply Runs_ret].
Qed.

Lemma listValidMoves_returns idx out b :
  isSquare idx → get8 (board (current b)) idx ≠ SPACE_EMPTY →
  listedOnBoard (current b) →
  ∃ out' b', listValidMoves idx out b = Ok (out', b').
Proof.
  intros Hsq Hocc Hb. pose proof (proj2 Hsq) as Hidx.
  unfold listValidMoves.
  erewrite bind_Ok by (rewrite Board_get_eq, Hidx; reflexivity).
  erewrite bind_Ok by reflexivity.
  erewrite bind_Ok
    by (unfold assert; rewrite (proj2 (Z.eqb_neq _ _) Hocc); reflexivity).
  by apply Runs_generate.
Qed.

Lemma scan_returns color pieces : ∀ out b,
  Forall (λ x, isSquare x ∧ get8 (board (current b)) x ≠ SPACE_EMPTY) pieces →
  listedOnBoard (current b) →
  ∃ out' b',
    foldM (λ out idx,
             sp ← Board_get idx;
             if spaceGetColor sp =? color then listValidMoves idx out
             else mret out) out pieces b = Ok (out', b').
Proof.
  induction pieces as [|idx rest IH]; intros out b Hp Hb; cbn [foldM].
  - by eexists _, _.
  - apply Forall_cons in Hp as [[Hsq Hocc] Hrest].
    assert (Hstep : ∃ out1 b1,
      (sp ← Board_get idx;
       if spaceGetColor sp =? color then listValidMoves idx out
       else mret out) b = Ok (out1, b1) ∧ current b1 = current b).
    { erewrite bind_Ok by (rewrite Board_get_eq, (proj2 Hsq); reflexivity).
      destruct (_ =? color).
      - destruct (listValidMoves_returns idx out b Hsq Hocc Hb) as (o & b1 & E).
        exists o, b1. split; [done|].
        by destruct (Fixes_listValidMoves _ _ _ _ _ E) as (? & _).
      - by eexists _, _. }
    destruct Hstep as (out1 & b1 & E & Hc).
    erewrite bind_Ok by exact E. apply IH; by rewrite Hc.
Qed.

(** X20: the generator returns.  On a board whose piece list holds occupied
    squares only, [listAllValidMoves] returns for either colour, and for any
    colour value: no assertion of [get], [set] or [listValidMoves] fails
    on the way. *)
Theorem listAllValidMoves_returns (color : Z) (b : Board) :
  Forall (λ x, isSquare x ∧ get8 (board (current b)) x ≠ SPACE_EMPTY)
         (pieceList (current b)) →
  ∃ r b', listAllValidMoves color b = Ok (r, b').
Proof.
  intros Hp. unfold listAllValidMoves.
  erewrite bind_Ok by reflexivity.
  destruct (moveCache (current b) !! color); [by eexists _, _|].
  assert (Hb : listedOnBoard (current b)).
  { eapply Forall_impl; [exact Hp|]. by intros x [[_ ?] _]. }
  destruct (scan_returns color _ [] b Hp Hb) as (out & b1 & E).
  unfold listAllValidMoves_scan. erewrite bind_Ok by exact E.
  by eexists _, _.
Qed.

Lemma listAllValidMoves_returns_witness :
  ∃ r b', listAllValidMoves COLOR_WHITE standardBoard = Ok (r, b').
Proof.
  apply (listAllValidMoves_returns COLOR_WHITE standardBoard).
  apply Forall_forall. intros x Hx.
  assert (H : forallb (λ x, isSquareb x
                && negb (get8 (board (current standardBoard)) x =? SPACE_EMPTY))
                (pieceList (current standardBoard)) = true)
    by (vm_compute; reflexivity).
  rewrite forallb_forall in H. specialize (H x (proj1 (list_elem_of_In _ _) Hx)).
  apply andb_true_iff in H as [H1 H2]. split; [by apply isSquareb_spec|].
  apply negb_true_iff, Z.eqb_neq in H2. done.
Defined.

(** ** public/chess-game.ts *)

Lemma revertMove_status m b b' :
  revertMove m b = Ok (tt, b') →
  status (current b') = prior_status (prior m).
Proof.
  rewrite revertMove_eq. destruct (moveCoordsOk m); [|done].
  by intros [= <-].
Qed.

(** X21: a resignation and the move before it.  When [resignGame] returns,
    the game was not over, and now it is: [resignGame] and [drawGame] throw
    the game-over error, the status reads "resigned", and the winner is
    black when the player is "white" and white for any other string.  An
    [undoMove] that returns then takes back the resignation together with
    the last move: the history loses its last entry, the status is the
    one recorded before that move, and no winner is recorded.  With no move
    played [undoMove] leaves the game resigned. *)
Theorem resignGame_then_undoMove (player : string) (g g1 : ChessGame) :
  ChessGame_resignGame player g = Ok g1 →
  ChessGame_isGameOver g = false
  ∧ ChessGame_isGameOver g1 = true
  ∧ (∀ p, ChessGame_resignGame p g1 = Throw ChessGameOver)
  ∧ (∀ r, ChessGame_drawGame r g1 = Throw ChessGameOver)
  ∧ Status.state (ChessGame_getStatus g1) = Some "resigned"
  ∧ Status.winner (ChessGame_getStatus g1)
    = Some (if String.eqb player "white" then WinnerBlack else WinnerWhite)
  ∧ (game_moves g = [] → ChessGame_undoMove g1 = Ok g1)
  ∧ (∀ ms m g2,
       game_moves g = ms ++ [m] → ChessGame_undoMove g1 = Ok g2 →
       game_moves g2 = ms
       ∧ status (current (game_board g2))
         = prior_status (prior (GameMove.move m))
       ∧ Status.winner (ChessGame_getStatus g2) = None).
Proof.
  unfold ChessGame_resignGame. destruct (ChessGame_isGameOver g) eqn:Hover; [done|].
  intros [= <-]. split; [done|].
  assert (Hover1 : ChessGame_isGameOver
            (ChessGame_withWinner (ChessGame_withStatus g GAMESTATUS_RESIGNED)
               (Some (if String.eqb player "white" then WinnerBlack
                      else WinnerWhite))) = true) by done.
  split; [done|].
  split; [intros p; unfold ChessGame_resignGame; by rewrite Hover1|].
  split; [intros r; unfold ChessGame_drawGame; by rewrite Hover1|].
  split; [done|]. split; [done|]. split.
  - intros Hm. unfold ChessGame_undoMove. cbn. by rewrite Hm.
  - intros ms m g2 Hm. unfold ChessGame_undoMove. cbn [game_moves
      ChessGame_withWinner ChessGame_withStatus game_board].
    rewrite Hm, last_snoc, removelast_last.
    destruct (revertMove _ _) as [[[] b']|] eqn:E; [|done].
    intros [= <-]. cbn. split; [done|]. split; [|done].
    by apply revertMove_status in E.
Qed.

Lemma resignGame_then_undoMove_witness :
  ∃ g2, ChessGame_undoMove resignedNf3 = Ok g2
        ∧ game_moves g2 = []
        ∧ status (current (game_board g2)) = GAMESTATUS_ACTIVE
        ∧ Status.winner (ChessGame_getStatus g2) = None.
Proof.
  pose proof (resignGame_then_undoMove "black" gameNf3 resignedNf3
    ltac:(vm_compute; reflexivity)) as (_ & _ & _ & _ & _ & _ & _ & H).
  eexists. split; [vm_compute; reflexivity|].
  apply (H [] (GameMove.mk 1 "white" "g1" "f3" "Nf3" knightG1F3));
    [reflexivity | vm_compute; reflexivity].
Defined.

(** X22: a draw by agreement and the move before it.  When [drawGame]
    returns, the status reads "draw-other" and the recorded winner is the one
    of before the call: no draw is recorded as the result, where
    [maybeRefreshWinner] records one for the same status.  A reason that is
    not the empty string is kept, and it outlives an [undoMove]: after the
    last move has been taken back and the status is the one recorded before
    it, [getStatus] still gives the reason of the draw. *)
Theorem drawGame_then_undoMove (reason : string) (g g1 : ChessGame) :
  reason ≠ "" →
  ChessGame_drawGame (Some reason) g = Ok g1 →
  Status.state (ChessGame_getStatus g1) = Some "draw-other"
  ∧ Status.winner (ChessGame_getStatus g1) = gameWinner g
  ∧ Status.winner (ChessGame_getStatus (ChessGame_maybeRefreshWinner g1))
    = Some WinnerDraw
  ∧ Status.reason (ChessGame_getStatus g1) = Some reason
  ∧ (∀ ms m g2,
       game_moves g = ms ++ [m] → ChessGame_undoMove g1 = Ok g2 →
       game_moves g2 = ms
       ∧ Status.state (ChessGame_getStatus g2)
         = GAMESTATUS_MAP (prior_status (prior (GameMove.move m)))
       ∧ Status.winner (ChessGame_getStatus g2) = None
       ∧ Status.reason (ChessGame_getStatus g2) = Some reason).
Proof.
  intros Hr. unfold ChessGame_drawGame.
  destruct (ChessGame_isGameOver g); [done|].
  assert (Ht : truthy (Some reason) = true).
  { cbn. apply negb_true_iff, String.eqb_neq, Hr. }
  rewrite Ht. intros [= <-].
  split; [done|]. split; [done|]. split; [done|].
  split.
  { unfold ChessGame_getStatus, ChessGame_withReason, ChessGame_withStatus.
    cbn [drawReason Status.reason]. by rewrite Ht. }
  intros ms m g2 Hm. unfold ChessGame_undoMove. cbn [game_moves
    ChessGame_withReason ChessGame_withStatus game_board].
  rewrite Hm, last_snoc, removelast_last.
  destruct (revertMove _ _) as [[[] b']|] eqn:E; [|done].
  intros [= <-]. split; [done|].
  apply revertMove_status in E.
  unfold ChessGame_getStatus. cbn [game_board gameWinner drawReason Status.state
    Status.winner Status.reason ChessGame_withReason ChessGame_withStatus].
  rewrite E, Ht. done.
Qed.

Lemma drawGame_then_undoMove_witness :
  ∃ g2, ChessGame_undoMove drawnNf3 = Ok g2
        ∧ game_moves g2 = []
        ∧ Status.state (ChessGame_getStatus g2) = Some "active"
        ∧ Status.winner (ChessGame_getStatus g2) = None
        ∧ Status.reason (ChessGame_getStatus g2) = Some "agreed".
Proof.
  pose proof (drawGame_then_undoMove "agreed" gameNf3 drawnNf3
    ltac:(done) ltac:(vm_compute; reflexivity)) as (_ & _ & _ & _ & H).
  eexists. split; [vm_compute; reflexivity|].
  apply (H [] (GameMove.mk 1 "white" "g1" "f3" "Nf3" knightG1F3));
    [reflexivity | vm_compute; reflexivity].
Defined.

(** ** The moves of one piece among the moves of all *)

Lemma Appends_ret : Appends (λ out, mret out).
Proof. intros out b. cbn. by rewrite app_nil_r. Qed.

Lemma Appends_seq f g :
  Appends f → Appends g → Appends (λ out, f out ≫= g).
Proof.
  intros Hf Hg out b. unfold mbind, M_bind. rewrite (Hf out b).
  destruct (f [] b) as [[e b1]|]; [|done].
  rewrite (Hg (out ++ e) b1), (Hg e b1).
  destruct (g [] b1) as [[e2 b2]|]; [|done]. by rewrite app_assoc.
Qed.

Lemma Appends_pre {A} (m : M A) (k : A → list Move → M (list Move)) :
  (∀ a, Appends (k a)) → Appends (λ out, a ← m; k a out).
Proof.
  intros Hk out b. unfold mbind, M_bind.
  destruct (m b) as [[a b1]|]; [|done]. apply Hk.
Qed.

Lemma Appends_foldM {B} (f : list Move → B → M (list Move)) xs :
  (∀ x, Appends (λ out, f out x)) → Appends (λ out, foldM f out xs).
Proof.
  intros Hf. induction xs as [|x xs IH]; cbn [foldM]; [apply Appends_ret|].
  by apply (Appends_seq (λ out, f out x) (λ out, foldM f out xs)).
Qed.

Lemma Appends_tryPushMove m : Appends (λ out, _tryPushMove out m).
Proof.
  intros out b. rewrite !_tryPushMove_eq.
  destruct (moveCoordsOk m); [|done].
  destruct (inDanger _ _) as [d|]; [|done].
  destruct d; cbn [negb]; by rewrite ?app_nil_r.
Qed.

Lemma Appends_ray sp idx step pr n : ∀ newIdx,
  Appends (λ out, _findMoves_ray n sp idx newIdx step pr out).
Proof.
  induction n as [|n IH]; intros newIdx; cbn [_findMoves_ray];
    [apply Appends_ret|].
  destruct (onBoard newIdx); [|apply Appends_ret].
  apply (Appends_pre (Board_get newIdx)). intros newSp.
  destruct (newSp =? SPACE_EMPTY).
  - apply (Appends_seq
             (λ out, _tryPushMove out (createSimpleMove sp idx newIdx pr))
             (λ out', _findMoves_ray n sp idx (newIdx + step) step pr out'));
      [apply Appends_tryPushMove | apply IH].
  - destruct (_ =? _); [apply Appends_tryPushMove | apply Appends_ret].
Qed.

Lemma Appends_findMoves sp idx dirs lo hi maxDist pr :
  Appends (λ out, _findMoves sp idx dirs lo hi maxDist out pr).
Proof.
  unfold _findMoves.
  apply (Appends_foldM
           (λ out step,
              _findMoves_ray (Z.to_nat maxDist) sp idx (idx + step) step pr out)).
  intros step. apply Appends_ray.
Qed.

Lemma Appends_tryCastle m : Appends (λ out, _tryCastle out m).
Proof.
  unfold _tryCastle. cbv zeta.
  apply (Appends_pre (_tryCastle_empty m (castleSpan m))). intros free.
  destruct (negb free); [apply Appends_ret|].
  apply (Appends_pre Board_save). intros _.
  apply (Appends_pre (_tryCastle_kings m)). intros _.
  apply (Appends_pre (kingInDanger (spaceGetColor (what m)))). intros danger.
  apply (Appends_pre Board_restore). intros _.
  destruct danger; [apply Appends_ret | apply Appends_tryPushMove].
Qed.

Lemma Appends_findKingCastles sp idx pr :
  Appends (λ out, _findKingCastles sp idx out pr).
Proof.
  unfold _findKingCastles. cbv zeta.
  destruct (spaceHasMoved sp); [apply Appends_ret|].
  apply (Appends_pre getCurrent). intros l.
  apply (Appends_seq
    (λ out,
       if Z.land (castleMapGetFile (castles l) (spaceGetColor sp) true) 0x8 =? 0
       then
         rook ← Board_get (Z.lor (Z.land idx 0xf0)
                  (castleMapGetFile (castles l) (spaceGetColor sp) true));
         _tryCastle out
           (createCastle sp idx (Z.lor (Z.land idx 0xf0) 6) rook
              (Z.lor (Z.land idx 0xf0)
                 (castleMapGetFile (castles l) (spaceGetColor sp) true))
              (Z.lor (Z.land idx 0xf0) 5) pr)
       else mret out)
    (λ out1,
       if Z.land (castleMapGetFile (castles l) (spaceGetColor sp) false) 0x8 =? 0
       then
         rook ← Board_get (Z.lor (Z.land idx 0xf0)
                  (castleMapGetFile (castles l) (spaceGetColor sp) false));
         _tryCastle out1
           (createCastle sp idx (Z.lor (Z.land idx 0xf0) 2) rook
              (Z.lor (Z.land idx 0xf0)
                 (castleMapGetFile (castles l) (spaceGetColor sp) false))
              (Z.lor (Z.land idx 0xf0) 3) pr)
       else mret out1)).
  - destruct (_ =? 0); [|apply Appends_ret].
    apply (Appends_pre (Board_get _)). intros rook. apply Appends_tryCastle.
  - destruct (_ =? 0); [|apply Appends_ret].
    apply (Appends_pre (Board_get _)). intros rook. apply Appends_tryCastle.
Qed.

Lemma Appends_pawnCapture sp idx oneUp promo ep pr step :
  Appends (λ out, _pawnCapture sp idx oneUp promo ep pr out step).
Proof.
  unfold _pawnCapture. cbv zeta. destruct (negb _); [apply Appends_ret|].
  apply (Appends_pre (Board_get _)). intros spot.
  destruct (_ =? ep).
  - apply (Appends_pre (Board_get _)). intros epSpot. apply Appends_tryPushMove.
  - destruct (_ && _); [apply Appends_tryPushMove | apply Appends_ret].
Qed.

Lemma Appends_pawnMoves sp idx pr : Appends (λ out, _pawnMoves sp idx out pr).
Proof.
  unfold _pawnMoves. cbv zeta.
  set (dir := if spaceGetColor sp =? COLOR_WHITE then 1 else -1).
  destruct (negb _); [apply Appends_ret|].
  apply (Appends_pre (Board_get _)). intros front.
  apply (Appends_seq
    (λ out,
       if front =? SPACE_EMPTY then
         out1 ← _tryPushMove out
                  (createFullMove sp idx (idx + 16 * dir) 0 0 0 0 0
                     (if negb (Z.land (idx + 32 * dir) 0x88 =? 0)
                      then PIECETYPE_QUEEN else 0) 0 pr);
         if negb (spaceHasMoved sp) && (Z.land (idx + 32 * dir) 0x88 =? 0) then
           far ← Board_get (idx + 32 * dir);
           if far =? SPACE_EMPTY then
             _tryPushMove out1
               (createFullMove sp idx (idx + 32 * dir) 0 0 0 0 0 0
                  (idx + 16 * dir) pr)
           else mret out1
         else mret out1
       else mret out)
    (λ out2,
       l ← getCurrent;
       foldM (_pawnCapture sp idx (idx + 16 * dir)
                (if negb (Z.land (idx + 32 * dir) 0x88 =? 0)
                 then PIECETYPE_QUEEN else 0) (ep l) pr) out2 PAWN_CAPS)).
  - destruct (front =? SPACE_EMPTY); [|apply Appends_ret].
    apply (Appends_seq
      (λ out, _tryPushMove out
                (createFullMove sp idx (idx + 16 * dir) 0 0 0 0 0
                   (if negb (Z.land (idx + 32 * dir) 0x88 =? 0)
                    then PIECETYPE_QUEEN else 0) 0 pr))
      (λ out1,
         if negb (spaceHasMoved sp) && (Z.land (idx + 32 * dir) 0x88 =? 0) then
           far ← Board_get (idx + 32 * dir);
           if far =? SPACE_EMPTY then
             _tryPushMove out1
               (createFullMove sp idx (idx + 32 * dir) 0 0 0 0 0 0
                  (idx + 16 * dir) pr)
           else mret out1
         else mret out1)); [apply Appends_tryPushMove|].
    destruct (_ && _); [|apply Appends_ret].
    apply (Appends_pre (Board_get _)). intros far.
    destruct (far =? SPACE_EMPTY); [apply Appends_tryPushMove | apply Appends_ret].
  - apply (Appends_pre getCurrent). intros l.
    apply (Appends_foldM
             (λ out step, _pawnCapture sp idx (idx + 16 * dir)
                (if negb (Z.land (idx + 32 * dir) 0x88 =? 0)
                 then PIECETYPE_QUEEN else 0) (ep l) pr out step)).
    intros step. apply Appends_pawnCapture.
Qed.

Lemma Appends_listValidMoves idx : Appends (λ out, listValidMoves idx out).
Proof.
  unfold listValidMoves.
  apply (Appends_pre (Board_get idx)). intros sp.
  apply (Appends_pre Board_getPriorState). intros pr.
  apply (Appends_pre (assert _ _)). intros _.
  apply (Appends_pre Board_save). intros _.
  apply (Appends_pre (Board_set idx SPACE_EMPTY)). intros _.
  apply (Appends_seq
    (λ out,
       let type := spaceGetType sp in
       if type =? PIECETYPE_BISHOP then _findMoves sp idx DIRS 4 8 8 out pr
       else if type =? PIECETYPE_ROOK then _findMoves sp idx DIRS 0 4 8 out pr
       else if type =? PIECETYPE_QUEEN then _findMoves sp idx DIRS 0 8 8 out pr
       else if type =? PIECETYPE_KNIGHT then _findMoves sp idx KNIGHT 0 8 1 out pr
       else if type =? PIECETYPE_KING then
         out1 ← _findMoves sp idx DIRS 0 8 1 out pr;
         _findKingCastles sp idx out1 pr
       else if type =? PIECETYPE_PAWN then _pawnMoves sp idx out pr
       else mret out)
    (λ out', Board_restore;; mret out')).
  - cbv zeta.
    repeat (match goal with
            | |- Appends (λ out, if ?c then _ else _) => destruct c
            end; try apply Appends_findMoves; try apply Appends_pawnMoves;
            try apply Appends_ret).
    apply (Appends_seq (λ out, _findMoves sp idx DIRS 0 8 1 out pr)
             (λ out1, _findKingCastles sp idx out1 pr));
      [apply Appends_findMoves | apply Appends_findKingCastles].
  - apply (Appends_pre Board_restore). intros _. apply Appends_ret.
Qed.

Lemma listValidMoves_from idx out b out' b' :
  isSquare idx →
  listValidMoves idx out b = Ok (out', b') →
  b' = b ∧ ∃ extra, out' = out ++ extra ∧ Forall (λ m, from m = idx) extra.
Proof.
  intros Hsq H.
  destruct (listValidMoves_inv _ _ _ _ _ Hsq H) as (-> & _ & extra & -> & F).
  split; [done|]. exists extra. split; [done|].
  eapply Forall_impl; [exact F|]. intros m (m0 & Hcand & _ & Hpush).
  destruct (Candidate_origin _ _ _ _ _ Hcand) as (_ & Hf0 & _).
  destruct (pushed_fields _ _ Hpush) as (_ & Hf1 & _). congruence.
Qed.

Lemma pieceMoves_from b idx :
  isSquare idx → Forall (λ m, from m = idx) (pieceMoves b idx).
Proof.
  intros Hsq. unfold pieceMoves.
  destruct (listValidMoves idx [] b) as [[ms b1]|] eqn:E; [|done].
  destruct (listValidMoves_from _ _ _ _ _ Hsq E) as (_ & extra & -> & F). done.
Qed.

Lemma scan_concat color pieces : ∀ out b out' b',
  Forall isSquare pieces →
  foldM (λ out idx,
           sp ← Board_get idx;
           if spaceGetColor sp =? color then listValidMoves idx out
           else mret out) out pieces b = Ok (out', b') →
  b' = b
  ∧ out' = out ++ concat (map (pieceMoves b)
             (List.filter (λ x, spaceGetColor (get8 (board (current b)) x) =? color)
                          pieces)).
Proof.
  induction pieces as [|idx rest IH]; intros out b out' b' Hsq H; cbn [foldM] in H.
  - injection H as <- <-. cbn. by rewrite app_nil_r.
  - apply Forall_cons in Hsq as [Hidx Hrest].
    apply bind_inv in H as (o1 & b1 & Hstep & H).
    apply bind_inv in Hstep as (sp & b0 & Hget & Hstep).
    rewrite Board_get_eq, (proj2 Hidx) in Hget. injection Hget as <- <-.
    cbn [List.filter].
    destruct (_ =? color).
    + pose proof Hstep as Hstep'.
      rewrite (Appends_listValidMoves idx out b) in Hstep'.
      destruct (listValidMoves_from _ _ _ _ _ Hidx Hstep) as (-> & _).
      assert (Ho1 : o1 = out ++ pieceMoves b idx).
      { unfold pieceMoves. destruct (listValidMoves idx [] b) as [[e b2]|]; [|done].
        by injection Hstep' as <- _. }
      destruct (IH _ _ _ _ Hrest H) as (-> & ->).
      split; [done|]. cbn [map concat]. by rewrite Ho1, app_assoc.
    + injection Hstep as <- <-. by apply IH.
Qed.

Lemma filter_from_concat (g : Z → list Move) idx xs :
  NoDup xs → (∀ x, x ∈ xs → Forall (λ m, from m = x) (g x)) →
  List.filter (λ m, from m =? idx) (concat (map g xs))
  = if bool_decide (idx ∈ xs) then g idx else [].
Proof.
  intros Hnd Hg. induction Hnd as [|x xs Hx Hnd IH]; [done|].
  cbn [map concat]. rewrite List.filter_app, IH
    by (intros y Hy; apply Hg; by right).
  assert (Hgx : Forall (λ m, from m = x) (g x)) by (apply Hg; left).
  destruct (decide (idx = x)) as [->|Hne].
  - rewrite (bool_decide_eq_true_2 (x ∈ x :: xs)) by left.
    rewrite (bool_decide_eq_false_2 (x ∈ xs)) by done.
    rewrite app_nil_r. clear -Hgx.
    induction Hgx as [|m ms Hm _ IHm]; [done|].
    cbn. rewrite Hm, Z.eqb_refl. by f_equal.
  - assert (Hnil : List.filter (λ m, from m =? idx) (g x) = []).
    { clear -Hgx Hne. induction Hgx as [|m ms Hm _ IHm]; [done|].
      cbn. rewrite Hm. by replace (x =? idx) with false
        by (symmetry; apply Z.eqb_neq; congruence). }
    rewrite Hnil. cbn [app].
    destruct (bool_decide (idx ∈ xs)) eqn:E.
    + rewrite bool_decide_eq_true_2; [done|]. right. by apply bool_decide_eq_true in E.
    + rewrite bool_decide_eq_false_2; [done|].
      apply bool_decide_eq_false in E. intros [?|?]%elem_of_cons; done.
Qed.

(** X23: the moves of one piece among the moves of all.  When the cache
    slot of the colour is empty, the list [listAllValidMoves] returns is, in
    the order of the piece list, the list [listValidMoves] gives for each
    piece of the colour; so the moves of the list that leave a square are
    the ones [listValidMoves] gives for that square, and none when the
    square holds no listed piece of the colour. *)
Theorem listAllValidMoves_by_piece (color : Z) (b : Board) r b' :
  moveCache (current b) !! color = None →
  NoDup (pieceList (current b)) →
  Forall isSquare (pieceList (current b)) →
  listAllValidMoves color b = Ok (r, b') →
  default [] (arrays b' !! r)
  = concat (map (pieceMoves b)
      (List.filter (λ x, spaceGetColor (get8 (board (current b)) x) =? color)
                   (pieceList (current b))))
  ∧ ∀ idx,
      List.filter (λ m, from m =? idx) (default [] (arrays b' !! r))
      = if bool_decide (idx ∈ pieceList (current b))
           && (spaceGetColor (get8 (board (current b)) idx) =? color)
        then pieceMoves b idx else [].
Proof.
  intros Hc Hnd Hsq H. unfold listAllValidMoves in H.
  apply bind_inv in H as (l & b0 & [= <- <-] & H). rewrite Hc in H.
  apply bind_inv in H as (out & b1 & Hscan & H).
  apply scan_concat in Hscan as (-> & Hout); [|done]. cbn [app] in Hout.
  cbn in H. injection H as <- <-. cbn [arrays withCurrent].
  rewrite (list_lookup_middle (arrays b) [] _ (length (arrays b)) eq_refl).
  cbn [default]. unfold id. split; [done|]. intros idx. rewrite Hout.
  rewrite filter_from_concat.
  - assert (Hin : idx ∈ List.filter
                (λ x, spaceGetColor (get8 (board (current b)) x) =? color)
                (pieceList (current b))
              ↔ idx ∈ pieceList (current b)
                ∧ (spaceGetColor (get8 (board (current b)) idx) =? color) = true).
    { rewrite !list_elem_of_In.
      apply (filter_In (λ x, spaceGetColor (get8 (board (current b)) x) =? color)). }
    destruct (bool_decide (idx ∈ pieceList (current b))) eqn:E1;
      destruct (spaceGetColor (get8 (board (current b)) idx) =? color) eqn:E2;
      cbn [andb].
    + rewrite bool_decide_eq_true_2; [done|]. apply Hin.
      split; [by apply bool_decide_eq_true_1 in E1 | done].
    + rewrite bool_decide_eq_false_2; [done|]. by intros [_ ?]%Hin.
    + rewrite bool_decide_eq_false_2; [done|]. intros [? _]%Hin.
      by apply bool_decide_eq_false_1 in E1.
    + rewrite bool_decide_eq_false_2; [done|]. by intros [_ ?]%Hin.
  - by apply NoDup_ListNoDup, List.NoDup_filter, NoDup_ListNoDup.
  - intros x Hx%list_elem_of_In%filter_In. destruct Hx as [Hx _].
    apply pieceMoves_from. rewrite Forall_forall in Hsq.
    by apply Hsq, list_elem_of_In.
Qed.

Lemma listAllValidMoves_by_piece_witness :
  default [] (arrays (listed standardBoard COLOR_WHITE) !! 0%nat)
  = concat (map (pieceMoves standardBoard)
      (List.filter
         (λ x, spaceGetColor (get8 (board (current standardBoard)) x) =? COLOR_WHITE)
         (pieceList (current standardBoard))))
  ∧ ∀ idx,
      List.filter (λ m, from m =? idx)
        (default [] (arrays (listed standardBoard COLOR_WHITE) !! 0%nat))
      = if bool_decide (idx ∈ pieceList (current standardBoard))
           && (spaceGetColor (get8 (board (current standardBoard)) idx)
               =? COLOR_WHITE)
        then pieceMoves standardBoard idx else [].
Proof.
  apply (listAllValidMoves_by_piece COLOR_WHITE standardBoard 0%nat
           (listed standardBoard COLOR_WHITE)).
  - vm_compute. reflexivity.
  - apply (bool_decide_eq_true_1 (NoDup (pieceList (current standardBoard)))).
    vm_compute. reflexivity.
  - apply squares_check. vm_compute. reflexivity.
  - vm_compute. reflexivity.
Defined.

(** ** logic/pgn/game-from-pgn.ts *)

Lemma parseMoveList_skips nT fM variation : ∀ depth depth' rest moves b,
  depthAfter (S depth) variation = Some depth' →
  _parseMoveList_loop nT fM (S depth) (variation ++ rest) moves b
  = _parseMoveList_loop nT fM depth' rest moves b.
Proof.
  induction variation as [|tok v IH]; intros depth depth' rest moves b H.
  - injection H as <-. done.
  - cbn [depthAfter] in H. cbn [app _parseMoveList_loop].
    destruct tok as [[]| | | |];
      try (by apply IH);
      destruct depth as [|d]; try (by apply IH);
      destruct v; cbn in H; by simplify_eq.
Qed.

(** X24: a variation in a move list is skipped.  After an opening
    parenthesis [_parseMoveList] reads on to the parenthesis that closes it,
    nested pairs counted, and goes on behind it as if the variation were not
    there, whatever tokens the variation holds; when the tokens end with a
    parenthesis still open, it throws "PGN move list didn't have a
    conclusion". *)
Theorem parseMoveList_skips_variation (numberText : Z → string)
    (findMoveBySAN : list Move → string → Res Move)
    (variation rest : list Token) (depth' : nat) (moves : list PgnMove)
    (b : Board) :
  depthAfter 1 variation = Some depth' →
  (depth' = 0%nat →
     _parseMoveList numberText findMoveBySAN
       (TokChar LParen :: variation ++ rest) moves b
     = _parseMoveList numberText findMoveBySAN rest moves b)
  ∧ (depth' ≠ 0%nat →
       _parseMoveList numberText findMoveBySAN
         (TokChar LParen :: variation) moves b
       = Throw (ChessParseError "PGN move list didn't have a conclusion")).
Proof.
  intros H. unfold _parseMoveList. cbn [_parseMoveList_loop]. split.
  - intros ->. by apply parseMoveList_skips.
  - intros Hd. rewrite <- (app_nil_r variation).
    rewrite (parseMoveList_skips _ _ _ _ _ _ _ _ H).
    by destruct depth'.
Qed.

Lemma parseMoveList_skips_variation_witness :
  (0%nat = 0%nat →
     _parseMoveList noText findNone
       (TokChar LParen
        :: [TokSym "e4"; TokChar LParen; TokStr "x"; TokChar RBracket;
            TokChar RParen; TokInt 7; TokChar RParen] ++ [TokChar Star])
       [] standardBoard
     = _parseMoveList noText findNone [TokChar Star] [] standardBoard)
  ∧ (0%nat ≠ 0%nat →
       _parseMoveList noText findNone
         (TokChar LParen
          :: [TokSym "e4"; TokChar LParen; TokStr "x"; TokChar RBracket;
              TokChar RParen; TokInt 7; TokChar RParen]) [] standardBoard
       = Throw (ChessParseError "PGN move list didn't have a conclusion")).
Proof.
  apply (parseMoveList_skips_variation noText findNone
           [TokSym "e4"; TokChar LParen; TokStr "x"; TokChar RBracket;
            TokChar RParen; TokInt 7; TokChar RParen] [TokChar Star] 0).
  reflexivity.
Defined.

(** X25: the last token of a PGN game.  [_parseEndOfGame] throws on no
    token and on more than one.  An asterisk is taken as it is, the status
    of the board not looked at.  A quoted string is read as the symbol of
    the same text, since [_expectToken] throws nothing.  The results 1-0 and
    0-1 turn an active game into a resigned one and leave any other status;
    the result 1/2-1/2 leaves a status that is one of the draws, and the
    winner read off it is the draw.  Any other token is an unexpected game
    end. *)
Theorem parseEndOfGame_endings (numberText : Z → string) (b : Board) :
  _parseEndOfGame numberText [] b
  = Throw (ChessParseError "PGN move list didn't have a conclusion")
  ∧ (∀ t t' rest,
       _parseEndOfGame numberText (t :: t' :: rest) b
       = Throw (ChessParseError "PGN had extra moves after game ended"))
  ∧ _parseEndOfGame numberText [TokChar Star] b = Ok ("*", b)
  ∧ (∀ v, _parseEndOfGame numberText [TokStr v] b
          = _parseEndOfGame numberText [TokSym v] b)
  ∧ (∀ v, v = "1-0" ∨ v = "0-1" →
       _parseEndOfGame numberText [TokSym v] b
       = Ok (v, if status (current b) =? GAMESTATUS_ACTIVE
                then withCurrent b (withStatus (current b) GAMESTATUS_RESIGNED)
                else b))
  ∧ (∀ s b',
       _parseEndOfGame numberText [TokSym "1/2-1/2"] b = Ok (s, b') →
       s = "1/2-1/2" ∧ GAMESTATUS_DRAW <= status (current b')
       ∧ _winnerString s = Some WinnerDraw)
  ∧ (∀ t, tokenType t ≠ "*" →
       tokenString t ≠ Some "1-0" → tokenString t ≠ Some "0-1" →
       tokenString t ≠ Some "1/2-1/2" →
       _parseEndOfGame numberText [t] b
       = Throw (ChessParseError
                  ("PGN had an unexpected game end: " +:+ valueText numberText t))).
Proof.
  split; [done|]. split; [done|]. split; [done|]. split; [done|].
  split; [|split].
  - intros v [-> | ->]; unfold _parseEndOfGame; cbn [length];
      rewrite (bool_decide_eq_true_2 (0%nat = 0%nat)) by done; cbn;
      unfold mbind, M_bind, getCurrent, when, modifyCurrent, mret, M_ret;
      by destruct (status (current b) =? GAMESTATUS_ACTIVE).
  - intros s b' H. unfold _parseEndOfGame in H. cbn [length] in H.
    rewrite (bool_decide_eq_true_2 (0%nat = 0%nat)) in H by done. cbn in H.
    apply bind_inv in H as ([] & b0 & [= <-] & H).
    apply bind_inv in H as (l & b1 & [= <- <-] & H).
    apply bind_inv in H as (res & b2 & _ & H).
    apply bind_inv in H as ([] & b3 & [= <-] & H).
    injection H as <- <-. split; [done|]. split; [|done].
    cbn [current withCurrent withStatus status].
    destruct (Z.leb_spec GAMESTATUS_DRAW (newGameStatus res)); [done | lia].
  - intros t Hstar H1 H2 H3. unfold _parseEndOfGame.
    cbn [length bool_decide negb].
    rewrite (bool_decide_eq_true_2 (0%nat = 0%nat)) by done. cbn [negb].
    replace (String.eqb (tokenType t) "*") with false
      by (symmetry; by apply String.eqb_neq).
    unfold mbind, M_bind.
    replace (_expectToken numberText (Some t) "Sym" b) with (Ok (tt, b))
      by (unfold _expectToken; by destruct (negb _)).
    destruct (tokenString t) as [v|]; [|done].
    replace (String.eqb v "1-0") with false
      by (symmetry; apply String.eqb_neq; congruence).
    replace (String.eqb v "0-1") with false
      by (symmetry; apply String.eqb_neq; congruence).
    replace (String.eqb v "1/2-1/2") with false
      by (symmetry; apply String.eqb_neq; congruence).
    done.
Qed.

(** ** [perft] returns *)

Lemma boardListed_check l : boardListedb l = true → boardListed l.
Proof.
  unfold boardListedb. rewrite !andb_true_iff.
  intros [[[[H1 H2] H3] H4] H5].
  apply bool_decide_eq_true_1 in H1. apply bool_decide_eq_true_1 in H3.
  rewrite forallb_forall in H2, H4, H5.
  split; [done|]. split.
  - apply Forall_forall. intros x Hx%list_elem_of_In%H2.
    unfold isByteb in Hx. apply andb_true_iff in Hx as [Ha Hb].
    apply Z.leb_le in Ha. apply Z.ltb_lt in Hb. done.
  - split; [done|]. intros x. split.
    + intros Hx%list_elem_of_In%H4. apply andb_true_iff in Hx as [Ha Hb].
      split; [by apply isSquareb_spec|]. by apply negb_true_iff, Z.eqb_neq in Hb.
    + intros [[Hr Hon] Hocc].
      specialize (H5 x ltac:(apply list_elem_of_In, elem_of_seqZ; lia)).
      rewrite Hon in H5. apply Z.eqb_neq in Hocc. rewrite Hocc in H5.
      cbn in H5. by apply bool_decide_eq_true_1 in H5.
Qed.

Lemma put8_bytes a x v : Forall isByte a → Forall isByte (put8 a x v).
Proof.
  intros H. unfold put8. apply Forall_insert; [done|].
  unfold isByte, u8. apply Z.mod_pos_bound. lia.
Qed.

Lemma Layer_set_boardListed l x v :
  isSquare x → isByte v → boardListed l → boardListed (Layer_set l x v).
Proof.
  intros Hx Hv (Hlen & Hb & Hnd & Hpl).
  split; [by rewrite Layer_set_board, put8_length|].
  split; [rewrite Layer_set_board; by apply put8_bytes|].
  by apply Layer_set_pieces.
Qed.

Lemma performSets_boardListed m l :
  writesBytes m → boardListed l → boardListed (performSets m l).
Proof.
  intros (Hf & Ht & Hw & Hc & Hr & Hcs & Hrs & Hp) Hst.
  assert (H0 : isByte SPACE_EMPTY) by (unfold isByte, SPACE_EMPTY; lia).
  unfold performSets.
  destruct (Z.eqb_spec (capture m) 0) as [Ec|Ec],
           (Z.eqb_spec (castleRook m) 0) as [Er|Er],
           (Z.eqb_spec (promote m) 0) as [Ep|Ep];
    repeat (apply Layer_set_boardListed;
            [tauto || done
            |first [done | by apply Hp | by apply spaceMarkMoved_byte] |]);
    done.
Qed.

(** The squares and the pieces of a generated move. *)
Lemma Generated_writes l color m :
  boardListed l → Generated l color m → writesBytes m.
Proof.
  intros (Hlen & Hb & Hnd & Hpl) (idx & Hin & Hcol & Hsp & m0 & Hcand & _ & Hm).
  assert (Hidx : isSquare idx) by (by apply Hpl).
  assert (Hgb : Forall isByte (board (genLayer l idx))).
  { unfold genLayer. rewrite Layer_set_board. by apply put8_bytes. }
  assert (H0 : isByte 0) by (unfold isByte; lia).
  destruct (pushed_fields _ _ Hm)
    as (Hw & Hf & Ht & Hc & Hcc & Hr & Hrf & Hrt & _ & Hpromo).
  destruct (Candidate_origin _ _ _ _ _ Hcand) as (Hw0 & Hf0 & _).
  assert (Hwb : isByte (what m)) by (rewrite Hw, Hw0; by apply get8_byte).
  assert (Hpb : promote m ≠ 0 →
            isByte (encodePieceSpace (promote m) (spaceGetColor (what m)) true)).
  { intros Hp. destruct Hpromo as [[_ ?]|[_ Hpin]]; [done|].
    destruct (promoted_piece (spaceGetColor (what m)) (promote m)
                (spaceGetColor_cases _) (or_introl Hpin)) as [Hrange _].
    unfold isByte. lia. }
  unfold writesBytes. rewrite Hf, Ht, Hc, Hcc, Hr, Hrf, Hrt.
  destruct Hcand as [dest promo mark Hd _ _ _
                    |dest promo Hd _ _ _
                    |dest taken promo Hd _ Htk _ _ _ _
                    |kingSide file rank mc Hking Hfile _]; cbn.
  - split_and!; done.
  - split_and!; try done. by apply get8_byte.
  - split_and!; try done. by apply get8_byte.
  - pose proof (castle_file_range _ _ _ Hfile) as Hrange.
    split_and!; try done.
    + apply castle_files; [done | destruct kingSide; lia].
    + by apply get8_byte.
    + intros _. split; apply castle_files; try done; destruct kingSide; lia.
Qed.

Lemma listAllValidMoves_total color b :
  Forall (λ x, isSquare x ∧ get8 (board (current b)) x ≠ SPACE_EMPTY)
         (pieceList (current b)) →
  ∃ r b', listAllValidMoves color b = Ok (r, b').
Proof.
  intros Hp. unfold listAllValidMoves.
  erewrite bind_Ok by reflexivity.
  destruct (moveCache (current b) !! color); [by eexists _, _|].
  assert (Hb : listedOnBoard (current b)).
  { eapply Forall_impl; [exact Hp|]. by intros x [[_ ?] _]. }
  destruct (scan_returns color _ [] b Hp Hb) as (out & b1 & E).
  unfold listAllValidMoves_scan. erewrite bind_Ok by exact E.
  by eexists _, _.
Qed.

Lemma clearMoveCache_lookup cache c :
  c = COLOR_WHITE ∨ c = COLOR_BLACK → clearMoveCache cache !! c = None.
Proof.
  unfold clearMoveCache. intros [-> | ->].
  - rewrite lookup_delete_ne by done. apply lookup_delete_eq.
  - apply lookup_delete_eq.
Qed.

Lemma perft_rec_returns n : ∀ depth b,
  boardListed (current b) →
  turn (current b) = COLOR_WHITE ∨ turn (current b) = COLOR_BLACK →
  cacheValid b (turn (current b)) →
  ∃ v b', perft_rec n depth b = Ok (v, b').
Proof.
  induction n as [|n IH]; intros depth b Hbl Hturn Hcv.
  all: pose proof Hbl as (Hlen & Hbytes & Hnd & Hpl).
  all: assert (Hocc : Forall (λ x, isSquare x
                         ∧ get8 (board (current b)) x ≠ SPACE_EMPTY)
                        (pieceList (current b)))
         by (apply Forall_forall; intros x Hx; by apply Hpl).
  all: destruct (listAllValidMoves_total (turn (current b)) b Hocc)
         as (r & b1 & Hl).
  all: cbn [perft_rec].
  all: erewrite bind_Ok by reflexivity.
  all: erewrite bind_Ok by exact Hl.
  all: erewrite bind_Ok by reflexivity.
  - destruct (depth <=? 1); by eexists _, _.
  - destruct (depth <=? 1); [by eexists _, _|].
    assert (Hsq : Forall isSquare (pieceList (current b)))
      by (eapply Forall_impl; [exact Hocc | by intros x [? _]]).
    destruct (listAllValidMoves_generated _ _ _ _ Hsq Hcv Hl)
      as (Hgen & _ & _).
    assert (Hb1 : board (current b) = board (current b1)
                  ∧ pieceList (current b) = pieceList (current b1)
                  ∧ turn (current b) = turn (current b1)).
    { destruct (Recaches_listAllValidMoves _ _ _ _ Hl) as ((c & -> & _) & _).
      done. }
    clear Hl Hcv. revert Hgen. generalize (default [] (arrays b1 !! r)).
    intros moves. generalize 0 as acc.
    revert Hb1. generalize b1 as b3. clear b1.
    induction moves as [|m ms IHm]; intros b3 (Hb3 & Hp3 & Ht3) acc Hgen;
      cbn [foldM]; [by eexists _, _|].
    apply Forall_cons in Hgen as [Hm Hms].
    destruct (Generated_safe _ _ _ Hsq Hm) as [Hok _].
    pose proof (Generated_writes _ _ _ Hbl Hm) as Hwr.
    set (b4 := mkBoard (arrays b3) (current b3 :: lower b3)
                 (copyLayer (current b3) newLayer)).
    set (b5 := withCurrent b4
                 (recordHash (lower b4) (performLayer m (current b4)))).
    assert (Hbl5 : boardListed (current b5)).
    { assert (Hc : boardListed (performSets m (copyLayer (current b3) newLayer))).
      { apply performSets_boardListed; [done|].
        unfold boardListed, piecesListed. cbn [copyLayer board pieceList].
        by rewrite <- Hb3, <- Hp3. }
      exact Hc. }
    assert (Ht5 : turn (current b5) = 8 - turn (current b))
      by (cbn; rewrite performSets_turn; cbn; by rewrite <- Ht3).
    assert (Hturn5 : turn (current b5) = COLOR_WHITE
                     ∨ turn (current b5) = COLOR_BLACK).
    { rewrite Ht5. unfold COLOR_WHITE, COLOR_BLACK in *. lia. }
    assert (Hcv5 : cacheValid b5 (turn (current b5))).
    { intros r0 Hr0. exfalso. revert Hr0.
      replace (moveCache (current b5))
        with (clearMoveCache (moveCache (performSets m (current b4)))) by done.
      by rewrite clearMoveCache_lookup. }
    destruct (IH (depth - 1) b5 Hbl5 Hturn5 Hcv5) as (deep & b6 & Hdeep).
    destruct (Recaches_perft_rec _ _ _ _ _ Hdeep) as (_ & Hlow6 & _).
    assert (Hstep : (Board_save;; performMove m;;
                     deep ← perft_rec n (depth - 1);
                     Board_restore;; mret (acc + deep)) b3
                    = Ok (acc + deep,
                          mkBoard (arrays b6) (lower b3) (current b3))).
    { erewrite bind_Ok by reflexivity. fold b4.
      erewrite bind_Ok by (rewrite performMove_eq, Hok; reflexivity). fold b5.
      erewrite bind_Ok by exact Hdeep.
      erewrite bind_Ok; [reflexivity|].
      unfold Board_restore. by rewrite Hlow6. }
    erewrite bind_Ok by exact Hstep.
    apply IHm; [|done]. cbn [current]. by rewrite <- Hb3, <- Hp3, <- Ht3.
Qed.

(** X26: [perft] returns.  On a position whose board array holds 128
    bytes and whose piece list holds each occupied square once and nothing
    else, with white or black to move and a cache slot that is empty or holds
    moves generated for the position, [perft] returns at every depth: no
    assertion fails in the generator, in [performMove] or in [kingInDanger]
    at any level of the recursion. *)
Theorem perft_returns (depth : Z) (b : Board) :
  boardListed (current b) →
  turn (current b) = COLOR_WHITE ∨ turn (current b) = COLOR_BLACK →
  cacheValid b (turn (current b)) →
  ∃ n b', perft depth b = Ok (n, b').
Proof. intros. by apply perft_rec_returns. Qed.

Lemma perft_returns_witness : ∃ n b', perft 3 standardBoard = Ok (n, b').
Proof.
  apply (perft_returns 3 standardBoard).
  - apply boardListed_check. vm_compute. reflexivity.
  - left. reflexivity.
  - apply cacheValid_empty. vm_compute. reflexivity.
Defined.

(** ** ChessGame.undoMove *)





